(** * NSGA-II on the welded beam design problem

    A shallow embedding of the notebook [SynergySummerSchool.ipynb]:
    the evaluation function [welded_beam_design] and the generational
    driver [optimize], together with the properties of both.

    Conventions of the embedding.
    - A Python [float] is a real number ([R]): arithmetic is exact, the
      rounding of IEEE-754 doubles is not part of the model.  Operations
      that raise in Python ([/] on a zero divisor, [math.sqrt] on a
      negative argument, indexing past the end) return [Raise].
    - A Python [int] is a [Z].
    - The global generator of the [random] module and the calls made to
      the registered operators are threaded explicitly through a [World].
    - The operators of the DEAP library (selection, crossover, mutation,
      nondominated sorting) are not code of the notebook; they are the
      fields of a record [DEAP], over which the driver is parameterised,
      as it is over the hypervolume function and the evaluation
      function.
    - The calls that only draw the figures are left out.

    The file has two parts: the definitions, then the lemmas and
    theorems. *)

From Stdlib Require Import String Reals Lra Lia ZArith Bool List.
Import ListNotations.

Open Scope R_scope.

(** ** Python exceptions and fallible computations *)

Inductive exn : Type :=
| IndexError
| ZeroDivisionError
| ValueError
| UnboundLocalError.

Inductive result (A : Type) : Type :=
| Ok (a : A)
| Raise (e : exn).

Arguments Ok {A} a.
Arguments Raise {A} e.

Definition rbind {A B : Type} (c : result A) (k : A -> result B) : result B :=
  match c with
  | Ok a => k a
  | Raise e => Raise e
  end.

Declare Scope result_scope.
Delimit Scope result_scope with result.
Notation "x <- c ;; k" := (rbind c (fun x => k))
  (at level 61, c at next level, right associativity) : result_scope.

(** [x[i]] on a sequence. *)
Definition getitem {A : Type} (x : list A) (i : nat) : result A :=
  match nth_error x i with
  | Some v => Ok v
  | None => Raise IndexError
  end.

(** [a / b] on floats: a zero divisor raises [ZeroDivisionError]. *)
Definition fdiv (a b : R) : result R :=
  if Req_dec_T b 0 then Raise ZeroDivisionError else Ok (a / b).

(** [math.sqrt a]: a negative argument raises [ValueError]. *)
Definition fsqrt (a : R) : result R :=
  if Rlt_dec a 0 then Raise ValueError else Ok (sqrt a).

(** ** The evaluation function (cell "Evaluation function in Python") *)

Section WeldedBeam.
Local Open Scope result_scope.

(** [welded_beam_design(x)], statement by statement.  Divisions by a
    non-zero literal ([12.0], [40.0], [0.006]) cannot raise and are
    written with the total division of [R]. *)
Definition welded_beam_design (x : list R) : result (list R) :=
  (* problem encoding *)
  x0 <- getitem x 0 ;;
  let b := 0.125 + 4.875 * x0 in
  x1 <- getitem x 1 ;;
  let h := 0.125 + (b - 0.125) * x1 in
  x2 <- getitem x 2 ;;
  let l := 0.1 + 9.9 * x2 in
  x3 <- getitem x 3 ;;
  let t := 0.1 + 9.9 * x3 in
  (* auxiliary terms *)
  sigma <- fdiv 504000.0 (t*t * b) ;;
  r2 <- fsqrt 2.0 ;;
  tau1 <- fdiv 6000.0 (r2 * h * l) ;;
  ra <- fsqrt (0.25 * (l*l + (h+t)*(h+t))) ;;
  tau2 <- fdiv (6000.0 * (14.0 + 0.5*l) * ra)
               (1.414 * h*l * (l*l/12.0 + 0.25*(h+t)*(h+t))) ;;
  rb <- fsqrt (0.25 * (l*l + (h+t)*(h+t))) ;;
  q <- fdiv (l*tau1*tau2) rb ;;
  tau <- fsqrt (tau1*tau1 + tau2*tau2 + q) ;;
  let P_c := 64746.022 * (1.0 - 0.0282346*t) * t * b*b*b in
  (* fitness functions *)
  let f1 := 1.10471 * h*h * l + 0.04811 * t * b * (14.0 + l) in
  f2 <- fdiv 2.1952 (t*t*t * b) ;;
  (* scaling roughly to range [0, 1] *)
  let f1 := f1 / 40.0 in
  let f2 := f2 / 0.006 in
  (* constraints *)
  let g1 := tau - 13600.0 in
  let g2 := sigma - 30000.0 in
  let g3 := 6000.0 - P_c in
  (* penalty for constraint violations *)
  let penalty := Rmax (1e-6 * g1) 0.0 + Rmax (1e-6 * g2) 0.0 + Rmax (1e-7 * g3) 0.0 in
  let penalty := if Rgt_dec penalty 0.0 then penalty + 0.5 else penalty in
  let f1 := f1 + penalty in
  let f2 := f2 + penalty in
  (* non-linearly rescaled fitness *)
  Ok [tanh f1; tanh f2].

(** The quantities the function computes before scaling and penalising:
    the two raw objectives and the three constraint functions (the same
    statements as above, up to [g3]). *)
Record RawTerms : Type := {
  raw_f1 : R;
  raw_f2 : R;
  raw_g1 : R;
  raw_g2 : R;
  raw_g3 : R
}.

Definition welded_beam_terms (x : list R) : result RawTerms :=
  x0 <- getitem x 0 ;;
  let b := 0.125 + 4.875 * x0 in
  x1 <- getitem x 1 ;;
  let h := 0.125 + (b - 0.125) * x1 in
  x2 <- getitem x 2 ;;
  let l := 0.1 + 9.9 * x2 in
  x3 <- getitem x 3 ;;
  let t := 0.1 + 9.9 * x3 in
  sigma <- fdiv 504000.0 (t*t * b) ;;
  r2 <- fsqrt 2.0 ;;
  tau1 <- fdiv 6000.0 (r2 * h * l) ;;
  ra <- fsqrt (0.25 * (l*l + (h+t)*(h+t))) ;;
  tau2 <- fdiv (6000.0 * (14.0 + 0.5*l) * ra)
               (1.414 * h*l * (l*l/12.0 + 0.25*(h+t)*(h+t))) ;;
  rb <- fsqrt (0.25 * (l*l + (h+t)*(h+t))) ;;
  q <- fdiv (l*tau1*tau2) rb ;;
  tau <- fsqrt (tau1*tau1 + tau2*tau2 + q) ;;
  let P_c := 64746.022 * (1.0 - 0.0282346*t) * t * b*b*b in
  let f1 := 1.10471 * h*h * l + 0.04811 * t * b * (14.0 + l) in
  f2 <- fdiv 2.1952 (t*t*t * b) ;;
  Ok {| raw_f1 := f1; raw_f2 := f2;
        raw_g1 := tau - 13600.0;
        raw_g2 := sigma - 30000.0;
        raw_g3 := 6000.0 - P_c |}.

(** The penalty the function adds to both objectives (lines
    "penalty = ..." and "if penalty > 0.0: penalty += 0.5"). *)
Definition penalty_of (r : RawTerms) : R :=
  let penalty := Rmax (1e-6 * raw_g1 r) 0.0 + Rmax (1e-6 * raw_g2 r) 0.0
                 + Rmax (1e-7 * raw_g3 r) 0.0 in
  if Rgt_dec penalty 0.0 then penalty + 0.5 else penalty.


(** The description of the specification, in its words: the raw
    objectives are scaled by fixed constants, the penalty is a weighted
    sum of the positive parts of the constraint violations, plus a flat
    0.5 exactly when that sum is strictly positive; the penalty is added
    to both objectives and [tanh] is applied. *)
Definition positive_part (g : R) : R := if Rlt_dec 0 g then g else 0.

Definition weighted_violation (r : RawTerms) : R :=
  1e-6 * positive_part (raw_g1 r) + 1e-6 * positive_part (raw_g2 r)
  + 1e-7 * positive_part (raw_g3 r).

Definition flat_add (s : R) : R := if Rlt_dec 0 s then 0.5 else 0.

Definition spec_penalty (r : RawTerms) : R :=
  weighted_violation r + flat_add (weighted_violation r).

Definition spec_welded_beam_design (x : list R) : result (list R) :=
  r <- welded_beam_terms x ;;
  Ok [tanh (raw_f1 r / 40.0 + spec_penalty r);
      tanh (raw_f2 r / 0.006 + spec_penalty r)].

End WeldedBeam.

(** The domain of the evaluation function: four genes, each in [0,1]. *)
Definition unit_interval (v : R) : Prop := 0 <= v <= 1.

Definition in_domain (x : list R) : Prop :=
  length x = 4%nat /\ Forall unit_interval x.

(** ** Individuals, the random generator and the world *)

(** [creator.Individual]: an [array('d')] of genes carrying a fitness.
    [fitness_values] is [fitness.values], the empty tuple until the first
    assignment; [crowding_dist] is the attribute the NSGA-II selection
    attaches to the fitness. *)
Record Individual : Type := {
  genes : list R;
  fitness_values : list R;
  crowding_dist : option R
}.

(** [creator.Individual(genes)]. *)
Definition new_individual (g : list R) : Individual :=
  {| genes := g; fitness_values := []; crowding_dist := None |}.

(** [ind.fitness.values = fit]. *)
Definition set_fitness (ind : Individual) (fit : list R) : Individual :=
  {| genes := genes ind; fitness_values := fit; crowding_dist := crowding_dist ind |}.

(** [toolbox.clone(ind)]: a deep copy, an equal value in a fresh object. *)
Definition clone (ind : Individual) : Individual := ind.

(** The state of the module [random]: the sequence of values that
    [random.random()] is going to return, and how many were consumed. *)
Record Rng : Type := {
  draws : nat -> R;
  pos : nat
}.

(** [functools.partial] objects, as [toolbox.register] creates them: the
    keyword arguments frozen at registration, and the instance
    dictionary that receives the attributes assigned later.  A call of
    the partial object passes [keywords]; it never reads [attributes]. *)
Record Partial (K : Type) : Type := {
  keywords : K;
  attributes : list (string * R)
}.

Arguments keywords {K} p.
Arguments attributes {K} p.

(** [p.name = v] on a partial object, for a name other than its three
    read-only slots ([func], [args], [keywords]). *)
Definition setattr {K : Type} (p : Partial K) (name : string) (v : R) : Partial K :=
  {| keywords := keywords p;
     attributes := (name, v)
       :: filter (fun kv => negb (String.eqb (fst kv) name)) (attributes p) |}.

Record AttributeArgs : Type := {
  bound_lower : R;
  bound_upper : R;
  size : nat
}.

Record MateKeywords : Type := {
  mate_low : R;
  mate_up : R;
  mate_eta : R
}.

Record MutateKeywords : Type := {
  mutate_low : R;
  mutate_up : R;
  mutate_eta : R;
  mutate_indpb : R
}.

(** The registered operators that carry arguments. *)
Record Toolbox : Type := {
  attribute_float : AttributeArgs;
  mate : Partial MateKeywords;
  mutate : Partial MutateKeywords
}.

(** Cell "Algorithm set up". *)
Definition number_of_attributes : nat := 4.
Definition attribute_bound_lower : R := 0.0.
Definition attribute_bound_upper : R := 1.0.
Definition reference_point : list R := [1.1; 1.1].

(** The [toolbox.register] calls of the cell "NSGA2 algorithm", for given
    bounds. *)
Definition register_toolbox (lower upper : R) (n : nat) : Toolbox :=
  {| attribute_float := {| bound_lower := lower; bound_upper := upper; size := n |};
     mate := {| keywords := {| mate_low := lower; mate_up := upper; mate_eta := 20.0 |};
                attributes := [] |};
     mutate := {| keywords := {| mutate_low := lower; mutate_up := upper;
                                 mutate_eta := 20.0; mutate_indpb := 0.1 |};
                  attributes := [] |} |}.

Definition registered_toolbox : Toolbox :=
  register_toolbox attribute_bound_lower attribute_bound_upper number_of_attributes.

(** The calls the driver makes to the registered operators, in order.
    Offspring are named by the generation that created them and their
    index in the list [offspring] of that generation; generation 0 is
    the initial population. *)
Inductive Call : Type :=
| Created (n : Z)
| Evaluated (x : list R)
| Tournament (generation : Z) (chosen : list Individual)
| Mated (generation : Z) (i j : nat)
| Mutated (generation : Z) (i : nat) (indpb : R)
| Selected (generation : Z) (individuals : list Individual) (k : Z)
           (chosen : list Individual).

(** The global state: the generator, the global [toolbox], and the
    calls made so far. *)
Record World : Type := {
  rng : Rng;
  toolbox : Toolbox;
  log : list Call
}.

Definition initial_world (g : Rng) : World :=
  {| rng := g; toolbox := registered_toolbox; log := [] |}.

(** The registered toolbox once attributes have been assigned on
    [toolbox.mutate], as earlier calls of [optimize] do. *)
Definition toolbox_with_attributes (attrs : list (string * R)) : Toolbox :=
  {| attribute_float := attribute_float registered_toolbox;
     mate := mate registered_toolbox;
     mutate := {| keywords := keywords (mutate registered_toolbox);
                  attributes := attrs |} |}.

(** ** The operators of the DEAP library *)

(** The library is not part of the notebook: its operators are
    parameters of the driver.  Those that draw random numbers take the
    state of the generator and return the new one. *)
Record DEAP : Type := {
  (** [tools.selNSGA2(individuals, k)] *)
  selNSGA2 : list Individual -> Z -> list Individual;
  (** [tools.selTournamentDCD(individuals, k)] *)
  selTournamentDCD : list Individual -> Z -> Rng -> list Individual * Rng;
  (** [tools.cxSimulatedBinaryBounded(ind1, ind2, eta, low, up)] *)
  cxSimulatedBinaryBounded :
    Individual -> Individual -> R -> R -> R -> Rng -> (Individual * Individual) * Rng;
  (** [tools.mutPolynomialBounded(individual, eta, low, up, indpb)] *)
  mutPolynomialBounded : Individual -> R -> R -> R -> R -> Rng -> Individual * Rng;
  (** [tools.sortNondominated(individuals, k)] *)
  sortNondominated : list Individual -> Z -> list (list Individual)
}.

(** [hypervolume(population, reference_point)] of [deap.benchmarks.tools]. *)
Definition Hypervolume : Type := list Individual -> list R -> R.

(** Modelled from the spec: the sizes of the results of the two
    selections of the library, whose code is not in the notebook.  The
    tournament returns a pool "of the same size as input" (section 4.5)
    and the environmental selection "never returns more or fewer than"
    the number of individuals asked for (section 8). *)
Definition selection_sizes (D : DEAP) : Prop :=
  (forall l k, (0 <= k <= Z.of_nat (length l))%Z ->
               length (selNSGA2 D l k) = Z.to_nat k)
  /\ (forall l k g, (0 <= k <= Z.of_nat (length l))%Z ->
                    length (fst (selTournamentDCD D l k g)) = Z.to_nat k).

(** ** Computations on the world *)

Inductive outcome (A : Type) : Type :=
| Done (a : A) (w : World)
| Failed (e : exn) (w : World).

Arguments Done {A} a w.
Arguments Failed {A} e w.

Definition M (A : Type) : Type := World -> outcome A.

Definition ret {A : Type} (a : A) : M A := fun w => Done a w.

Definition throw {A : Type} (e : exn) : M A := fun w => Failed e w.

Definition mbind {A B : Type} (c : M A) (k : A -> M B) : M B :=
  fun w => match c w with
           | Done a w' => k a w'
           | Failed e w' => Failed e w'
           end.

Definition lift {A : Type} (r : result A) : M A :=
  match r with
  | Ok a => ret a
  | Raise e => throw e
  end.

Definition world_of {A : Type} (o : outcome A) : World :=
  match o with
  | Done _ w => w
  | Failed _ w => w
  end.

Declare Scope world_scope.
Delimit Scope world_scope with world.
Notation "x <- c ;; k" := (mbind c (fun x => k))
  (at level 61, c at next level, right associativity) : world_scope.
Notation "' pat <- c ;; k" := (mbind c (fun x => match x with pat => k end))
  (at level 61, pat pattern, c at next level, right associativity) : world_scope.

(** Appending a call to the log. *)
Definition record (c : Call) : M unit :=
  fun w => Done tt {| rng := rng w; toolbox := toolbox w; log := log w ++ [c] |}.

(** Running an operator that consumes random numbers. *)
Definition with_rng {A : Type} (f : Rng -> A * Rng) : M A :=
  fun w => let (a, g) := f (rng w) in
           Done a {| rng := g; toolbox := toolbox w; log := log w |}.

Definition get_toolbox : M Toolbox := fun w => Done (toolbox w) w.

Definition put_toolbox (tb : Toolbox) : M unit :=
  fun w => Done tt {| rng := rng w; toolbox := tb; log := log w |}.

(** [random.random()] *)
Definition random_random : M R :=
  with_rng (fun g => (draws g (pos g), {| draws := draws g; pos := S (pos g) |})).

(** [random.uniform(a, b)] *)
Definition random_uniform (a b : R) : M R :=
  mbind random_random (fun u => ret (a + (b - a) * u)).

(** [for x in xs: state = body(x, state)] *)
Fixpoint for_each {A S : Type} (xs : list A) (body : A -> S -> M S) (s : S) : M S :=
  match xs with
  | [] => ret s
  | x :: rest => mbind (body x s) (for_each rest body)
  end.

(** [[f() for _ in range(n)]] *)
Fixpoint repeat_call {A : Type} (n : nat) (f : M A) : M (list A) :=
  match n with
  | O => ret []
  | S n' => mbind f (fun a => mbind (repeat_call n' f) (fun rest => ret (a :: rest)))
  end.

(** [range(a, b)] *)
Definition py_range (a b : Z) : list Z :=
  map (fun k => (a + Z.of_nat k)%Z) (seq 0 (Z.to_nat (b - a))).

(** [l[::2]]; [l[1::2]] is [stride2 (tl l)]. *)
Fixpoint stride2 {A : Type} (l : list A) : list A :=
  match l with
  | [] => []
  | x :: rest => x :: match rest with
                      | [] => []
                      | _ :: rest' => stride2 rest'
                      end
  end.

(** Replacing the object at index [i]. *)
Fixpoint set_nth {A : Type} (i : nat) (v : A) (l : list A) : list A :=
  match l, i with
  | [], _ => []
  | _ :: rest, O => v :: rest
  | x :: rest, S i' => x :: set_nth i' v rest
  end.

(** ** The driver (cells "Auxiliary functions" and "NSGA2 algorithm") *)

Section Driver.
Local Open Scope world_scope.

Variable D : DEAP.
Variable hypervolume : Hypervolume.
(** [toolbox.evaluate], registered as [evaluation_function]. *)
Variable evaluate : list R -> result (list R).

(** [initialization_uniform(bound_lower, bound_upper, size)].  The bounds
    of the set-up cell are floats, so [zip(bound_lower, bound_upper)]
    raises [TypeError] and the [except] branch runs: [size] draws of
    [random.uniform(bound_lower, bound_upper)]. *)
Definition initialization_uniform (lower upper : R) (n : nat) : M (list R) :=
  repeat_call n (random_uniform lower upper).

(** [toolbox.individual()]: [tools.initIterate(creator.Individual,
    toolbox.attribute_float)]. *)
Definition toolbox_individual : M Individual :=
  tb <- get_toolbox ;;
  let a := attribute_float tb in
  g <- initialization_uniform (bound_lower a) (bound_upper a) (size a) ;;
  ret (new_individual g).

(** [toolbox.population(n=n)]: [tools.initRepeat(list,
    toolbox.individual, n)]. *)
Definition toolbox_population (n : Z) : M (list Individual) :=
  _ <- record (Created n) ;;
  repeat_call (Z.to_nat n) toolbox_individual.

(** [fitnesses = toolbox.map(toolbox.evaluate, individuals)] followed by
    [for ind, fit in zip(individuals, fitnesses): ind.fitness.values =
    fit].  The map is lazy: each evaluation happens when the loop reaches
    it, and an exception of the evaluation function ends the run. *)
Fixpoint assign_fitnesses (individuals : list Individual) : M (list Individual) :=
  match individuals with
  | [] => ret []
  | ind :: rest =>
      _ <- record (Evaluated (genes ind)) ;;
      fit <- lift (evaluate (genes ind)) ;;
      rest' <- assign_fitnesses rest ;;
      ret (set_fitness ind fit :: rest')
  end.

(** [toolbox.select(individuals, k)] *)
Definition toolbox_select (generation : Z) (individuals : list Individual) (k : Z)
  : M (list Individual) :=
  let chosen := selNSGA2 D individuals k in
  _ <- record (Selected generation individuals k chosen) ;;
  ret chosen.

(** [tools.selTournamentDCD(individuals, k)] *)
Definition tools_selTournamentDCD (generation : Z) (individuals : list Individual) (k : Z)
  : M (list Individual) :=
  chosen <- with_rng (selTournamentDCD D individuals k) ;;
  _ <- record (Tournament generation chosen) ;;
  ret chosen.

(** [toolbox.mate(ind1, ind2)]: the partial object passes the keywords
    frozen at registration. *)
Definition toolbox_mate (generation : Z) (i j : nat) (ind1 ind2 : Individual)
  : M (Individual * Individual) :=
  tb <- get_toolbox ;;
  let kw := keywords (mate tb) in
  _ <- record (Mated generation i j) ;;
  with_rng (cxSimulatedBinaryBounded D ind1 ind2 (mate_eta kw) (mate_low kw) (mate_up kw)).

(** [toolbox.mutate(ind)]: likewise. *)
Definition toolbox_mutate (generation : Z) (i : nat) (ind : Individual) : M Individual :=
  tb <- get_toolbox ;;
  let kw := keywords (mutate tb) in
  _ <- record (Mutated generation i (mutate_indpb kw)) ;;
  with_rng (mutPolynomialBounded D ind (mutate_eta kw) (mutate_low kw) (mutate_up kw)
                                 (mutate_indpb kw)).

(** [if random.random() <= crossover_probability: toolbox.mate(ind1, ind2)] *)
Definition crossover (generation : Z) (crossover_probability : R) (i j : nat)
  (ind1 ind2 : Individual) : M (Individual * Individual) :=
  u <- random_random ;;
  if Rle_dec u crossover_probability
  then toolbox_mate generation i j ind1 ind2
  else ret (ind1, ind2).

(** The body of [for ind1, ind2 in zip(offspring[::2], offspring[1::2])].
    [ind1] and [ind2] are the objects at indices [i] and [j] of
    [offspring]; the operators change them in place. *)
Definition vary_pair (generation : Z) (crossover_probability : R) (ij : nat * nat)
  (offspring : list Individual) : M (list Individual) :=
  let (i, j) := ij in
  ind1 <- lift (getitem offspring i) ;;
  ind2 <- lift (getitem offspring j) ;;
  ' (ind1, ind2) <- crossover generation crossover_probability i j ind1 ind2 ;;
  ind1 <- toolbox_mutate generation i ind1 ;;
  ind2 <- toolbox_mutate generation j ind2 ;;
  ret (set_nth j ind2 (set_nth i ind1 offspring)).

(** The indices of the objects paired by
    [zip(offspring[::2], offspring[1::2])] for a list of [n] objects. *)
Definition mating_pairs (n : nat) : list (nat * nat) :=
  combine (stride2 (seq 0 n)) (stride2 (tl (seq 0 n))).

Definition variation (generation : Z) (crossover_probability : R)
  (offspring : list Individual) : M (list Individual) :=
  for_each (mating_pairs (length offspring))
           (vary_pair generation crossover_probability) offspring.

(** The local variables that live across the generations. *)
Record Locals : Type := {
  population : list Individual;
  hypervolume_value : option R;
  hypervolume_history : list (R * R)
}.

(** The body of [for generation in range(1, number_of_generations)].
    The calls that only draw the figures are left out. *)
Definition generation_body (population_size : Z) (crossover_probability : R)
  (generation : Z) (s : Locals) : M Locals :=
  offspring <- tools_selTournamentDCD generation (population s)
                 (Z.of_nat (length (population s))) ;;
  let offspring := map clone offspring in
  offspring <- variation generation crossover_probability offspring ;;
  offspring <- assign_fitnesses offspring ;;
  population' <- toolbox_select generation (population s ++ offspring) population_size ;;
  nondominated_individuals <-
    lift (getitem (sortNondominated D population' (Z.of_nat (length population'))) 0) ;;
  let value := hypervolume population' reference_point in
  ret {| population := population';
         hypervolume_value := Some value;
         hypervolume_history := hypervolume_history s ++ [(IZR generation, value)] |}.

(** [toolbox.mutate.name = v]: an attribute assignment on the partial
    object registered as [toolbox.mutate]. *)
Definition set_mutate_attribute (name : string) (v : R) : M unit :=
  tb <- get_toolbox ;;
  put_toolbox {| attribute_float := attribute_float tb;
                 mate := mate tb;
                 mutate := setattr (mutate tb) name v |}.

(** [optimize], up to its [return] statement. *)
Definition optimize_locals (population_size number_of_generations : Z)
  (crossover_probability mutation_probability : R) : M Locals :=
  (* set mutation probability *)
  _ <- set_mutate_attribute "indpb" mutation_probability ;;
  (* initialize population with pop_size individuals *)
  population0 <- toolbox_population population_size ;;
  (* evaluate the individuals *)
  population0 <- assign_fitnesses population0 ;;
  (* just to assign crowding distance *)
  population0 <- toolbox_select 0 population0 (Z.of_nat (length population0)) ;;
  (* begin generational process *)
  for_each (py_range 1 number_of_generations)
           (generation_body population_size crossover_probability)
           {| population := population0;
              hypervolume_value := None;
              hypervolume_history := [(0, 0)] |}.

(** [return hypervolume_value]: the variable is bound only by the body
    of the loop. *)
Definition optimize (population_size number_of_generations : Z)
  (crossover_probability mutation_probability : R) : M R :=
  s <- optimize_locals population_size number_of_generations
         crossover_probability mutation_probability ;;
  match hypervolume_value s with
  | Some v => ret v
  | None => throw UnboundLocalError
  end.

End Driver.

(** Cell "Algorithm set up": [use_external_library_for_evaluation] is
    [False], so the registered evaluation function is the Python one. *)
Definition evaluation_function : list R -> result (list R) := welded_beam_design.

(** ** Reading the log *)

(** The mutation probabilities with which offspring [i] of generation
    [g] was mutated, one per call. *)
Fixpoint mutations_of (g : Z) (i : nat) (calls : list Call) : list R :=
  match calls with
  | [] => []
  | Mutated g' i' p :: rest =>
      if (Z.eqb g g' && Nat.eqb i i')%bool
      then p :: mutations_of g i rest
      else mutations_of g i rest
  | _ :: rest => mutations_of g i rest
  end.


Definition is_mutation (c : Call) : bool :=
  match c with
  | Mutated _ _ _ => true
  | _ => false
  end.

Definition indpb_of (c : Call) : option R :=
  match c with
  | Mutated _ _ p => Some p
  | _ => None
  end.

(** ** A small instance of the library, to run the driver on *)

Definition head_selection (l : list Individual) (k : Z) : list Individual :=
  firstn (Z.to_nat k) l.

Definition swap_genes (a b : Individual) : Individual * Individual :=
  ({| genes := genes b; fitness_values := fitness_values a;
      crowding_dist := crowding_dist a |},
   {| genes := genes a; fitness_values := fitness_values b;
      crowding_dist := crowding_dist b |}).

Definition toy_deap : DEAP :=
  {| selNSGA2 := head_selection;
     selTournamentDCD := fun l k g => (head_selection l k, g);
     cxSimulatedBinaryBounded := fun a b _ _ _ g => (swap_genes a b, g);
     mutPolynomialBounded := fun a _ _ _ _ g => (a, g);
     sortNondominated := fun l _ => [l] |}.

Definition toy_hypervolume : Hypervolume := fun _ _ => 0.

Definition toy_evaluate (x : list R) : result (list R) := Ok [0; 0].

(** A generator whose every draw is 0.0. *)
Definition zero_rng : Rng := {| draws := fun _ => 0; pos := 0 |}.

(** ** Definitions used to state the properties *)

(** [appended w calls w']: from [w] to [w'] the toolbox is unchanged and
    [calls] were appended to the log. *)
Definition appended (w : World) (calls : list Call) (w' : World) : Prop :=
  toolbox w' = toolbox w /\ log w' = log w ++ calls.

(** The index pairs of [zip(l[::2], l[1::2])] for the [n] indices that
    start at [a]. *)
Definition pairs_from (a n : nat) : list (nat * nat) :=
  combine (stride2 (seq a n)) (stride2 (tl (seq a n))).

(** How many times index [k] occurs in a list of index pairs. *)
Fixpoint slot_count (k : nat) (ps : list (nat * nat)) : nat :=
  match ps with
  | [] => O
  | (i, j) :: rest =>
      ((if Nat.eqb k i then 1 else 0) + (if Nat.eqb k j then 1 else 0)
       + slot_count k rest)%nat
  end.

(** The calls that the variation loop of generation [g] makes for a list
    of index pairs, when the registered mutation probability is [p]:
    for each pair, at most one crossover, then one mutation of each of
    the two. *)
Inductive variation_calls (g : Z) (p : R) : list (nat * nat) -> list Call -> Prop :=
| variation_calls_nil : variation_calls g p [] []
| variation_calls_cons (i j : nat) (ps : list (nat * nat)) (cs rest : list Call) :
    cs = [] \/ cs = [Mated g i j] ->
    variation_calls g p ps rest ->
    variation_calls g p ((i, j) :: ps) (cs ++ Mutated g i p :: Mutated g j p :: rest).

(** The number of offspring that belong to a mating pair, out of [n]. *)
Definition paired (n : nat) : nat := if Nat.even n then n else Nat.pred n.

(** [evolves p w w']: if the mutation probability registered in the
    toolbox of [w] is [p], it still is in [w'], and the log of [w'] is
    the log of [w] followed by calls whose mutations all carry [p]. *)
Definition evolves (p : R) (w w' : World) : Prop :=
  mutate_indpb (keywords (mutate (toolbox w))) = p ->
  mutate_indpb (keywords (mutate (toolbox w'))) = p
  /\ exists calls,
       log w' = log w ++ calls
       /\ Forall (fun c => forall q, indpb_of c = Some q -> q = p) calls.

(** A computation every run of which, completed or failed, [evolves]. *)
Definition steady (p : R) {A : Type} (m : M A) : Prop :=
  forall w, evolves p w (world_of (m w)).

Definition is_evaluation (c : Call) : Prop := exists x, c = Evaluated x.

(** The calls of one generation [g] run on [parents], for [n] offspring
    and the registered mutation probability [p]: the tournament that
    returns the mating pool, the variation loop over the clones of the
    pool, the evaluations, and the selection among parents and
    offspring.  Every offspring outside the mating pairs is the clone
    of its pool entry, with the fitness the evaluation gave it. *)
Definition generation_calls (evaluate : list R -> result (list R))
  (p : R) (n : nat) (k : Z) (g : Z) (calls : list Call) : Prop :=
  exists parents pool vcalls ecalls offspring chosen,
    calls = Tournament g pool :: vcalls ++ ecalls
            ++ [Selected g (parents ++ offspring) k chosen]
    /\ length pool = n
    /\ variation_calls g p (mating_pairs n) vcalls
    /\ Forall is_evaluation ecalls
    /\ length offspring = n
    /\ (forall i parent,
          (paired n <= i)%nat -> nth_error pool i = Some parent ->
          exists fit, evaluate (genes parent) = Ok fit
                      /\ nth_error offspring i = Some (set_fitness (clone parent) fit)).

(** The calls of the generations [gs], one after the other. *)
Inductive generations_calls (evaluate : list R -> result (list R))
  (p : R) (n : nat) (k : Z) : list Z -> list Call -> Prop :=
| generations_calls_nil : generations_calls evaluate p n k [] []
| generations_calls_cons (g : Z) (gs : list Z) (c1 c2 : list Call) :
    generation_calls evaluate p n k g c1 ->
    generations_calls evaluate p n k gs c2 ->
    generations_calls evaluate p n k (g :: gs) (c1 ++ c2).

(** The calls that precede the first generation: the creation of the
    population, its evaluations, and the selection that assigns the
    crowding distances. *)
Definition setup_calls (k : Z) (calls : list Call) : Prop :=
  exists ecalls individuals chosen,
    calls = Created k :: ecalls
            ++ [Selected 0 individuals (Z.of_nat (length individuals)) chosen]
    /\ Forall is_evaluation ecalls.

(** No crossover and no mutation among the calls. *)
Definition no_variation (calls : list Call) : Prop :=
  Forall (fun c => match c with
                   | Mated _ _ _ | Mutated _ _ _ => False
                   | _ => True
                   end) calls.


(** The populations returned by [toolbox.select], in order. *)
Fixpoint selected_populations (calls : list Call) : list (list Individual) :=
  match calls with
  | [] => []
  | Selected _ _ _ chosen :: rest => chosen :: selected_populations rest
  | _ :: rest => selected_populations rest
  end.

(** Two outcomes of the driver that agree on everything but the
    hypervolume: the same world (generator, toolbox and calls, hence
    the same populations selected generation after generation) and the
    same final population, or the same failure. *)
Definition same_populations (o1 o2 : outcome Locals) : Prop :=
  match o1, o2 with
  | Done s1 w1, Done s2 w2 =>
      population s1 = population s2
      /\ w1 = w2
      /\ selected_populations (log w1) = selected_populations (log w2)
  | Failed e1 w1, Failed e2 w2 => e1 = e2 /\ w1 = w2
  | _, _ => False
  end.

(** ** The problem encoding of the evaluation function *)

(** The dimensions of the beam that [welded_beam_design] decodes from
    the genes (lines "problem encoding"): width [b] and thickness [t]
    of the beam, thickness [h] and length [l] of the weld. *)
Record Dimensions : Type := {
  dim_b : R;
  dim_h : R;
  dim_l : R;
  dim_t : R
}.

Definition beam_dimensions (x : list R) : result Dimensions :=
  rbind (getitem x 0) (fun x0 =>
  let b := 0.125 + 4.875 * x0 in
  rbind (getitem x 1) (fun x1 =>
  let h := 0.125 + (b - 0.125) * x1 in
  rbind (getitem x 2) (fun x2 =>
  let l := 0.1 + 9.9 * x2 in
  rbind (getitem x 3) (fun x3 =>
  let t := 0.1 + 9.9 * x3 in
  Ok {| dim_b := b; dim_h := h; dim_l := l; dim_t := t |})))).

(** Stress, buckling load and objectives that need no square root, as
    the function computes them from the dimensions. *)
Definition bending_stress (d : Dimensions) : R :=
  504000.0 / (dim_t d * dim_t d * dim_b d).

Definition buckling_load (d : Dimensions) : R :=
  64746.022 * (1.0 - 0.0282346 * dim_t d) * dim_t d * dim_b d * dim_b d * dim_b d.

Definition cost (d : Dimensions) : R :=
  1.10471 * dim_h d * dim_h d * dim_l d
  + 0.04811 * dim_t d * dim_b d * (14.0 + dim_l d).

Definition deflection (d : Dimensions) : R :=
  2.1952 / (dim_t d * dim_t d * dim_t d * dim_b d).

(** No constraint is violated. *)
Definition feasible (r : RawTerms) : Prop :=
  raw_g1 r <= 0 /\ raw_g2 r <= 0 /\ raw_g3 r <= 0.


(** ** [initialization_uniform] on every kind of bound *)

(** The bounds given to [initialization_uniform] are floats or
    sequences of floats. *)
Inductive Bound : Type :=
| Scalar (r : R)
| Sequence (l : list R).

(** A value, or the [TypeError] that Python raises. *)
Inductive typed (A : Type) : Type :=
| Value (a : A)
| TypeError.

Arguments Value {A} a.
Arguments TypeError {A}.

(** [zip(a, b)]: a float is not iterable. *)
Definition zip_bounds (a b : Bound) : typed (list (R * R)) :=
  match a, b with
  | Sequence l, Sequence u => Value (combine l u)
  | _, _ => TypeError
  end.

(** [[x] * size]: [size] has to be an integer ([None] is the default of
    the parameter); a non-positive integer gives the empty list. *)
Definition times (x : Bound) (size : option Z) : typed (list Bound) :=
  match size with
  | Some n => Value (repeat x (Z.to_nat n))
  | None => TypeError
  end.

(** [random.uniform(a, b)], that is [a + (b - a) * random()]: on
    anything but two floats the subtraction raises, before any draw. *)
Definition bound_uniform (a b : Bound) : M (typed R) :=
  match a, b with
  | Scalar x, Scalar y => mbind (random_uniform x y) (fun v => ret (Value v))
  | _, _ => ret TypeError
  end.

(** [[random.uniform(a, b) for a, b in pairs]] *)
Fixpoint uniform_each (pairs : list (Bound * Bound)) : M (typed (list R)) :=
  match pairs with
  | [] => ret (Value [])
  | (a, b) :: rest =>
      mbind (bound_uniform a b) (fun v =>
        match v with
        | TypeError => ret TypeError
        | Value g =>
            mbind (uniform_each rest) (fun r =>
              match r with
              | TypeError => ret TypeError
              | Value gs => ret (Value (g :: gs))
              end)
        end)
  end.

(** [initialization_uniform(bound_lower, bound_upper, size)] with its
    two branches: the [try] over the zipped bounds, and on [TypeError]
    the [except] over [size] copies of each bound. *)
Definition initialization_uniform_bounds (bound_lower bound_upper : Bound)
  (size : option Z) : M (typed (list R)) :=
  mbind (match zip_bounds bound_lower bound_upper with
         | Value pairs =>
             uniform_each (map (fun ab => (Scalar (fst ab), Scalar (snd ab))) pairs)
         | TypeError => ret TypeError
         end)
        (fun attempt =>
           match attempt with
           | Value g => ret (Value g)
           | TypeError =>
               match times bound_lower size, times bound_upper size with
               | Value ls, Value us => uniform_each (combine ls us)
               | _, _ => ret TypeError
               end
           end).

(** Every draw of the generator lies in [0, 1), the range of
    [random.random()]. *)
Definition unit_draws (g : Rng) : Prop := forall k, 0 <= draws g k < 1.

(** The generator after [n] more draws. *)
Definition advance (n : nat) (g : Rng) : Rng :=
  {| draws := draws g; pos := (pos g + n)%nat |}.

(** The values of [n] draws of [random.uniform(a, b)]. *)
Definition uniform_values (a b : R) (n : nat) (g : Rng) : list R :=
  map (fun k => a + (b - a) * draws g (pos g + k)%nat) (seq 0 n).

(** ** Further readings of the log *)

(** The gene vectors given to the evaluation function, in order. *)
Fixpoint evaluated (calls : list Call) : list (list R) :=
  match calls with
  | [] => []
  | Evaluated x :: rest => x :: evaluated rest
  | _ :: rest => evaluated rest
  end.

Definition is_selection (c : Call) : bool :=
  match c with
  | Selected _ _ _ _ => true
  | _ => false
  end.

(** The calls of [toolbox.select], in order. *)
Definition selections (calls : list Call) : list Call := filter is_selection calls.

(** [selection_chain n k previous gs sels final]: the selections [sels]
    are those of the generations [gs], one each; every one is asked for
    [k] individuals among the population chosen by the one before (at
    first [previous]) followed by [n] offspring, and chooses [n];
    [final] is the population chosen by the last one. *)
Fixpoint selection_chain (n : nat) (k : Z) (previous : list Individual)
  (gs : list Z) (sels : list Call) (final : list Individual) : Prop :=
  match gs, sels with
  | [], [] => final = previous
  | g :: gs', Selected g' individuals k' chosen :: rest =>
      g' = g /\ k' = k
      /\ (exists offspring, individuals = previous ++ offspring
                            /\ length offspring = n)
      /\ length chosen = n
      /\ selection_chain n k chosen gs' rest final
  | _, _ => False
  end.

(** The calls of the completed generations [gs], run from the
    population [parents] and leaving the population [final]. *)
Inductive generations_trace (evaluate : list R -> result (list R))
  (p : R) (n : nat) (k : Z) :
  list Z -> list Individual -> list Call -> list Individual -> Prop :=
| generations_trace_nil (parents : list Individual) :
    generations_trace evaluate p n k [] parents [] parents
| generations_trace_cons (g : Z) (gs : list Z)
    (parents pool varied offspring chosen final : list Individual)
    (vcalls calls : list Call) :
    length pool = n ->
    variation_calls g p (mating_pairs n) vcalls ->
    length varied = n ->
    Forall2 (fun ind ind' => exists fit, evaluate (genes ind) = Ok fit
                                         /\ ind' = set_fitness ind fit)
            varied offspring ->
    length chosen = n ->
    generations_trace evaluate p n k gs chosen calls final ->
    generations_trace evaluate p n k (g :: gs) parents
      (Tournament g pool :: vcalls
       ++ map (fun ind => Evaluated (genes ind)) varied
       ++ Selected g (parents ++ offspring) k chosen :: calls)
      final.

(** [p.name], read in the instance dictionary of a partial object. *)
Definition getattr {K : Type} (p : Partial K) (name : string) : option R :=
  match find (fun kv => String.eqb (fst kv) name) (attributes p) with
  | Some kv => Some (snd kv)
  | None => None
  end.

(** A computation no run of which, completed or failed, changes the
    toolbox. *)
Definition keeps_toolbox {A : Type} (m : M A) : Prop :=
  forall w, toolbox (world_of (m w)) = toolbox w.

(** ** [fitness_data] *)

(** [fitness_data(population)]: the fitness values of the individuals,
    appended row by row.  The numpy array built at the end is modelled
    as the list of its rows. *)
Definition fitness_data (population : list Individual) : list (list R) :=
  fold_left (fun fitness_array_data individual =>
               fitness_array_data ++ [fitness_values individual])
            population [].

(** ** The library's operators and the bounds *)

(** Genes between the bounds given to a bounded operator. *)
Definition within (low up : R) (ind : Individual) : Prop :=
  Forall (fun v => low <= v <= up) (genes ind).

(** An individual whose genes the evaluation function accepts. *)
Definition in_bounds (ind : Individual) : Prop := in_domain (genes ind).

(** Modelled from the spec (section 8) and the documentation of the
    library, whose code is not in the notebook: the bounded crossover
    and the bounded mutation change genes in place and clip them to the
    bounds, so that individuals within the bounds (for the crossover,
    two individuals with as many genes each) stay within them and keep
    their number of genes. *)
Definition operators_keep_bounds (D : DEAP) : Prop :=
  (forall a b eta low up g,
      within low up a -> within low up b ->
      length (genes a) = length (genes b) ->
      within low up (fst (fst (cxSimulatedBinaryBounded D a b eta low up g)))
      /\ within low up (snd (fst (cxSimulatedBinaryBounded D a b eta low up g)))
      /\ length (genes (fst (fst (cxSimulatedBinaryBounded D a b eta low up g))))
         = length (genes a)
      /\ length (genes (snd (fst (cxSimulatedBinaryBounded D a b eta low up g))))
         = length (genes b))
  /\ (forall a eta low up indpb g,
      within low up a ->
      within low up (fst (mutPolynomialBounded D a eta low up indpb g))
      /\ length (genes (fst (mutPolynomialBounded D a eta low up indpb g)))
         = length (genes a)).

(** Likewise: the two selections return individuals of the list they
    are given (the environmental selection with the crowding distance
    assigned), never new genes. *)
Definition selections_choose (D : DEAP) : Prop :=
  (forall l k ind, In ind (selNSGA2 D l k) ->
                   exists ind0, In ind0 l /\ genes ind = genes ind0)
  /\ (forall l k g ind, In ind (fst (selTournamentDCD D l k g)) ->
                        exists ind0, In ind0 l /\ genes ind = genes ind0).

(** Likewise: sorting all the individuals of a non-empty list gives at
    least one front. *)
Definition fronts_of_all (D : DEAP) : Prop :=
  forall l, l <> [] -> sortNondominated D l (Z.of_nat (length l)) <> [].

(** ** The widgets (cell "Run the algorithm") *)

(** [evolution_button]: the two traits the handler assigns. *)
Record Button : Type := {
  disabled : bool;
  description : string
}.

(** The values of the four sliders. *)
Record Sliders : Type := {
  population_size_slider : Z;
  number_of_generations_slider : Z;
  crossover_probability_slider : R;
  mutation_probability_slider : R
}.

(** The lines the handler prints, each kept as the value it shows
    rather than as its text. *)
Inductive Line : Type :=
| Population_size (value : Z)
| Number_of_generations (value : Z)
| Crossover_probability (value : R)
| Mutation_probability (value : R)
| Final_hypervolume (value : R)
| Separator.

(** The state the handler reads and writes: the three global variables
    of the figure ([main_figure] by the number [plt.figure] gives it,
    the two subplots by their position), the number of figures created
    so far, the button, the sliders, the standard output and the world
    of [optimize]. *)
Record Notebook : Type := {
  main_figure : option nat;
  objective_space_subfigure : option nat;
  hypervolume_subfigure : option nat;
  figures : nat;
  evolution_button : Button;
  sliders : Sliders;
  stdout : list Line;
  world : World
}.

(** [IntSlider(min=min, max=max, step=step)]: the values the slider
    takes. *)
Definition int_slider (min max step v : Z) : Prop :=
  (min <= v <= max)%Z /\ (step | v - min)%Z.

(** [FloatSlider(min=min, max=max)]. *)
Definition float_slider (min max v : R) : Prop := min <= v <= max.

(** The ranges of the four sliders of the cell. *)
Definition slider_values (s : Sliders) : Prop :=
  int_slider 20 400 20 (population_size_slider s)
  /\ int_slider 20 200 20 (number_of_generations_slider s)
  /\ float_slider 0.0 1.0 (crossover_probability_slider s)
  /\ float_slider 0.0 1.0 (mutation_probability_slider s).

(** The state once the cell has run: no figure, the button enabled, the
    sliders at their initial values. *)
Definition initial_notebook (w : World) : Notebook :=
  {| main_figure := None;
     objective_space_subfigure := None;
     hypervolume_subfigure := None;
     figures := 0;
     evolution_button := {| disabled := false; description := "Start evolution" |};
     sliders := {| population_size_slider := 100;
                   number_of_generations_slider := 100;
                   crossover_probability_slider := 0.9;
                   mutation_probability_slider := 0.1 |};
     stdout := [];
     world := w |}.

Section Widgets.
Variable D : DEAP.
Variable hypervolume : Hypervolume.
Variable evaluate : list R -> result (list R).

(** [if main_figure is None: main_figure = plt.figure(figsize=(10,5));
    ... add_subplot(121); ... add_subplot(122); ...] *)
Definition create_figure (nb : Notebook) : Notebook :=
  match main_figure nb with
  | None =>
      {| main_figure := Some (S (figures nb));
         objective_space_subfigure := Some 121%nat;
         hypervolume_subfigure := Some 122%nat;
         figures := S (figures nb);
         evolution_button := evolution_button nb;
         sliders := sliders nb;
         stdout := stdout nb;
         world := world nb |}
  | Some _ => nb
  end.

(** [on_button_clicked(b)]: the state it leaves and the exception that
    leaves it, if any.  Nothing catches an exception of [optimize]: the
    statements after the call do not run. *)
Definition on_button_clicked (nb : Notebook) : Notebook * option exn :=
  let nb := create_figure nb in
  let s := sliders nb in
  let printed :=
    stdout nb ++ [Population_size (population_size_slider s);
                  Number_of_generations (number_of_generations_slider s);
                  Crossover_probability (crossover_probability_slider s);
                  Mutation_probability (mutation_probability_slider s)] in
  match optimize D hypervolume evaluate
                 (population_size_slider s) (number_of_generations_slider s)
                 (crossover_probability_slider s) (mutation_probability_slider s)
                 (world nb) with
  | Done hypervolume_value w' =>
      ({| main_figure := main_figure nb;
          objective_space_subfigure := objective_space_subfigure nb;
          hypervolume_subfigure := hypervolume_subfigure nb;
          figures := figures nb;
          evolution_button := {| disabled := false; description := "Start evolution" |};
          sliders := s;
          stdout := printed ++ [Final_hypervolume hypervolume_value; Separator];
          world := w' |}, None)
  | Failed e w' =>
      ({| main_figure := main_figure nb;
          objective_space_subfigure := objective_space_subfigure nb;
          hypervolume_subfigure := hypervolume_subfigure nb;
          figures := figures nb;
          evolution_button := {| disabled := true;
                                 description := "Evolution in progress..." |};
          sliders := s;
          stdout := printed;
          world := w' |}, Some e)
  end.

(** The handler called [n] times in a row, whatever each call leaves. *)
Fixpoint clicks (n : nat) (nb : Notebook) : Notebook :=
  match n with
  | O => nb
  | S n' => clicks n' (fst (on_button_clicked nb))
  end.

End Widgets.

(** An evaluation function that raises on every gene vector. *)
Definition failing_evaluate (x : list R) : result (list R) := Raise ValueError.

(** * Properties of the evaluation function *)

Section WeldedBeamFacts.
Local Open Scope result_scope.

Lemma fdiv_ok (a b : R) : b <> 0 -> fdiv a b = Ok (a / b).
Proof.
  intros Hb. unfold fdiv. destruct (Req_dec_T b 0) as [E|_]; [contradiction|reflexivity].
Qed.

Lemma fsqrt_ok (a : R) : 0 <= a -> fsqrt a = Ok (sqrt a).
Proof.
  intros Ha. unfold fsqrt. destruct (Rlt_dec a 0) as [E|_]; [lra|reflexivity].
Qed.

(** Unfolding the evaluation function once the terms are known. *)
Lemma welded_beam_design_terms (x : list R) :
  welded_beam_design x =
  (r <- welded_beam_terms x ;;
   Ok [tanh (raw_f1 r / 40.0 + penalty_of r);
       tanh (raw_f2 r / 0.006 + penalty_of r)]).
Proof.
  unfold welded_beam_design, welded_beam_terms.
  repeat match goal with
         | |- context [rbind ?c _] => destruct c; cbn [rbind]; try reflexivity
         end.
Qed.

End WeldedBeamFacts.

(** On the domain the encoded dimensions are positive, so every divisor
    is non-zero and every square root has a non-negative argument. *)
Lemma terms_on_domain (x0 x1 x2 x3 : R) :
  unit_interval x0 -> unit_interval x1 -> unit_interval x2 -> unit_interval x3 ->
  exists r, welded_beam_terms [x0; x1; x2; x3] = Ok r
            /\ 0 < raw_f1 r /\ 0 < raw_f2 r.
Proof.
  unfold unit_interval. intros H0 H1 H2 H3.
  unfold welded_beam_terms. cbn [getitem nth_error rbind].
  set (b := 0.125 + 4.875 * x0).
  set (h := 0.125 + (b - 0.125) * x1).
  set (l := 0.1 + 9.9 * x2).
  set (t := 0.1 + 9.9 * x3).
  assert (Hb : 0.125 <= b <= 5) by (unfold b; lra).
  assert (Hh : 0.125 <= h <= 5) by (unfold h; nra).
  assert (Hl : 0.1 <= l <= 10) by (unfold l; lra).
  assert (Ht : 0.1 <= t <= 10) by (unfold t; lra).
  assert (Htb : 0 < t * t * b) by nra.
  assert (Htl : 0 < h * l) by nra.
  assert (Hs2 : 0 < sqrt 2.0) by (apply sqrt_lt_R0; lra).
  assert (Harg : 0 < 0.25 * (l * l + (h + t) * (h + t))) by nra.
  assert (Hsa : 0 < sqrt (0.25 * (l * l + (h + t) * (h + t))))
    by (apply sqrt_lt_R0; exact Harg).
  assert (Hden : 0 < 1.414 * h * l * (l * l / 12.0 + 0.25 * (h + t) * (h + t))).
  { apply Rmult_lt_0_compat; nra. }
  assert (Httb : 0 < t * t * t * b).
  { apply Rmult_lt_0_compat; [|lra]. apply Rmult_lt_0_compat; nra. }
  rewrite fdiv_ok by lra. cbn [rbind].
  rewrite fsqrt_ok by lra. cbn [rbind].
  assert (Hd1 : 0 < sqrt 2.0 * h * l).
  { rewrite Rmult_assoc. apply Rmult_lt_0_compat; assumption. }
  rewrite fdiv_ok by lra. cbn [rbind].
  rewrite fsqrt_ok by lra. cbn [rbind].
  rewrite fdiv_ok by lra. cbn [rbind].
  rewrite fdiv_ok by lra. cbn [rbind].
  set (tau1 := 6000.0 / (sqrt 2.0 * h * l)).
  set (ra := sqrt (0.25 * (l * l + (h + t) * (h + t)))) in *.
  set (tau2 := 6000.0 * (14.0 + 0.5 * l) * ra
               / (1.414 * h * l * (l * l / 12.0 + 0.25 * (h + t) * (h + t)))).
  assert (Htau1 : 0 < tau1) by (apply Rdiv_lt_0_compat; lra).
  assert (Htau2 : 0 < tau2).
  { apply Rdiv_lt_0_compat; [|lra]. apply Rmult_lt_0_compat; nra. }
  assert (Hq : 0 < l * tau1 * tau2 / ra).
  { apply Rdiv_lt_0_compat; [|lra].
    apply Rmult_lt_0_compat; [|lra]. apply Rmult_lt_0_compat; lra. }
  rewrite fsqrt_ok by nra. cbn [rbind].
  rewrite fdiv_ok by lra. cbn [rbind].
  eexists. split; [reflexivity|]. cbn [raw_f1 raw_f2]. split.
  - assert (0 < h * h * l) by (apply Rmult_lt_0_compat; nra).
    assert (0 < t * b * (14.0 + l)) by (apply Rmult_lt_0_compat; nra).
    nra.
  - apply Rdiv_lt_0_compat; lra.
Qed.

Lemma tanh_range (y : R) : 0 < y -> 0 < tanh y < 1.
Proof.
  intros Hy. unfold tanh, sinh, cosh.
  pose proof (exp_pos y) as Hp. pose proof (exp_pos (- y)) as Hn.
  assert (Hlt : exp (- y) < exp y) by (apply exp_increasing; lra).
  split.
  - apply Rdiv_lt_0_compat; lra.
  - apply Rmult_lt_reg_r with ((exp y + exp (- y)) / 2); [lra|].
    unfold Rdiv at 1. rewrite Rmult_assoc, Rinv_l by lra. lra.
Qed.


Lemma Rmax_scaled_positive_part (w g : R) :
  0 < w -> Rmax (w * g) 0.0 = w * positive_part g.
Proof.
  intros Hw. unfold Rmax, positive_part.
  destruct (Rle_dec (w * g) 0.0), (Rlt_dec 0 g); nra.
Qed.

Lemma positive_part_nonneg (g : R) : 0 <= positive_part g.
Proof. unfold positive_part. destruct (Rlt_dec 0 g); lra. Qed.

Lemma weighted_violation_nonneg (r : RawTerms) : 0 <= weighted_violation r.
Proof.
  unfold weighted_violation.
  pose proof (positive_part_nonneg (raw_g1 r)).
  pose proof (positive_part_nonneg (raw_g2 r)).
  pose proof (positive_part_nonneg (raw_g3 r)).
  lra.
Qed.

(** The penalty of the code is the penalty the specification describes. *)
Lemma penalty_of_spec (r : RawTerms) : penalty_of r = spec_penalty r.
Proof.
  unfold penalty_of, spec_penalty, flat_add.
  rewrite !Rmax_scaled_positive_part by lra.
  fold (weighted_violation r).
  destruct (Rgt_dec (weighted_violation r) 0.0), (Rlt_dec 0 (weighted_violation r)); lra.
Qed.

Lemma penalty_of_nonneg (r : RawTerms) : 0 <= penalty_of r.
Proof.
  rewrite penalty_of_spec. unfold spec_penalty, flat_add.
  pose proof (weighted_violation_nonneg r).
  destruct (Rlt_dec 0 (weighted_violation r)); lra.
Qed.

Lemma penalty_of_feasible (r : RawTerms) :
  raw_g1 r <= 0 -> raw_g2 r <= 0 -> raw_g3 r <= 0 -> penalty_of r = 0.
Proof.
  intros G1 G2 G3. rewrite penalty_of_spec.
  unfold spec_penalty, flat_add, weighted_violation, positive_part.
  destruct (Rlt_dec 0 (raw_g1 r)), (Rlt_dec 0 (raw_g2 r)), (Rlt_dec 0 (raw_g3 r));
    try lra.
  match goal with |- context [Rlt_dec 0 ?s] => destruct (Rlt_dec 0 s) end; lra.
Qed.

Lemma in_domain_inv (x : list R) :
  in_domain x ->
  exists x0 x1 x2 x3, x = [x0; x1; x2; x3]
    /\ unit_interval x0 /\ unit_interval x1 /\ unit_interval x2 /\ unit_interval x3.
Proof.
  intros [Hlen Hall].
  destruct x as [|x0 [|x1 [|x2 [|x3 [|? ?]]]]]; try discriminate.
  inversion Hall as [|? ? A0 T0]; subst.
  inversion T0 as [|? ? A1 T1]; subst.
  inversion T1 as [|? ? A2 T2]; subst.
  inversion T2 as [|? ? A3 T3]; subst.
  exists x0, x1, x2, x3. auto.
Qed.


Lemma origin_in_domain : in_domain [0; 0; 0; 0].
Proof.
  split; [reflexivity|]. repeat constructor; unfold unit_interval; lra.
Qed.


(** C6. The evaluation function is the function the specification
    describes: raw objectives divided by 40.0 and 0.006, a penalty made
    of the weighted sum of the positive parts of the constraint
    violations plus a flat 0.5 exactly when that sum is strictly
    positive, the penalty added to both objectives, and [tanh] of each. *)
Theorem welded_beam_design_meets_description (x : list R) :
  welded_beam_design x = spec_welded_beam_design x.
Proof.
  rewrite welded_beam_design_terms. unfold spec_welded_beam_design.
  destruct (welded_beam_terms x) as [r|e]; cbn [rbind]; [|reflexivity].
  rewrite penalty_of_spec. reflexivity.
Qed.



Lemma sqrt_upper (a c : R) : 0 <= a -> 0 <= c -> a <= c * c -> sqrt a <= c.
Proof.
  intros Ha Hc Hac. rewrite <- (sqrt_square c) by exact Hc.
  apply sqrt_le_1_alt. exact Hac.
Qed.

Lemma sqrt_lower (a c : R) : 0 <= c -> c * c <= a -> c <= sqrt a.
Proof.
  intros Hc Hac. rewrite <- (sqrt_square c) at 1 by exact Hc.
  apply sqrt_le_1_alt. exact Hac.
Qed.

(** At the upper corner of the domain every constraint is satisfied. *)
Lemma terms_at_upper_corner :
  exists r, welded_beam_terms [1; 1; 1; 1] = Ok r
            /\ raw_g1 r <= 0 /\ raw_g2 r <= 0 /\ raw_g3 r <= 0.
Proof.
  unfold welded_beam_terms. cbn [getitem nth_error rbind].
  replace (0.125 + 4.875 * 1) with 5 by lra.
  replace (0.125 + (5 - 0.125) * 1) with 5 by lra.
  replace (0.1 + 9.9 * 1) with 10 by lra.
  replace (0.25 * (10 * 10 + (5 + 10) * (5 + 10))) with 81.25 by lra.
  replace (1.414 * 5 * 10 * (10 * 10 / 12.0 + 0.25 * (5 + 10) * (5 + 10)))
    with (54792.5 / 12) by lra.
  assert (Hs2 : 1 <= sqrt 2.0) by (apply sqrt_lower; lra).
  assert (Hra : 9 <= sqrt 81.25 <= 10).
  { split; [apply sqrt_lower | apply sqrt_upper]; lra. }
  rewrite fdiv_ok by lra. cbn [rbind].
  rewrite fsqrt_ok by lra. cbn [rbind].
  rewrite fdiv_ok by nra. cbn [rbind].
  rewrite fsqrt_ok by lra. cbn [rbind].
  rewrite fdiv_ok by lra. cbn [rbind].
  rewrite fdiv_ok by lra. cbn [rbind].
  set (ra := sqrt 81.25) in *.
  set (tau1 := 6000.0 / (sqrt 2.0 * 5 * 10)).
  set (tau2 := 6000.0 * (14.0 + 0.5 * 10) * ra / (54792.5 / 12)).
  assert (Htau1 : 0 < tau1 <= 120).
  { unfold tau1. split.
    - apply Rdiv_lt_0_compat; lra.
    - apply Rmult_le_reg_r with (sqrt 2.0 * 5 * 10); [lra|].
      unfold Rdiv. rewrite Rmult_assoc, Rinv_l by lra. lra. }
  assert (Htau2 : 0 < tau2 <= 250).
  { unfold tau2. split.
    - apply Rdiv_lt_0_compat; lra.
    - apply Rmult_le_reg_r with (54792.5 / 12); [lra|].
      unfold Rdiv at 1. rewrite Rmult_assoc, Rinv_l by lra. lra. }
  assert (Hq : 0 < 10 * tau1 * tau2 / ra <= 33334).
  { split.
    - apply Rdiv_lt_0_compat; [nra|lra].
    - apply Rmult_le_reg_r with ra; [lra|].
      unfold Rdiv. rewrite Rmult_assoc, Rinv_l by lra. nra. }
  rewrite fsqrt_ok by nra. cbn [rbind].
  rewrite fdiv_ok by lra. cbn [rbind].
  eexists. split; [reflexivity|]. cbn [raw_g1 raw_g2 raw_g3].
  split; [|split].
  - assert (sqrt (tau1 * tau1 + tau2 * tau2 + 10 * tau1 * tau2 / ra) <= 13600).
    { apply sqrt_upper; nra. }
    lra.
  - assert (504000.0 / (10 * 10 * 5) = 1008) by lra. lra.
  - lra.
Qed.


(** * Properties of the driver *)

(** ** Inversion of computations *)

Lemma mbind_done {A B : Type} (c : M A) (k : A -> M B) (w w2 : World) (b : B) :
  mbind c k w = Done b w2 ->
  exists a w1, c w = Done a w1 /\ k a w1 = Done b w2.
Proof.
  unfold mbind. destruct (c w) as [a w1|e w1]; [|discriminate].
  intros H. exists a, w1. split; [reflexivity|exact H].
Qed.

Lemma mbind_step {A B : Type} (c : M A) (k : A -> M B) (w w1 : World) (a : A) :
  c w = Done a w1 -> mbind c k w = k a w1.
Proof. intros H. unfold mbind. rewrite H. reflexivity. Qed.

Lemma lift_done {A : Type} (r : result A) (w w' : World) (a : A) :
  lift r w = Done a w' -> r = Ok a /\ w' = w.
Proof.
  destruct r as [a0|e]; cbn; intros H; [|discriminate].
  injection H as -> ->. split; reflexivity.
Qed.

(** ** Worlds that differ by appended calls *)

Lemma appended_refl (w : World) : appended w [] w.
Proof. split; [reflexivity|]. rewrite app_nil_r. reflexivity. Qed.

Lemma appended_trans (w1 w2 w3 : World) (c1 c2 : list Call) :
  appended w1 c1 w2 -> appended w2 c2 w3 -> appended w1 (c1 ++ c2) w3.
Proof.
  intros [T1 L1] [T2 L2]. split.
  - congruence.
  - rewrite L2, L1, app_assoc. reflexivity.
Qed.

Section Primitives.
Variable D : DEAP.

Lemma record_done (c : Call) (w : World) :
  exists w', record c w = Done tt w' /\ appended w [c] w'.
Proof. eexists. split; [reflexivity|]. split; reflexivity. Qed.

Lemma with_rng_done {A : Type} (f : Rng -> A * Rng) (w : World) :
  exists w', with_rng f w = Done (fst (f (rng w))) w' /\ appended w [] w'.
Proof.
  unfold with_rng. destruct (f (rng w)) as [a g]. eexists. split; [reflexivity|].
  split; cbn; [reflexivity|]. rewrite app_nil_r. reflexivity.
Qed.

Lemma random_random_done (w : World) :
  exists w', random_random w = Done (draws (rng w) (pos (rng w))) w' /\ appended w [] w'.
Proof.
  unfold random_random.
  match goal with |- context [with_rng ?f w] =>
    destruct (with_rng_done f w) as (w1 & E1 & A1) end.
  exists w1. split; [exact E1|exact A1].
Qed.

Lemma toolbox_mutate_done (g : Z) (i : nat) (ind : Individual) (w : World) :
  exists ind' w',
    toolbox_mutate D g i ind w = Done ind' w'
    /\ appended w [Mutated g i (mutate_indpb (keywords (mutate (toolbox w))))] w'.
Proof.
  unfold toolbox_mutate, get_toolbox, mbind at 1.
  destruct (record_done (Mutated g i (mutate_indpb (keywords (mutate (toolbox w))))) w)
    as (w1 & E1 & A1).
  rewrite (mbind_step _ _ _ _ _ E1).
  match goal with |- context [with_rng ?f w1] =>
    destruct (with_rng_done f w1) as (w2 & E2 & A2); rewrite E2 end.
  eexists. eexists. split; [reflexivity|].
  apply (appended_trans _ _ _ _ _ A1 A2).
Qed.

Lemma toolbox_mate_done (g : Z) (i j : nat) (a b : Individual) (w : World) :
  exists ab w',
    toolbox_mate D g i j a b w = Done ab w' /\ appended w [Mated g i j] w'.
Proof.
  unfold toolbox_mate, get_toolbox, mbind at 1.
  destruct (record_done (Mated g i j) w) as (w1 & E1 & A1).
  rewrite (mbind_step _ _ _ _ _ E1).
  match goal with |- context [with_rng ?f w1] =>
    destruct (with_rng_done f w1) as (w2 & E2 & A2); rewrite E2 end.
  eexists. eexists. split; [reflexivity|].
  apply (appended_trans _ _ _ _ _ A1 A2).
Qed.

Lemma crossover_done (g : Z) (cxpb : R) (i j : nat) (a b : Individual) (w : World) :
  exists ab w' calls,
    crossover D g cxpb i j a b w = Done ab w'
    /\ appended w calls w'
    /\ (calls = [] \/ calls = [Mated g i j]).
Proof.
  unfold crossover.
  destruct (random_random_done w) as (w1 & E1 & A1).
  rewrite (mbind_step _ _ _ _ _ E1).
  destruct (Rle_dec (draws (rng w) (pos (rng w))) cxpb) as [Hle|Hgt].
  - destruct (toolbox_mate_done g i j a b w1) as (ab & w2 & E2 & A2).
    exists ab, w2, [Mated g i j]. split; [exact E2|]. split; [|right; reflexivity].
    apply (appended_trans _ _ _ _ _ A1 A2).
  - exists (a, b), w1, []. split; [reflexivity|]. split; [exact A1|left; reflexivity].
Qed.

End Primitives.

(** ** Lists, slices and index pairs *)

Lemma set_nth_length {A : Type} (i : nat) (v : A) (l : list A) :
  length (set_nth i v l) = length l.
Proof.
  revert i. induction l as [|x l IH]; intros [|i]; cbn; try reflexivity.
  rewrite IH. reflexivity.
Qed.

Lemma set_nth_other {A : Type} (i k : nat) (v : A) (l : list A) :
  k <> i -> nth_error (set_nth i v l) k = nth_error l k.
Proof.
  revert i k. induction l as [|x l IH]; intros [|i] [|k] Hk; cbn; try reflexivity.
  - contradiction.
  - apply IH. auto.
Qed.

Lemma getitem_in_range {A : Type} (l : list A) (i : nat) :
  (i < length l)%nat -> exists v, getitem l i = Ok v /\ nth_error l i = Some v.
Proof.
  intros Hi. unfold getitem.
  destruct (nth_error l i) as [v|] eqn:E.
  - exists v. split; reflexivity.
  - apply nth_error_None in E. lia.
Qed.

(** Induction two elements at a time. *)
Lemma nat_pair_ind (P : nat -> Prop) :
  P O -> P 1%nat -> (forall n, P n -> P (S (S n))) -> forall n, P n.
Proof.
  intros P0 P1 PS n.
  assert (H : P n /\ P (S n)).
  { induction n as [|n [IHa IHb]]; [split; assumption|].
    split; [exact IHb|apply PS; exact IHa]. }
  exact (proj1 H).
Qed.

Lemma mating_pairs_from (n : nat) : mating_pairs n = pairs_from 0 n.
Proof. reflexivity. Qed.

Lemma pairs_from_step (a n : nat) :
  pairs_from a (S (S n)) = (a, S a) :: pairs_from (S (S a)) n.
Proof.
  unfold pairs_from. cbn [seq tl stride2 combine].
  destruct n as [|n]; [reflexivity|]. reflexivity.
Qed.

Lemma paired_step (n : nat) : paired (S (S n)) = S (S (paired n)).
Proof.
  unfold paired. cbn [Nat.even].
  destruct (Nat.even n) eqn:E; [reflexivity|].
  destruct n as [|n]; [discriminate|]. reflexivity.
Qed.

Lemma paired_le (n : nat) : (paired n <= n)%nat.
Proof. unfold paired. destruct (Nat.even n); lia. Qed.

Lemma pairs_from_range (n a i j : nat) :
  In (i, j) (pairs_from a n) -> (a <= i < a + n /\ a <= j < a + n)%nat.
Proof.
  revert a. induction n as [| |n IH] using nat_pair_ind; intros a Hin.
  - contradiction.
  - contradiction.
  - rewrite pairs_from_step in Hin. destruct Hin as [E|Hin].
    + injection E as <- <-. lia.
    + apply IH in Hin. lia.
Qed.

(** An index belongs to exactly one pair when it is below [paired n],
    and to none otherwise. *)
Lemma slot_count_pairs_from (n a k : nat) :
  slot_count k (pairs_from a n)
  = if (Nat.leb a k && Nat.ltb k (a + paired n))%bool then 1%nat else 0%nat.
Proof.
  revert a. induction n as [| |n IH] using nat_pair_ind; intros a.
  - unfold pairs_from, paired. cbn [seq stride2 tl combine slot_count Nat.even].
    destruct (Nat.leb_spec a k), (Nat.ltb_spec k (a + 0));
      cbn [andb]; try reflexivity; lia.
  - unfold pairs_from, paired. cbn [seq stride2 tl combine slot_count Nat.even Nat.pred].
    destruct (Nat.leb_spec a k), (Nat.ltb_spec k (a + 0));
      cbn [andb]; try reflexivity; lia.
  - rewrite pairs_from_step, paired_step. cbn [slot_count]. rewrite IH.
    destruct (Nat.eqb_spec k a), (Nat.eqb_spec k (S a)),
      (Nat.leb_spec (S (S a)) k), (Nat.ltb_spec k (S (S a) + paired n)),
      (Nat.leb_spec a k), (Nat.ltb_spec k (a + S (S (paired n))));
      cbn [andb Nat.add]; try reflexivity; lia.
Qed.

Lemma slot_count_mating_pairs (n k : nat) :
  slot_count k (mating_pairs n) = if Nat.ltb k (paired n) then 1%nat else 0%nat.
Proof.
  rewrite mating_pairs_from, slot_count_pairs_from. reflexivity.
Qed.

(** ** Reading the calls of a variation loop *)

Lemma mutations_of_app (g : Z) (k : nat) (l1 l2 : list Call) :
  mutations_of g k (l1 ++ l2) = mutations_of g k l1 ++ mutations_of g k l2.
Proof.
  induction l1 as [|c l1 IH]; [reflexivity|].
  destruct c; cbn; try exact IH.
  destruct (Z.eqb g generation && Nat.eqb k i)%bool; cbn; rewrite IH; reflexivity.
Qed.

Lemma variation_calls_mutations (g : Z) (p : R) (ps : list (nat * nat)) (calls : list Call) :
  variation_calls g p ps calls ->
  forall g' k,
    mutations_of g' k calls
    = if Z.eqb g' g then repeat p (slot_count k ps) else [].
Proof.
  induction 1 as [|i j ps cs rest Hcs Hrest IH]; intros g' k.
  - cbn. destruct (Z.eqb g' g); reflexivity.
  - rewrite mutations_of_app.
    assert (Hc : mutations_of g' k cs = []) by (destruct Hcs as [-> | ->]; reflexivity).
    rewrite Hc. cbn [app mutations_of slot_count]. rewrite IH.
    destruct (Z.eqb g' g); cbn [andb]; [|reflexivity].
    destruct (Nat.eqb k i), (Nat.eqb k j); reflexivity.
Qed.


Lemma variation_calls_only (g : Z) (p : R) (ps : list (nat * nat)) (calls : list Call) :
  variation_calls g p ps calls ->
  Forall (fun c => (exists i j, c = Mated g i j) \/ (exists i, c = Mutated g i p)) calls.
Proof.
  induction 1 as [|i j ps cs rest Hcs Hrest IH]; [constructor|].
  apply Forall_app. split.
  - destruct Hcs as [-> | ->]; [constructor|].
    constructor; [left; eauto|constructor].
  - constructor; [right; eauto|]. constructor; [right; eauto|]. exact IH.
Qed.

(** ** The variation loop *)

Section Variation.
Variable D : DEAP.

Lemma appended_toolbox (w w' : World) (calls : list Call) :
  appended w calls w' -> toolbox w' = toolbox w.
Proof. intros [T _]. exact T. Qed.

Lemma vary_pair_done (g : Z) (cxpb : R) (i j : nat) (st : list Individual) (w : World) :
  (i < length st)%nat -> (j < length st)%nat ->
  exists st' w' cs,
    vary_pair D g cxpb (i, j) st w = Done st' w'
    /\ appended w (cs ++ [Mutated g i (mutate_indpb (keywords (mutate (toolbox w))));
                          Mutated g j (mutate_indpb (keywords (mutate (toolbox w))))]) w'
    /\ (cs = [] \/ cs = [Mated g i j])
    /\ length st' = length st
    /\ (forall k, k <> i -> k <> j -> nth_error st' k = nth_error st k).
Proof.
  intros Hi Hj. unfold vary_pair.
  destruct (getitem_in_range st i Hi) as (a & Ea & _).
  destruct (getitem_in_range st j Hj) as (b & Eb & _).
  rewrite Ea, Eb. cbn [lift]. unfold mbind at 1 2, ret at 1 2.
  destruct (crossover_done D g cxpb i j a b w) as ([a1 b1] & w1 & cs & E1 & A1 & Hcs).
  rewrite (mbind_step _ _ _ _ _ E1).
  destruct (toolbox_mutate_done D g i a1 w1) as (a2 & w2 & E2 & A2).
  rewrite (mbind_step _ _ _ _ _ E2).
  destruct (toolbox_mutate_done D g j b1 w2) as (b2 & w3 & E3 & A3).
  rewrite (mbind_step _ _ _ _ _ E3).
  rewrite (appended_toolbox _ _ _ A2) in A3.
  rewrite (appended_toolbox _ _ _ A1) in A2, A3.
  exists (set_nth j b2 (set_nth i a2 st)), w3, cs.
  split; [reflexivity|]. split; [|split; [exact Hcs|split]].
  - apply (appended_trans _ _ _ _ _ A1).
    apply (appended_trans _ _ _ _ _ A2 A3).
  - rewrite !set_nth_length. reflexivity.
  - intros k Hki Hkj. rewrite !set_nth_other by assumption. reflexivity.
Qed.

Lemma variation_pairs_done (g : Z) (cxpb : R) (ps : list (nat * nat)) :
  forall (st : list Individual) (w : World),
    (forall i j, In (i, j) ps -> (i < length st)%nat /\ (j < length st)%nat) ->
    exists st' w' calls,
      for_each ps (vary_pair D g cxpb) st w = Done st' w'
      /\ appended w calls w'
      /\ variation_calls g (mutate_indpb (keywords (mutate (toolbox w)))) ps calls
      /\ length st' = length st
      /\ (forall k, slot_count k ps = O -> nth_error st' k = nth_error st k).
Proof.
  induction ps as [|[i j] ps IH]; intros st w Hin.
  - exists st, w, []. split; [reflexivity|]. split; [apply appended_refl|].
    split; [constructor|]. split; [reflexivity|]. intros; reflexivity.
  - destruct (Hin i j (or_introl eq_refl)) as [Hi Hj].
    destruct (vary_pair_done g cxpb i j st w Hi Hj)
      as (st1 & w1 & cs & E1 & A1 & Hcs & L1 & N1).
    destruct (IH st1 w1) as (st2 & w2 & calls & E2 & A2 & V2 & L2 & N2).
    { intros i' j' Hin'. rewrite L1. apply Hin. right. exact Hin'. }
    rewrite (appended_toolbox _ _ _ A1) in V2.
    exists st2, w2, ((cs ++ [Mutated g i (mutate_indpb (keywords (mutate (toolbox w))));
                            Mutated g j (mutate_indpb (keywords (mutate (toolbox w))))])
                     ++ calls).
    split; [|split; [|split; [|split]]].
    + cbn [for_each]. rewrite (mbind_step _ _ _ _ _ E1). exact E2.
    + apply (appended_trans _ _ _ _ _ A1 A2).
    + rewrite <- app_assoc. cbn [app]. constructor; assumption.
    + congruence.
    + intros k Hk. cbn [slot_count] in Hk.
      destruct (Nat.eqb_spec k i); [lia|]. destruct (Nat.eqb_spec k j); [lia|].
      rewrite N2 by lia. apply N1; assumption.
Qed.

(** The variation loop always completes; it makes the calls described by
    [variation_calls] and leaves every unpaired object as it was. *)
Lemma variation_done (g : Z) (cxpb : R) (offspring : list Individual) (w : World) :
  exists offspring' w' calls,
    variation D g cxpb offspring w = Done offspring' w'
    /\ appended w calls w'
    /\ variation_calls g (mutate_indpb (keywords (mutate (toolbox w))))
                       (mating_pairs (length offspring)) calls
    /\ length offspring' = length offspring
    /\ (forall k, (paired (length offspring) <= k)%nat ->
                  nth_error offspring' k = nth_error offspring k).
Proof.
  unfold variation.
  destruct (variation_pairs_done g cxpb (mating_pairs (length offspring)) offspring w)
    as (st' & w' & calls & E & A & V & L & N).
  { intros i j Hin. rewrite mating_pairs_from in Hin.
    apply pairs_from_range in Hin. lia. }
  exists st', w', calls. repeat split; try assumption; try apply A.
  intros k Hk. apply N. rewrite slot_count_mating_pairs.
  destruct (Nat.ltb_spec k (paired (length offspring))); [lia|reflexivity].
Qed.

End Variation.

(** ** What every run preserves *)

Section Steady.
Variable D : DEAP.
Variable hypervolume : Hypervolume.
Variable evaluate : list R -> result (list R).
Variable p : R.

Lemma evolves_refl (w : World) : evolves p w w.
Proof.
  intros H. split; [exact H|]. exists []. rewrite app_nil_r. split; [reflexivity|constructor].
Qed.

Lemma evolves_trans (w1 w2 w3 : World) :
  evolves p w1 w2 -> evolves p w2 w3 -> evolves p w1 w3.
Proof.
  intros H12 H23 H1. destruct (H12 H1) as (H2 & c1 & L1 & F1).
  destruct (H23 H2) as (H3 & c2 & L2 & F2).
  split; [exact H3|]. exists (c1 ++ c2). split.
  - rewrite L2, L1, app_assoc. reflexivity.
  - apply Forall_app. split; assumption.
Qed.

Lemma appended_evolves (w w' : World) (calls : list Call) :
  appended w calls w' ->
  Forall (fun c => forall q, indpb_of c = Some q ->
                             q = mutate_indpb (keywords (mutate (toolbox w)))) calls ->
  evolves p w w'.
Proof.
  intros [T L] F H. split; [rewrite T; exact H|].
  exists calls. split; [exact L|]. rewrite H in F. exact F.
Qed.

Lemma steady_ret {A : Type} (a : A) : steady p (ret a).
Proof. intros w. apply evolves_refl. Qed.

Lemma steady_throw {A : Type} (e : exn) : steady p (@throw A e).
Proof. intros w. apply evolves_refl. Qed.

Lemma steady_lift {A : Type} (r : result A) : steady p (lift r).
Proof. destruct r; [apply steady_ret|apply steady_throw]. Qed.

Lemma steady_bind {A B : Type} (c : M A) (k : A -> M B) :
  steady p c -> (forall a, steady p (k a)) -> steady p (mbind c k).
Proof.
  intros Hc Hk w. unfold mbind. specialize (Hc w).
  destruct (c w) as [a w1|e w1]; cbn [world_of] in *; [|exact Hc].
  apply (evolves_trans _ _ _ Hc). apply Hk.
Qed.

Lemma steady_record (c : Call) :
  (forall q, indpb_of c = Some q -> q = p) -> steady p (record c).
Proof.
  intros Hc w H. split; [exact H|]. exists [c]. split; [reflexivity|].
  constructor; [exact Hc|constructor].
Qed.

Lemma steady_with_rng {A : Type} (f : Rng -> A * Rng) : steady p (with_rng f).
Proof.
  intros w. destruct (with_rng_done f w) as (w' & E & Ha). rewrite E. cbn [world_of].
  apply (appended_evolves _ _ _ Ha). constructor.
Qed.

Lemma steady_get_toolbox : steady p get_toolbox.
Proof. intros w. apply evolves_refl. Qed.

Lemma steady_for_each {A S : Type} (xs : list A) (body : A -> S -> M S) :
  (forall x s, steady p (body x s)) -> forall s, steady p (for_each xs body s).
Proof.
  intros Hb. induction xs as [|x xs IH]; intros s; cbn [for_each].
  - apply steady_ret.
  - apply steady_bind; [apply Hb|exact IH].
Qed.

Lemma steady_repeat_call {A : Type} (n : nat) (f : M A) :
  steady p f -> steady p (repeat_call n f).
Proof.
  intros Hf. induction n as [|n IH]; cbn [repeat_call].
  - apply steady_ret.
  - apply steady_bind; [exact Hf|]. intros a.
    apply steady_bind; [exact IH|]. intros rest. apply steady_ret.
Qed.

Lemma steady_toolbox_mutate (g : Z) (i : nat) (ind : Individual) :
  steady p (toolbox_mutate D g i ind).
Proof.
  intros w. destruct (toolbox_mutate_done D g i ind w) as (ind' & w' & E & Ha).
  rewrite E. cbn [world_of]. apply (appended_evolves _ _ _ Ha).
  constructor; [|constructor]. intros q Hq. injection Hq as <-. reflexivity.
Qed.

Lemma steady_toolbox_mate (g : Z) (i j : nat) (a b : Individual) :
  steady p (toolbox_mate D g i j a b).
Proof.
  intros w. destruct (toolbox_mate_done D g i j a b w) as (ab & w' & E & Ha).
  rewrite E. cbn [world_of]. apply (appended_evolves _ _ _ Ha).
  constructor; [|constructor]. intros q Hq. discriminate.
Qed.

Lemma steady_set_mutate_attribute (name : string) (v : R) :
  steady p (set_mutate_attribute name v).
Proof.
  intros w H. split; [exact H|]. exists []. cbn. rewrite app_nil_r.
  split; [reflexivity|constructor].
Qed.

End Steady.

Ltac steady_step :=
  first
    [ apply steady_ret | apply steady_throw | apply steady_lift
    | apply steady_with_rng | apply steady_get_toolbox
    | apply steady_toolbox_mutate | apply steady_toolbox_mate
    | apply steady_set_mutate_attribute
    | apply steady_record; intros ? ?; discriminate
    | apply steady_bind; [|intros ?] ].

Section SteadyProgram.
Variable D : DEAP.
Variable hypervolume : Hypervolume.
Variable evaluate : list R -> result (list R).
Variable p : R.

Lemma steady_toolbox_population (n : Z) : steady p (toolbox_population n).
Proof.
  unfold toolbox_population. repeat steady_step.
  apply steady_repeat_call. unfold toolbox_individual. repeat steady_step.
  unfold initialization_uniform. apply steady_repeat_call.
  unfold random_uniform, random_random. repeat steady_step.
Qed.

Lemma steady_assign_fitnesses (l : list Individual) :
  steady p (assign_fitnesses evaluate l).
Proof.
  induction l as [|ind l IH]; cbn [assign_fitnesses]; repeat steady_step.
  exact IH.
Qed.

Lemma steady_variation (g : Z) (cxpb : R) (offspring : list Individual) :
  steady p (variation D g cxpb offspring).
Proof.
  unfold variation. apply steady_for_each. intros [i j] st.
  unfold vary_pair. repeat steady_step.
  - unfold crossover, random_random. repeat steady_step.
    destruct (Rle_dec _ _); repeat steady_step.
  - match goal with a : (Individual * Individual)%type |- _ => destruct a end.
    repeat steady_step.
Qed.

Lemma steady_generation_body (n : Z) (cxpb : R) (g : Z) (s : Locals) :
  steady p (generation_body D hypervolume evaluate n cxpb g s).
Proof.
  unfold generation_body, tools_selTournamentDCD, toolbox_select.
  repeat first [ apply steady_variation | apply steady_assign_fitnesses | steady_step ].
Qed.

Lemma steady_generations (n : Z) (cxpb : R) (gs : list Z) (s : Locals) :
  steady p (for_each gs (generation_body D hypervolume evaluate n cxpb) s).
Proof. apply steady_for_each. intros g s0. apply steady_generation_body. Qed.

Lemma steady_return (s : Locals) :
  steady p (match hypervolume_value s with
            | Some v => ret v
            | None => throw UnboundLocalError
            end).
Proof. destruct (hypervolume_value s); steady_step. Qed.

Lemma steady_optimize (n gens : Z) (cxpb mutpb : R) :
  steady p (optimize D hypervolume evaluate n gens cxpb mutpb).
Proof.
  unfold optimize, optimize_locals, toolbox_select.
  repeat first [ apply steady_toolbox_population | apply steady_assign_fitnesses
               | apply steady_generations | apply steady_return | steady_step ].
Qed.

End SteadyProgram.


(** ** One generation *)

Section Generation.
Variable D : DEAP.
Variable hypervolume : Hypervolume.
Variable evaluate : list R -> result (list R).

Lemma tools_selTournamentDCD_done (g : Z) (l : list Individual) (k : Z) (w : World) :
  exists w',
    tools_selTournamentDCD D g l k w = Done (fst (selTournamentDCD D l k (rng w))) w'
    /\ appended w [Tournament g (fst (selTournamentDCD D l k (rng w)))] w'.
Proof.
  unfold tools_selTournamentDCD.
  destruct (with_rng_done (selTournamentDCD D l k) w) as (w1 & E1 & A1).
  rewrite (mbind_step _ _ _ _ _ E1).
  destruct (record_done (Tournament g (fst (selTournamentDCD D l k (rng w)))) w1)
    as (w2 & E2 & A2).
  rewrite (mbind_step _ _ _ _ _ E2).
  exists w2. split; [reflexivity|]. apply (appended_trans _ _ _ _ _ A1 A2).
Qed.

Lemma toolbox_select_done (g : Z) (l : list Individual) (k : Z) (w : World) :
  exists w',
    toolbox_select D g l k w = Done (selNSGA2 D l k) w'
    /\ appended w [Selected g l k (selNSGA2 D l k)] w'.
Proof.
  unfold toolbox_select.
  destruct (record_done (Selected g l k (selNSGA2 D l k)) w) as (w1 & E1 & A1).
  rewrite (mbind_step _ _ _ _ _ E1). exists w1. split; [reflexivity|exact A1].
Qed.

Lemma assign_fitnesses_done (l : list Individual) :
  forall (w : World) (l' : list Individual) (w' : World),
    assign_fitnesses evaluate l w = Done l' w' ->
    exists calls,
      appended w calls w'
      /\ Forall is_evaluation calls
      /\ Forall2 (fun ind ind' => exists fit, evaluate (genes ind) = Ok fit
                                              /\ ind' = set_fitness ind fit) l l'.
Proof.
  induction l as [|ind l IH]; intros w l' w' H; cbn [assign_fitnesses] in H.
  - injection H as <- <-. exists []. split; [apply appended_refl|].
    split; constructor.
  - destruct (record_done (Evaluated (genes ind)) w) as (w1 & E1 & A1).
    rewrite (mbind_step _ _ _ _ _ E1) in H.
    apply mbind_done in H as (fit & w2 & E2 & H).
    apply lift_done in E2 as [Efit ->].
    apply mbind_done in H as (rest & w3 & E3 & H).
    injection H as <- <-.
    destruct (IH _ _ _ E3) as (calls & A3 & F3 & R3).
    exists ([Evaluated (genes ind)] ++ calls).
    split; [apply (appended_trans _ _ _ _ _ A1 A3)|]. split.
    + constructor; [exists (genes ind); reflexivity|exact F3].
    + constructor; [exists fit; split; [exact Efit|reflexivity]|exact R3].
Qed.

Lemma Forall2_nth_error {A B : Type} (P : A -> B -> Prop) (l : list A) (l' : list B) :
  Forall2 P l l' ->
  forall i a, nth_error l i = Some a -> exists b, nth_error l' i = Some b /\ P a b.
Proof.
  induction 1 as [|x y l l' Hxy Hl IH]; intros [|i] a Hi; cbn in *; try discriminate.
  - injection Hi as <-. exists y. split; [reflexivity|exact Hxy].
  - apply IH. exact Hi.
Qed.

(** A completed generation keeps the size of the population and makes
    the calls of [generation_calls]. *)
Lemma generation_body_done (k : Z) (cxpb : R) (g : Z) (s s' : Locals) (w w' : World) :
  selection_sizes D ->
  (0 <= k)%Z ->
  length (population s) = Z.to_nat k ->
  generation_body D hypervolume evaluate k cxpb g s w = Done s' w' ->
  length (population s') = Z.to_nat k
  /\ exists calls,
       appended w calls w'
       /\ generation_calls evaluate (mutate_indpb (keywords (mutate (toolbox w))))
                           (Z.to_nat k) k g calls.
Proof.
  intros [Hsel Hdcd] Hk Hlen H. unfold generation_body in H.
  set (n := Z.to_nat k) in *.
  destruct (tools_selTournamentDCD_done g (population s)
              (Z.of_nat (length (population s))) w) as (w1 & E1 & A1).
  rewrite (mbind_step _ _ _ _ _ E1) in H. cbv beta zeta in H.
  set (pool := fst (selTournamentDCD D (population s)
                      (Z.of_nat (length (population s))) (rng w))) in *.
  assert (Hpool : length pool = n).
  { unfold pool. rewrite Hdcd by lia. rewrite Nat2Z.id. exact Hlen. }
  destruct (variation_done D g cxpb (map clone pool) w1)
    as (off2 & w2 & vcalls & E2 & A2 & V2 & L2 & N2).
  rewrite (mbind_step _ _ _ _ _ E2) in H.
  rewrite length_map, Hpool in V2, L2, N2.
  rewrite (appended_toolbox _ _ _ A1) in V2.
  apply mbind_done in H as (off3 & w3 & E3 & H).
  destruct (assign_fitnesses_done _ _ _ _ E3) as (ecalls & A3 & F3 & R3).
  assert (L3 : length off3 = n).
  { rewrite <- (Forall2_length R3). exact L2. }
  destruct (toolbox_select_done g (population s ++ off3) k w3) as (w4 & E4 & A4).
  rewrite (mbind_step _ _ _ _ _ E4) in H.
  apply mbind_done in H as (nd & w5 & E5 & H).
  apply lift_done in E5 as [_ ->].
  injection H as <- <-. cbn [population].
  split.
  { apply Hsel. rewrite length_app, Hlen, L3. fold n. lia. }
  exists ([Tournament g pool] ++ vcalls ++ ecalls
          ++ [Selected g (population s ++ off3) k (selNSGA2 D (population s ++ off3) k)]).
  split.
  { apply (appended_trans _ _ _ _ _ A1).
    apply (appended_trans _ _ _ _ _ A2).
    apply (appended_trans _ _ _ _ _ A3 A4). }
  exists (population s), pool, vcalls, ecalls, off3,
    (selNSGA2 D (population s ++ off3) k).
  split; [reflexivity|]. split; [exact Hpool|]. split; [exact V2|].
  split; [exact F3|]. split; [exact L3|].
  intros i parent Hi Hparent.
  assert (Hclone : nth_error off2 i = Some (clone parent)).
  { rewrite N2 by exact Hi. rewrite nth_error_map, Hparent. reflexivity. }
  destruct (Forall2_nth_error _ _ _ R3 _ _ Hclone) as (child & Hchild & fit & Efit & ->).
  exists fit. split; [exact Efit|exact Hchild].
Qed.

End Generation.

(** ** Reading the calls of whole generations *)

Lemma no_variation_mutations (g : Z) (k : nat) (calls : list Call) :
  no_variation calls -> mutations_of g k calls = [].
Proof.
  induction 1 as [|c calls Hc _ IH]; [reflexivity|].
  destruct c; cbn; try exact IH. contradiction.
Qed.


Lemma evaluations_no_variation (calls : list Call) :
  Forall is_evaluation calls -> no_variation calls.
Proof.
  induction 1 as [|c calls [x ->] _ IH]; constructor; [exact I|exact IH].
Qed.

Lemma no_variation_app (c1 c2 : list Call) :
  no_variation c1 -> no_variation c2 -> no_variation (c1 ++ c2).
Proof. intros H1 H2. apply Forall_app. split; assumption. Qed.

Lemma setup_calls_no_variation (k : Z) (calls : list Call) :
  setup_calls k calls -> no_variation calls.
Proof.
  intros (ecalls & inds & chosen & -> & F).
  constructor; [exact I|]. apply no_variation_app.
  - apply evaluations_no_variation. exact F.
  - constructor; [exact I|constructor].
Qed.

Section GenerationCalls.
Variable evaluate : list R -> result (list R).
Variable p : R.
Variable n : nat.
Variable k : Z.

Lemma generation_calls_mutations (g : Z) (calls : list Call) :
  generation_calls evaluate p n k g calls ->
  forall g' i,
    mutations_of g' i calls
    = if Z.eqb g' g then repeat p (if Nat.ltb i (paired n) then 1 else 0) else [].
Proof.
  intros (parents & pool & vcalls & ecalls & offspring & chosen
          & -> & _ & V & F & _ & _) g' i.
  cbn [mutations_of]. rewrite !mutations_of_app.
  rewrite (variation_calls_mutations _ _ _ _ V), slot_count_mating_pairs.
  rewrite (no_variation_mutations _ _ _ (evaluations_no_variation _ F)).
  cbn [mutations_of]. rewrite !app_nil_r. reflexivity.
Qed.


Lemma generations_calls_mutations_out (gs : list Z) (calls : list Call) :
  generations_calls evaluate p n k gs calls ->
  forall g i, ~ In g gs -> mutations_of g i calls = [].
Proof.
  induction 1 as [|g0 gs c1 c2 H1 H2 IH]; intros g i Hg; [reflexivity|].
  rewrite mutations_of_app, (generation_calls_mutations _ _ H1).
  destruct (Z.eqb_spec g g0) as [->|_]; [exfalso; apply Hg; left; reflexivity|].
  apply IH. intros Hin. apply Hg. right. exact Hin.
Qed.

Lemma generations_calls_mutations_in (gs : list Z) (calls : list Call) :
  generations_calls evaluate p n k gs calls ->
  NoDup gs ->
  forall g i, In g gs ->
    mutations_of g i calls = repeat p (if Nat.ltb i (paired n) then 1 else 0).
Proof.
  induction 1 as [|g0 gs c1 c2 H1 H2 IH]; intros Hnd g i Hg; [contradiction|].
  inversion Hnd as [|? ? Hnotin Hnd']; subst.
  rewrite mutations_of_app, (generation_calls_mutations _ _ H1).
  destruct (Z.eqb_spec g g0) as [->|Hne].
  - rewrite (generations_calls_mutations_out _ _ H2 _ _ Hnotin), app_nil_r.
    reflexivity.
  - destruct Hg as [<-|Hg]; [contradiction|]. apply IH; assumption.
Qed.


Lemma generations_calls_in (gs : list Z) (calls : list Call) :
  generations_calls evaluate p n k gs calls ->
  forall g, In g gs ->
    exists c, generation_calls evaluate p n k g c /\ incl c calls.
Proof.
  induction 1 as [|g0 gs c1 c2 H1 H2 IH]; intros g Hg; [contradiction|].
  destruct Hg as [<-|Hg].
  - exists c1. split; [exact H1|]. apply incl_appl, incl_refl.
  - destruct (IH g Hg) as (c & Hc & Hincl). exists c. split; [exact Hc|].
    apply incl_appr. exact Hincl.
Qed.

End GenerationCalls.

Lemma py_range_in (a b g : Z) : In g (py_range a b) <-> (a <= g < b)%Z.
Proof.
  unfold py_range. rewrite in_map_iff. split.
  - intros (i & <- & Hi). apply in_seq in Hi. lia.
  - intros Hg. exists (Z.to_nat (g - a)). split; [lia|]. apply in_seq. lia.
Qed.

Lemma NoDup_map_injective {A B : Type} (f : A -> B) (l : list A) :
  (forall x y, f x = f y -> x = y) -> NoDup l -> NoDup (map f l).
Proof.
  intros Hf H. induction H as [|x l Hx _ IH]; cbn; constructor; [|exact IH].
  intros Hin. apply in_map_iff in Hin as (y & E & Hy).
  apply Hf in E. subst y. contradiction.
Qed.

Lemma py_range_nodup (a b : Z) : NoDup (py_range a b).
Proof.
  unfold py_range. apply NoDup_map_injective; [|apply seq_NoDup].
  intros x y H. lia.
Qed.

Lemma py_range_length (a b : Z) : length (py_range a b) = Z.to_nat (b - a).
Proof. unfold py_range. rewrite length_map, length_seq. reflexivity. Qed.

(** ** The whole run *)

Section Run.
Variable D : DEAP.
Variable hypervolume : Hypervolume.
Variable evaluate : list R -> result (list R).

Lemma repeat_call_done {A : Type} (f : M A) :
  (forall w, exists a w', f w = Done a w' /\ appended w [] w') ->
  forall n w, exists l w',
    repeat_call n f w = Done l w' /\ appended w [] w' /\ length l = n.
Proof.
  intros Hf. induction n as [|n IH]; intros w; cbn [repeat_call].
  - exists [], w. split; [reflexivity|]. split; [apply appended_refl|reflexivity].
  - destruct (Hf w) as (a & w1 & E1 & A1).
    rewrite (mbind_step _ _ _ _ _ E1).
    destruct (IH w1) as (l & w2 & E2 & A2 & L2).
    rewrite (mbind_step _ _ _ _ _ E2).
    exists (a :: l), w2. split; [reflexivity|].
    split; [apply (appended_trans _ _ _ _ _ A1 A2)|cbn; rewrite L2; reflexivity].
Qed.

Lemma random_uniform_done (a b : R) (w : World) :
  exists v w', random_uniform a b w = Done v w' /\ appended w [] w'.
Proof.
  unfold random_uniform. destruct (random_random_done w) as (w1 & E1 & A1).
  rewrite (mbind_step _ _ _ _ _ E1). eexists. exists w1.
  split; [reflexivity|exact A1].
Qed.

Lemma toolbox_individual_done (w : World) :
  exists ind w', toolbox_individual w = Done ind w' /\ appended w [] w'.
Proof.
  unfold toolbox_individual, initialization_uniform.
  rewrite (mbind_step get_toolbox _ w w (toolbox w) eq_refl). cbv beta zeta.
  set (a := attribute_float (toolbox w)).
  destruct (repeat_call_done _ (random_uniform_done (bound_lower a) (bound_upper a))
              (size a) w) as (l & w1 & E1 & A1 & _).
  rewrite (mbind_step _ _ _ _ _ E1). eexists. exists w1.
  split; [reflexivity|exact A1].
Qed.

Lemma toolbox_population_done (k : Z) (w : World) :
  exists l w',
    toolbox_population k w = Done l w'
    /\ appended w [Created k] w' /\ length l = Z.to_nat k.
Proof.
  unfold toolbox_population.
  destruct (record_done (Created k) w) as (w1 & E1 & A1).
  rewrite (mbind_step _ _ _ _ _ E1).
  destruct (repeat_call_done _ toolbox_individual_done (Z.to_nat k) w1)
    as (l & w2 & E2 & A2 & L2).
  exists l, w2. split; [exact E2|]. split; [|exact L2].
  apply (appended_trans _ _ _ _ _ A1 A2).
Qed.

Lemma set_mutate_attribute_done (name : string) (v : R) (w : World) :
  exists w',
    set_mutate_attribute name v w = Done tt w'
    /\ log w' = log w
    /\ rng w' = rng w
    /\ attribute_float (toolbox w') = attribute_float (toolbox w)
    /\ mate (toolbox w') = mate (toolbox w)
    /\ keywords (mutate (toolbox w')) = keywords (mutate (toolbox w)).
Proof. eexists. split; [reflexivity|]. repeat split. Qed.

(** The loop over the generations: sizes and calls. *)
Lemma generations_done (k : Z) (cxpb : R) (gs : list Z) :
  selection_sizes D ->
  (0 <= k)%Z ->
  forall (s s' : Locals) (w w' : World),
    length (population s) = Z.to_nat k ->
    for_each gs (generation_body D hypervolume evaluate k cxpb) s w = Done s' w' ->
    length (population s') = Z.to_nat k
    /\ exists calls,
         appended w calls w'
         /\ generations_calls evaluate (mutate_indpb (keywords (mutate (toolbox w))))
                              (Z.to_nat k) k gs calls.
Proof.
  intros HD Hk. induction gs as [|g gs IH]; intros s s' w w' Hlen H; cbn [for_each] in H.
  - injection H as <- <-. split; [exact Hlen|]. exists [].
    split; [apply appended_refl|constructor].
  - apply mbind_done in H as (s1 & w1 & E1 & H).
    destruct (generation_body_done _ _ _ _ _ _ _ _ _ _ HD Hk Hlen E1)
      as (Hlen1 & c1 & A1 & G1).
    destruct (IH _ _ _ _ Hlen1 H) as (Hlen' & c2 & A2 & G2).
    rewrite (appended_toolbox _ _ _ A1) in G2.
    split; [exact Hlen'|]. exists (c1 ++ c2).
    split; [apply (appended_trans _ _ _ _ _ A1 A2)|]. constructor; assumption.
Qed.

(** The loop over the generations: the local variables it binds. *)
Lemma generations_locals (k : Z) (cxpb : R) (gs : list Z) :
  forall (s s' : Locals) (w w' : World),
    for_each gs (generation_body D hypervolume evaluate k cxpb) s w = Done s' w' ->
    length (hypervolume_history s') = (length (hypervolume_history s) + length gs)%nat
    /\ (gs = [] -> hypervolume_value s' = hypervolume_value s)
    /\ (gs <> [] -> exists v, hypervolume_value s' = Some v).
Proof.
  induction gs as [|g gs IH]; intros s s' w w' H; cbn [for_each] in H.
  - injection H as <- <-. split; [cbn; lia|]. split; [reflexivity|].
    intros Hne. contradiction.
  - apply mbind_done in H as (s1 & w1 & E1 & H).
    destruct (IH _ _ _ _ H) as (L & Hnil & Hcons).
    assert (Hs1 : length (hypervolume_history s1) = S (length (hypervolume_history s))
                  /\ exists v, hypervolume_value s1 = Some v).
    { unfold generation_body in E1.
      apply mbind_done in E1 as (? & ? & _ & E1). cbv beta zeta in E1.
      apply mbind_done in E1 as (? & ? & _ & E1).
      apply mbind_done in E1 as (? & ? & _ & E1).
      apply mbind_done in E1 as (? & ? & _ & E1).
      apply mbind_done in E1 as (? & ? & _ & E1).
      injection E1 as <- _. cbn [hypervolume_history hypervolume_value].
      split; [rewrite length_app; cbn; lia|eexists; reflexivity]. }
    destruct Hs1 as (L1 & v1 & Hv1).
    split; [rewrite L, L1; cbn; lia|]. split; [discriminate|].
    intros _. destruct gs as [|g' gs].
    + rewrite (Hnil eq_refl). exists v1. exact Hv1.
    + apply Hcons. discriminate.
Qed.

(** A completed run: the calls of the set-up, then those of the
    generations 1 .. number_of_generations - 1. *)
Lemma optimize_locals_done (k gens : Z) (cxpb mutpb : R) (s' : Locals) (w w' : World) :
  selection_sizes D ->
  (0 <= k)%Z ->
  optimize_locals D hypervolume evaluate k gens cxpb mutpb w = Done s' w' ->
  exists c0 calls,
    log w' = log w ++ c0 ++ calls
    /\ setup_calls k c0
    /\ generations_calls evaluate (mutate_indpb (keywords (mutate (toolbox w))))
                         (Z.to_nat k) k (py_range 1 gens) calls.
Proof.
  intros HD Hk H. unfold optimize_locals in H.
  destruct (set_mutate_attribute_done "indpb" mutpb w) as (w0 & E0 & L0 & _ & _ & _ & K0).
  rewrite (mbind_step _ _ _ _ _ E0) in H.
  destruct (toolbox_population_done k w0) as (pop1 & w1 & E1 & A1 & Len1).
  rewrite (mbind_step _ _ _ _ _ E1) in H.
  apply mbind_done in H as (pop2 & w2 & E2 & H).
  destruct (assign_fitnesses_done _ _ _ _ _ E2) as (ecalls & A2 & F2 & R2).
  destruct (toolbox_select_done D 0 pop2 (Z.of_nat (length pop2)) w2) as (w3 & E3 & A3).
  rewrite (mbind_step _ _ _ _ _ E3) in H.
  assert (Len3 : length (selNSGA2 D pop2 (Z.of_nat (length pop2))) = Z.to_nat k).
  { destruct HD as [Hsel _]. rewrite Hsel by lia. rewrite Nat2Z.id.
    rewrite <- (Forall2_length R2). exact Len1. }
  apply (generations_done k cxpb (py_range 1 gens) HD Hk) in H as (_ & calls & A4 & G4);
    [|exact Len3].
  pose proof (appended_trans _ _ _ _ _ A1 (appended_trans _ _ _ _ _ A2 A3)) as A03.
  rewrite (appended_toolbox _ _ _ A03), K0 in G4.
  exists ([Created k] ++ ecalls ++ [Selected 0 pop2 (Z.of_nat (length pop2))
                                      (selNSGA2 D pop2 (Z.of_nat (length pop2)))]), calls.
  split; [|split; [|exact G4]].
  - destruct (appended_trans _ _ _ _ _ A03 A4) as [_ L]. rewrite L, L0.
    rewrite <- !app_assoc. reflexivity.
  - exists ecalls, pop2, (selNSGA2 D pop2 (Z.of_nat (length pop2))).
    split; [reflexivity|exact F2].
Qed.

Lemma optimize_done (k gens : Z) (cxpb mutpb : R) (v : R) (w w' : World) :
  optimize D hypervolume evaluate k gens cxpb mutpb w = Done v w' ->
  exists s', optimize_locals D hypervolume evaluate k gens cxpb mutpb w = Done s' w'
             /\ hypervolume_value s' = Some v.
Proof.
  intros H. unfold optimize in H. apply mbind_done in H as (s' & w1 & E & H).
  destruct (hypervolume_value s') as [v'|] eqn:Ev; [|discriminate].
  injection H as <- <-. exists s'. split; [exact E|exact Ev].
Qed.

End Run.

(** ** Runs that complete, runs that fail *)

Section Completion.
Variable D : DEAP.
Variable hypervolume : Hypervolume.
Variable evaluate : list R -> result (list R).

Lemma assign_fitnesses_failed (l : list Individual) :
  forall (w w' : World) (e : exn),
    assign_fitnesses evaluate l w = Failed e w' -> exists x, evaluate x = Raise e.
Proof.
  induction l as [|ind l IH]; intros w w' e H; cbn [assign_fitnesses] in H.
  - discriminate.
  - destruct (record_done (Evaluated (genes ind)) w) as (w1 & E1 & _).
    rewrite (mbind_step _ _ _ _ _ E1) in H. unfold mbind at 1 in H.
    destruct (evaluate (genes ind)) as [fit|e'] eqn:Ev; cbn [lift ret throw] in H.
    + unfold mbind at 1 in H.
      destruct (assign_fitnesses evaluate l w1) as [rest w2|e2 w2] eqn:E2.
      * discriminate.
      * injection H as <- _. apply (IH _ _ _ E2).
    + injection H as <- _. exists (genes ind). exact Ev.
Qed.

Hypothesis evaluate_total : forall x, exists fit, evaluate x = Ok fit.
Hypothesis fronts_nonempty : forall l k, sortNondominated D l k <> [].

Lemma assign_fitnesses_total (l : list Individual) :
  forall w, exists l' w', assign_fitnesses evaluate l w = Done l' w'.
Proof.
  induction l as [|ind l IH]; intros w; cbn [assign_fitnesses].
  - exists [], w. reflexivity.
  - destruct (record_done (Evaluated (genes ind)) w) as (w1 & E1 & _).
    rewrite (mbind_step _ _ _ _ _ E1).
    destruct (evaluate_total (genes ind)) as (fit & Ev). rewrite Ev. cbn [lift].
    rewrite (mbind_step (ret fit) _ w1 w1 fit eq_refl).
    destruct (IH w1) as (rest & w2 & E2). rewrite (mbind_step _ _ _ _ _ E2).
    eexists. eexists. reflexivity.
Qed.

Lemma generation_body_total (k : Z) (cxpb : R) (g : Z) (s : Locals) (w : World) :
  exists s' w', generation_body D hypervolume evaluate k cxpb g s w = Done s' w'.
Proof.
  unfold generation_body.
  destruct (tools_selTournamentDCD_done D g (population s)
              (Z.of_nat (length (population s))) w) as (w1 & E1 & _).
  rewrite (mbind_step _ _ _ _ _ E1). cbv beta zeta.
  match goal with |- context [variation D g cxpb ?o] =>
    destruct (variation_done D g cxpb o w1) as (off2 & w2 & ? & E2 & _) end.
  rewrite (mbind_step _ _ _ _ _ E2).
  destruct (assign_fitnesses_total off2 w2) as (off3 & w3 & E3).
  rewrite (mbind_step _ _ _ _ _ E3).
  destruct (toolbox_select_done D g (population s ++ off3) k w3) as (w4 & E4 & _).
  rewrite (mbind_step _ _ _ _ _ E4).
  set (chosen := selNSGA2 D (population s ++ off3) k).
  pose proof (fronts_nonempty chosen (Z.of_nat (length chosen))) as Hne.
  destruct (sortNondominated D chosen (Z.of_nat (length chosen))) as [|front fronts];
    [contradiction|].
  cbn [getitem nth_error lift].
  rewrite (mbind_step (ret front) _ w4 w4 front eq_refl).
  eexists. eexists. reflexivity.
Qed.

Lemma generations_total (k : Z) (cxpb : R) (gs : list Z) :
  forall s w, exists s' w',
    for_each gs (generation_body D hypervolume evaluate k cxpb) s w = Done s' w'.
Proof.
  induction gs as [|g gs IH]; intros s w; cbn [for_each].
  - exists s, w. reflexivity.
  - destruct (generation_body_total k cxpb g s w) as (s1 & w1 & E1).
    rewrite (mbind_step _ _ _ _ _ E1). apply IH.
Qed.

Lemma optimize_locals_total (k gens : Z) (cxpb mutpb : R) (w : World) :
  exists s' w', optimize_locals D hypervolume evaluate k gens cxpb mutpb w = Done s' w'.
Proof.
  unfold optimize_locals.
  destruct (set_mutate_attribute_done "indpb" mutpb w) as (w0 & E0 & _).
  rewrite (mbind_step _ _ _ _ _ E0).
  destruct (toolbox_population_done k w0) as (pop1 & w1 & E1 & _).
  rewrite (mbind_step _ _ _ _ _ E1).
  destruct (assign_fitnesses_total pop1 w1) as (pop2 & w2 & E2).
  rewrite (mbind_step _ _ _ _ _ E2).
  destruct (toolbox_select_done D 0 pop2 (Z.of_nat (length pop2)) w2) as (w3 & E3 & _).
  rewrite (mbind_step _ _ _ _ _ E3).
  apply generations_total.
Qed.

(** With two generations or more, a run whose evaluations succeed
    returns a value, after number_of_generations - 1 passes through the
    body of the loop (one row of the history each). *)
Lemma optimize_total (k gens : Z) (cxpb mutpb : R) (w : World) :
  (2 <= gens)%Z ->
  exists v w', optimize D hypervolume evaluate k gens cxpb mutpb w = Done v w'.
Proof.
  intros Hg. unfold optimize.
  destruct (optimize_locals_total k gens cxpb mutpb w) as (s' & w' & E).
  rewrite (mbind_step _ _ _ _ _ E).
  assert (Hv : exists v, hypervolume_value s' = Some v).
  { unfold optimize_locals in E.
    apply mbind_done in E as (? & ? & _ & E).
    apply mbind_done in E as (? & ? & _ & E).
    apply mbind_done in E as (? & ? & _ & E).
    apply mbind_done in E as (? & ? & _ & E).
    apply generations_locals in E as (_ & _ & Hv). apply Hv.
    intros Hnil. apply (f_equal (@length Z)) in Hnil.
    rewrite py_range_length in Hnil. cbn [length] in Hnil. lia. }
  destruct Hv as (v & ->). exists v, w'. reflexivity.
Qed.

End Completion.

Lemma toy_selection_sizes : selection_sizes toy_deap.
Proof.
  split.
  - intros l k Hk. cbn. unfold head_selection. rewrite length_firstn. lia.
  - intros l k g Hk. cbn. unfold head_selection. rewrite length_firstn. lia.
Qed.

Lemma toy_evaluate_total : forall x, exists fit, toy_evaluate x = Ok fit.
Proof. intros x. exists [0; 0]. reflexivity. Qed.

Lemma toy_fronts_nonempty : forall l k, sortNondominated toy_deap l k <> [].
Proof. intros l k. discriminate. Qed.

Lemma toy_run_done (k gens : Z) (cxpb mutpb : R) (w : World) :
  (2 <= gens)%Z ->
  exists v w',
    optimize toy_deap toy_hypervolume toy_evaluate k gens cxpb mutpb w = Done v w'.
Proof.
  apply optimize_total; [exact toy_evaluate_total|exact toy_fronts_nonempty].
Qed.

(** ** The claims on the driver *)

Lemma mbind_assoc {A B C : Type} (c : M A) (k : A -> M B) (f : B -> M C) (w : World) :
  mbind (mbind c k) f w = mbind c (fun a => mbind (k a) f) w.
Proof. unfold mbind. destruct (c w); reflexivity. Qed.


(** C2, at the failing input.  With number_of_generations = 1 the body
    of the loop never runs, [hypervolume_value] is never bound, and the
    [return] statement raises [UnboundLocalError]: no run returns a
    value (a run can only fail earlier, when the evaluation function
    raises).  On the small instance the exception is
    [UnboundLocalError]. *)
Theorem optimize_single_generation_raises :
  (forall (D : DEAP) (hypervolume : Hypervolume) (evaluate : list R -> result (list R))
          (k : Z) (cxpb mutpb : R) (w : World),
      exists e w',
        optimize D hypervolume evaluate k 1 cxpb mutpb w = Failed e w'
        /\ (e = UnboundLocalError \/ exists x, evaluate x = Raise e))
  /\ exists w',
       optimize toy_deap toy_hypervolume toy_evaluate 4 1 0.9 0.1 (initial_world zero_rng)
       = Failed UnboundLocalError w'.
Proof.
  assert (General : forall D hypervolume evaluate k cxpb mutpb w,
             exists e w',
               optimize D hypervolume evaluate k 1 cxpb mutpb w = Failed e w'
               /\ (e = UnboundLocalError \/ exists x, evaluate x = Raise e)).
  { intros D hypervolume evaluate k cxpb mutpb w.
    unfold optimize, optimize_locals.
    destruct (set_mutate_attribute_done "indpb" mutpb w) as (w0 & E0 & _).
    rewrite mbind_assoc, (mbind_step _ _ _ _ _ E0).
    destruct (toolbox_population_done k w0) as (pop1 & w1 & E1 & _).
    rewrite mbind_assoc, (mbind_step _ _ _ _ _ E1).
    rewrite mbind_assoc. unfold mbind at 1.
    destruct (assign_fitnesses evaluate pop1 w1) as [pop2 w2|e w2] eqn:E2.
    - destruct (toolbox_select_done D 0 pop2 (Z.of_nat (length pop2)) w2)
        as (w3 & E3 & _).
      rewrite mbind_assoc, (mbind_step _ _ _ _ _ E3).
      change (py_range 1 1) with (@nil Z). cbn [for_each].
      exists UnboundLocalError, w3. split; [reflexivity|left; reflexivity].
    - exists e, w2. split; [reflexivity|right].
      apply (assign_fitnesses_failed _ _ _ _ _ E2). }
  split; [exact General|].
  destruct (General toy_deap toy_hypervolume toy_evaluate 4%Z 0.9 0.1
              (initial_world zero_rng)) as (e & w' & E & [-> | (x & Hx)]).
  - exists w'. exact E.
  - discriminate.
Qed.





Section RunCalls.
Variable D : DEAP.
Variable hypervolume : Hypervolume.
Variable evaluate : list R -> result (list R).

(** The mutations of a completed run, offspring by offspring. *)
Lemma optimize_mutations (k gens : Z) (cxpb mutpb v : R) (w w' : World) :
  selection_sizes D ->
  (0 <= k)%Z ->
  optimize D hypervolume evaluate k gens cxpb mutpb w = Done v w' ->
  forall g i, (1 <= g < gens)%Z ->
    mutations_of g i (log w')
    = mutations_of g i (log w)
      ++ repeat (mutate_indpb (keywords (mutate (toolbox w))))
                (if Nat.ltb i (paired (Z.to_nat k)) then 1 else 0).
Proof.
  intros HD Hk H g i Hg.
  apply optimize_done in H as (s' & H & _).
  destruct (optimize_locals_done _ _ _ _ _ _ _ _ _ _ HD Hk H) as (c0 & calls & L & S0 & G).
  rewrite L, !mutations_of_app.
  rewrite (no_variation_mutations _ _ _ (setup_calls_no_variation _ _ S0)).
  rewrite (generations_calls_mutations_in _ _ _ _ _ _ G (py_range_nodup 1 gens))
    by (apply py_range_in; exact Hg).
  reflexivity.
Qed.


End RunCalls.

(** C1, at the failing input.  The assignment
    [toolbox.mutate.indpb = mutation_probability] stores an attribute on
    the partial object and leaves its keywords alone: in every run,
    whatever [mutation_probability] is and whatever attributes earlier
    runs have stored, every mutation is called with the probability 0.1
    given at registration.  On the small instance run with
    [mutation_probability = 0.5], offspring 0 of generation 1 is mutated
    with probability 0.1. *)
Theorem mutation_probability_argument_ignored :
  (forall (D : DEAP) (hypervolume : Hypervolume) (evaluate : list R -> result (list R))
          (population_size number_of_generations : Z)
          (crossover_probability mutation_probability : R)
          (g : Rng) (attrs : list (string * R)),
      Forall (fun c => forall q, indpb_of c = Some q -> q = 0.1)
             (log (world_of (optimize D hypervolume evaluate population_size
                               number_of_generations crossover_probability
                               mutation_probability
                               {| rng := g; toolbox := toolbox_with_attributes attrs;
                                  log := [] |}))))
  /\ mutations_of 1 0
       (log (world_of (optimize toy_deap toy_hypervolume toy_evaluate 4 2 0.9 0.5
                         (initial_world zero_rng))))
     = [0.1]
  /\ 0.5 <> 0.1.
Proof.
  split; [|split].
  - intros D hypervolume evaluate k gens cxpb mutpb g attrs.
    destruct (steady_optimize D hypervolume evaluate 0.1 k gens cxpb mutpb
                {| rng := g; toolbox := toolbox_with_attributes attrs; log := [] |}
                eq_refl) as (_ & calls & L & F).
    rewrite L. exact F.
  - destruct (toy_run_done 4 2 0.9 0.5 (initial_world zero_rng)) as (v & w' & E); [lia|].
    rewrite E. cbn [world_of].
    assert (H0 : (0 <= 4)%Z) by lia.
    assert (H1 : (1 <= 1 < 2)%Z) by lia.
    rewrite (optimize_mutations _ _ _ _ _ _ _ _ _ _ toy_selection_sizes H0 E 1%Z 0%nat H1).
    reflexivity.
  - lra.
Qed.

(** When the draw is above the crossover probability, the pair is passed
    through and no crossover is called. *)
Lemma crossover_skipped (D : DEAP) (g : Z) (cxpb : R) (i j : nat)
  (a b : Individual) (w : World) :
  cxpb < draws (rng w) (pos (rng w)) ->
  exists w', crossover D g cxpb i j a b w = Done (a, b) w' /\ appended w [] w'.
Proof.
  intros Hu. unfold crossover.
  destruct (random_random_done w) as (w1 & E1 & A1).
  rewrite (mbind_step _ _ _ _ _ E1).
  destruct (Rle_dec (draws (rng w) (pos (rng w))) cxpb) as [Hle|_]; [lra|].
  exists w1. split; [reflexivity|exact A1].
Qed.

(** C3, at the failing input.  The test is [random.random() <=
    crossover_probability], and [random.random()] can return 0.0: with
    [crossover_probability = 0] and that draw the crossover is called,
    and the offspring are its results.  On the small instance the genes
    of the first offspring are then those of the second parent. *)
Theorem crossover_taken_at_probability_zero :
  (forall (D : DEAP) (g : Z) (i j : nat) (a b : Individual),
      exists w',
        crossover D g 0 i j a b (initial_world zero_rng)
        = Done (fst (cxSimulatedBinaryBounded D a b 20.0 0.0 1.0
                       {| draws := fun _ => 0; pos := 1 |})) w'
        /\ log w' = [Mated g i j])
  /\ exists child1 child2 w',
       crossover toy_deap 1 0 0 1 (new_individual [0; 0; 0; 0])
                 (new_individual [1; 1; 1; 1]) (initial_world zero_rng)
       = Done (child1, child2) w'
       /\ genes child1 = [1; 1; 1; 1]
       /\ genes child1 <> genes (new_individual [0; 0; 0; 0]).
Proof.
  assert (General : forall D g i j a b,
             exists w',
               crossover D g 0 i j a b (initial_world zero_rng)
               = Done (fst (cxSimulatedBinaryBounded D a b 20.0 0.0 1.0
                              {| draws := fun _ => 0; pos := 1 |})) w'
               /\ log w' = [Mated g i j]).
  { intros D g i j a b. unfold crossover, mbind at 1, random_random, with_rng.
    cbn [initial_world rng zero_rng draws pos toolbox log].
    destruct (Rle_dec 0 0) as [_|Hn]; [|exfalso; apply Hn; lra].
    unfold toolbox_mate, get_toolbox, mbind, record, with_rng.
    cbn [rng toolbox log registered_toolbox register_toolbox mate keywords
         mate_eta mate_low mate_up].
    unfold attribute_bound_lower, attribute_bound_upper.
    destruct (cxSimulatedBinaryBounded D a b 20.0 0.0 1.0
                {| draws := fun _ => 0; pos := 1 |}) as [children g'].
    eexists. split; reflexivity. }
  split; [exact General|].
  destruct (General toy_deap 1%Z 0%nat 1%nat (new_individual [0; 0; 0; 0])
              (new_individual [1; 1; 1; 1])) as (w' & E & _).
  cbn [toy_deap cxSimulatedBinaryBounded swap_genes fst] in E.
  eexists. eexists. exists w'. split; [exact E|].
  cbn [genes new_individual]. split; [reflexivity|].
  intros H. apply (f_equal (hd 0)) in H. cbn [hd] in H. lra.
Qed.

(** ** The selections of a generation *)

Section Tags.
Variable evaluate : list R -> result (list R).
Variable p : R.
Variable n : nat.
Variable k : Z.








End Tags.





(** ** The hypervolume *)

Section Hypervolume.
Variable D : DEAP.
Variables hypervolume1 hypervolume2 : Hypervolume.
Variable evaluate : list R -> result (list R).

Ltac walk :=
  repeat match goal with
         | |- context [match ?x with Done _ _ => _ | Failed _ _ => _ end] =>
             destruct x; cbn [same_populations population]
         end.

Lemma generation_body_same (k : Z) (cxpb : R) (g : Z) (s1 s2 : Locals) (w : World) :
  population s1 = population s2 ->
  same_populations (generation_body D hypervolume1 evaluate k cxpb g s1 w)
                   (generation_body D hypervolume2 evaluate k cxpb g s2 w).
Proof.
  intros Hp. unfold generation_body. rewrite Hp. unfold mbind, ret. walk;
    repeat split; reflexivity.
Qed.

Lemma generations_same (k : Z) (cxpb : R) (gs : list Z) :
  forall (s1 s2 : Locals) (w : World),
    population s1 = population s2 ->
    same_populations
      (for_each gs (generation_body D hypervolume1 evaluate k cxpb) s1 w)
      (for_each gs (generation_body D hypervolume2 evaluate k cxpb) s2 w).
Proof.
  induction gs as [|g gs IH]; intros s1 s2 w Hp; cbn [for_each].
  - cbn. repeat split. exact Hp.
  - unfold mbind at 1 2.
    pose proof (generation_body_same k cxpb g s1 s2 w Hp) as Hb.
    destruct (generation_body D hypervolume1 evaluate k cxpb g s1 w) as [a1 w1|e1 w1],
      (generation_body D hypervolume2 evaluate k cxpb g s2 w) as [a2 w2|e2 w2];
      cbn [same_populations] in Hb; try contradiction.
    + destruct Hb as (Hp' & <- & _). apply IH. exact Hp'.
    + exact Hb.
Qed.

End Hypervolume.

(** C8. The hypervolume has no influence on the selection: two runs
    that differ only in the hypervolume function end in the same world,
    with the same calls, the same populations selected generation after
    generation and the same final population, or fail alike. *)
Theorem hypervolume_without_influence
  (D : DEAP) (hypervolume1 hypervolume2 : Hypervolume)
  (evaluate : list R -> result (list R))
  (population_size number_of_generations : Z)
  (crossover_probability mutation_probability : R) (w : World) :
  same_populations
    (optimize_locals D hypervolume1 evaluate population_size number_of_generations
                     crossover_probability mutation_probability w)
    (optimize_locals D hypervolume2 evaluate population_size number_of_generations
                     crossover_probability mutation_probability w).
Proof.
  unfold optimize_locals.
  destruct (set_mutate_attribute_done "indpb" mutation_probability w) as (w0 & E0 & _).
  rewrite !(mbind_step _ _ _ _ _ E0).
  destruct (toolbox_population_done population_size w0) as (pop1 & w1 & E1 & _).
  rewrite !(mbind_step _ _ _ _ _ E1).
  unfold mbind at 1 3.
  destruct (assign_fitnesses evaluate pop1 w1) as [pop2 w2|e w2];
    [|split; reflexivity].
  destruct (toolbox_select_done D 0 pop2 (Z.of_nat (length pop2)) w2) as (w3 & E3 & _).
  rewrite !(mbind_step _ _ _ _ _ E3).
  apply generations_same. reflexivity.
Qed.

(** * Further properties of the evaluation function *)

Lemma fdiv_not_index (a b : R) : fdiv a b <> Raise IndexError.
Proof. unfold fdiv. destruct (Req_dec_T b 0); discriminate. Qed.

Lemma fsqrt_not_index (a : R) : fsqrt a <> Raise IndexError.
Proof. unfold fsqrt. destruct (Rlt_dec a 0); discriminate. Qed.

Lemma getitem_short {A : Type} (x : list A) (i : nat) :
  (length x <= i)%nat -> getitem x i = Raise IndexError.
Proof.
  intros H. unfold getitem. apply nth_error_None in H. rewrite H. reflexivity.
Qed.

(** X1. The evaluation function raises [IndexError] exactly when it is
    given fewer than four genes; genes after the fourth are never read. *)
Theorem welded_beam_design_index_error (x : list R) :
  (welded_beam_design x = Raise IndexError <-> (length x < 4)%nat)
  /\ welded_beam_design x = welded_beam_design (firstn 4 x).
Proof.
  split; [split|].
  - intros H.
    destruct x as [|x0 [|x1 [|x2 [|x3 rest]]]]; cbn [length]; try lia.
    exfalso. unfold welded_beam_design in H.
    cbn [getitem nth_error rbind] in H. cbv beta zeta in H.
    repeat match type of H with
           | rbind (fdiv ?a ?b) _ = _ =>
               let E := fresh "E" in
               destruct (fdiv a b) eqn:E;
               [cbn [rbind] in H; cbv beta zeta in H
               |cbn [rbind] in H; injection H as ->; exact (fdiv_not_index _ _ E)]
           | rbind (fsqrt ?a) _ = _ =>
               let E := fresh "E" in
               destruct (fsqrt a) eqn:E;
               [cbn [rbind] in H; cbv beta zeta in H
               |cbn [rbind] in H; injection H as ->; exact (fsqrt_not_index _ E)]
           end.
    discriminate.
  - intros H. unfold welded_beam_design.
    destruct x as [|x0 [|x1 [|x2 [|x3 rest]]]]; cbn [length] in H; try lia;
      reflexivity.
  - destruct x as [|x0 [|x1 [|x2 [|x3 rest]]]]; reflexivity.
Qed.

Lemma fdiv_inv (a b v : R) : fdiv a b = Ok v -> b <> 0 /\ v = a / b.
Proof.
  unfold fdiv. destruct (Req_dec_T b 0); [discriminate|].
  intros H. injection H as <-. split; [assumption|reflexivity].
Qed.

Lemma fsqrt_inv (a v : R) : fsqrt a = Ok v -> 0 <= a /\ v = sqrt a.
Proof.
  unfold fsqrt. destruct (Rlt_dec a 0); [discriminate|].
  intros H. injection H as <-. split; [lra|reflexivity].
Qed.

Lemma beam_dimensions_inv (x : list R) (d : Dimensions) :
  beam_dimensions x = Ok d ->
  exists x0 x1 x2 x3 rest,
    x = x0 :: x1 :: x2 :: x3 :: rest
    /\ d = {| dim_b := 0.125 + 4.875 * x0;
              dim_h := 0.125 + (0.125 + 4.875 * x0 - 0.125) * x1;
              dim_l := 0.1 + 9.9 * x2;
              dim_t := 0.1 + 9.9 * x3 |}.
Proof.
  intros H. destruct x as [|x0 [|x1 [|x2 [|x3 rest]]]]; try discriminate.
  unfold beam_dimensions in H. cbn [getitem nth_error rbind] in H.
  injection H as <-. exists x0, x1, x2, x3, rest. split; reflexivity.
Qed.

(** The terms of the evaluation function, read on the dimensions. *)
Lemma terms_dimensions (x : list R) (r : RawTerms) :
  welded_beam_terms x = Ok r ->
  exists d,
    beam_dimensions x = Ok d
    /\ raw_f1 r = cost d
    /\ raw_f2 r = deflection d
    /\ raw_g2 r = bending_stress d - 30000.0
    /\ raw_g3 r = 6000.0 - buckling_load d.
Proof.
  intros H. destruct x as [|x0 [|x1 [|x2 [|x3 rest]]]]; try discriminate.
  unfold welded_beam_terms in H.
  cbn [getitem nth_error rbind] in H. cbv beta zeta in H.
  repeat match type of H with
         | rbind (fsqrt ?a) _ = _ =>
             destruct (fsqrt a); [cbn [rbind] in H; cbv beta zeta in H|discriminate]
         | rbind (fdiv ?a ?b) _ = _ =>
             let E := fresh "E" in
             destruct (fdiv a b) eqn:E;
             [apply fdiv_inv in E as [_ ->]; cbn [rbind] in H; cbv beta zeta in H
             |discriminate]
         end.
  injection H as <-. eexists. split; [reflexivity|].
  cbn [raw_f1 raw_f2 raw_g2 raw_g3].
  unfold cost, deflection, bending_stress, buckling_load.
  cbn [dim_b dim_h dim_l dim_t]. repeat split; reflexivity.
Qed.

(** X2. On the domain the decoded dimensions are in range: the weld is
    never thicker than the beam is wide (0.125 <= h <= b <= 5) and the
    length of the weld and the thickness of the beam lie in [0.1, 10];
    the cost, the deflection, the bending stress and the buckling load
    of the function are those of these dimensions. *)
Theorem beam_dimensions_in_range (x : list R) :
  in_domain x ->
  exists d r,
    beam_dimensions x = Ok d
    /\ 0.125 <= dim_h d <= dim_b d /\ dim_b d <= 5
    /\ 0.1 <= dim_l d <= 10 /\ 0.1 <= dim_t d <= 10
    /\ welded_beam_terms x = Ok r
    /\ raw_f1 r = cost d
    /\ raw_f2 r = deflection d
    /\ raw_g2 r = bending_stress d - 30000.0
    /\ raw_g3 r = 6000.0 - buckling_load d.
Proof.
  intros Hx. destruct (in_domain_inv x Hx) as (x0 & x1 & x2 & x3 & -> & A0 & A1 & A2 & A3).
  destruct (terms_on_domain x0 x1 x2 x3 A0 A1 A2 A3) as (r & Hr & _).
  destruct (terms_dimensions _ _ Hr) as (d & Hd & F1 & F2 & G2 & G3).
  exists d, r. split; [exact Hd|].
  apply beam_dimensions_inv in Hd as (y0 & y1 & y2 & y3 & rest & E & ->).
  injection E as <- <- <- <- _. cbn [dim_b dim_h dim_l dim_t].
  unfold unit_interval in *.
  repeat split; try assumption; try lra; nra.
Qed.

Lemma beam_dimensions_in_range_witness :
  in_domain [0; 0; 0; 0]
  /\ exists d r,
    beam_dimensions [0; 0; 0; 0] = Ok d
    /\ 0.125 <= dim_h d <= dim_b d /\ dim_b d <= 5
    /\ 0.1 <= dim_l d <= 10 /\ 0.1 <= dim_t d <= 10
    /\ welded_beam_terms [0; 0; 0; 0] = Ok r
    /\ raw_f1 r = cost d
    /\ raw_f2 r = deflection d
    /\ raw_g2 r = bending_stress d - 30000.0
    /\ raw_g3 r = 6000.0 - buckling_load d.
Proof.
  split; [exact origin_in_domain|].
  apply (beam_dimensions_in_range [0; 0; 0; 0]). exact origin_in_domain.
Defined.







(** X4. A design that violates no constraint is not penalised: the
    result is [tanh] of the cost divided by 40.0 and [tanh] of the
    deflection divided by 0.006. *)
Theorem feasible_design_not_penalised (x : list R) (r : RawTerms) :
  welded_beam_terms x = Ok r ->
  feasible r ->
  penalty_of r = 0
  /\ welded_beam_design x = Ok [tanh (raw_f1 r / 40.0); tanh (raw_f2 r / 0.006)].
Proof.
  intros Hr (G1 & G2 & G3).
  pose proof (penalty_of_feasible r G1 G2 G3) as Hp.
  split; [exact Hp|].
  rewrite welded_beam_design_terms, Hr. cbn [rbind]. rewrite Hp, !Rplus_0_r.
  reflexivity.
Qed.

Lemma feasible_design_not_penalised_witness :
  exists r,
    welded_beam_terms [1; 1; 1; 1] = Ok r
    /\ feasible r
    /\ penalty_of r = 0
    /\ welded_beam_design [1; 1; 1; 1]
       = Ok [tanh (raw_f1 r / 40.0); tanh (raw_f2 r / 0.006)].
Proof.
  destruct terms_at_upper_corner as (r & Hr & G1 & G2 & G3).
  exists r. split; [exact Hr|]. split; [repeat split; assumption|].
  apply (feasible_design_not_penalised [1; 1; 1; 1] r Hr). repeat split; assumption.
Defined.







(** * Properties of [initialization_uniform] *)

Lemma world_eta (w : World) :
  {| rng := rng w; toolbox := toolbox w; log := log w |} = w.
Proof. destruct w; reflexivity. Qed.

Lemma advance_zero (g : Rng) : advance 0 g = g.
Proof. unfold advance. rewrite Nat.add_0_r. destruct g; reflexivity. Qed.

(** [n] draws of [random.uniform]: the values and the generator left. *)
Lemma repeat_uniform (a b : R) (n : nat) :
  forall w,
    repeat_call n (random_uniform a b) w
    = Done (uniform_values a b n (rng w))
           {| rng := advance n (rng w); toolbox := toolbox w; log := log w |}.
Proof.
  induction n as [|n IH]; intros w; cbn [repeat_call].
  - unfold ret, uniform_values. cbn [seq map]. rewrite advance_zero, world_eta.
    reflexivity.
  - unfold mbind at 1, random_uniform at 1, mbind at 1, random_random, with_rng, ret at 1.
    unfold mbind at 1. rewrite IH. cbn [rng toolbox log]. unfold ret.
    f_equal.
    + unfold uniform_values. cbn [seq map draws pos].
      rewrite Nat.add_0_r. f_equal.
      rewrite <- seq_shift, map_map. apply map_ext. intros k.
      rewrite Nat.add_succ_r. reflexivity.
    + unfold advance. cbn [draws pos]. rewrite Nat.add_succ_r. reflexivity.
Qed.

Lemma uniform_each_scalars (pairs : list (R * R)) :
  forall w, exists genes w',
    uniform_each (map (fun ab => (Scalar (fst ab), Scalar (snd ab))) pairs) w
    = Done (Value genes) w'
    /\ appended w [] w'
    /\ rng w' = advance (length pairs) (rng w)
    /\ Forall2 (fun ab v => exists k, (pos (rng w) <= k < pos (rng w) + length pairs)%nat
                                      /\ v = fst ab + (snd ab - fst ab) * draws (rng w) k)
               pairs genes.
Proof.
  induction pairs as [|[a b] pairs IH]; intros w; cbn [map uniform_each fst snd length].
  - exists [], w. split; [reflexivity|]. split; [apply appended_refl|].
    split; [rewrite advance_zero; reflexivity|constructor].
  - unfold bound_uniform.
    destruct (random_uniform_done a b w) as (v & w1 & E1 & A1).
    assert (Hv : v = a + (b - a) * draws (rng w) (pos (rng w))
                 /\ rng w1 = advance 1 (rng w)).
    { unfold random_uniform, mbind, random_random, with_rng, ret in E1.
      injection E1 as <- <-. split; [reflexivity|].
      cbn [rng]. unfold advance. f_equal. lia. }
    destruct Hv as (-> & Hr1).
    rewrite mbind_assoc, (mbind_step _ _ _ _ _ E1).
    rewrite (mbind_step (ret _) _ w1 w1 _ eq_refl).
    destruct (IH w1) as (genes & w2 & E2 & A2 & Hr2 & F2).
    rewrite (mbind_step _ _ _ _ _ E2).
    eexists. exists w2. split; [reflexivity|].
    split; [apply (appended_trans _ _ _ _ _ A1 A2)|]. split.
    + rewrite Hr2, Hr1. unfold advance. cbn [draws pos]. f_equal. lia.
    + constructor.
      * exists (pos (rng w)). split; [lia|reflexivity].
      * rewrite Hr1 in F2. cbn [advance draws pos] in F2.
        eapply Forall2_impl; [|exact F2].
        intros [a' b'] v' (k & Hk & ->). exists k. split; [lia|reflexivity].
Qed.

Lemma combine_repeat {A B : Type} (x : A) (y : B) (n : nat) :
  combine (repeat x n) (repeat y n) = repeat (x, y) n.
Proof. induction n as [|n IH]; [reflexivity|]. cbn. rewrite IH. reflexivity. Qed.

Lemma uniform_each_repeat (a b : R) (n : nat) :
  forall w,
    uniform_each (repeat (Scalar a, Scalar b) n) w
    = mbind (repeat_call n (random_uniform a b)) (fun g => ret (Value g)) w.
Proof.
  induction n as [|n IH]; intros w; cbn [repeat uniform_each repeat_call].
  - reflexivity.
  - unfold bound_uniform.
    destruct (random_uniform_done a b w) as (v & w1 & E1 & _).
    rewrite !mbind_assoc, !(mbind_step _ _ _ _ _ E1).
    rewrite (mbind_step (ret _) _ w1 w1 _ eq_refl).
    unfold mbind at 1. rewrite IH.
    rewrite mbind_assoc. unfold mbind at 1 2.
    destruct (repeat_call n (random_uniform a b) w1) as [rest w2|e w2]; reflexivity.
Qed.

Lemma initialization_uniform_bounds_floats (a b : R) (n : Z) (w : World) :
  initialization_uniform_bounds (Scalar a) (Scalar b) (Some n) w
  = Done (Value (uniform_values a b (Z.to_nat n) (rng w)))
         {| rng := advance (Z.to_nat n) (rng w); toolbox := toolbox w; log := log w |}.
Proof.
  unfold initialization_uniform_bounds. cbn [zip_bounds times].
  rewrite (mbind_step (ret TypeError) _ w w _ eq_refl).
  rewrite combine_repeat, uniform_each_repeat.
  unfold mbind. rewrite repeat_uniform. reflexivity.
Qed.

(** X7. With float bounds and a size, [initialization_uniform] returns
    [size] genes, the k-th being lower + (upper - lower) * the k-th next
    draw; it consumes exactly [size] draws, and it is the function the
    driver uses to create an individual. *)
Theorem initialization_uniform_floats (a b : R) (n : Z) (w : World) :
  initialization_uniform_bounds (Scalar a) (Scalar b) (Some n) w
  = Done (Value (uniform_values a b (Z.to_nat n) (rng w)))
         {| rng := advance (Z.to_nat n) (rng w); toolbox := toolbox w; log := log w |}
  /\ initialization_uniform a b (Z.to_nat n) w
     = Done (uniform_values a b (Z.to_nat n) (rng w))
            {| rng := advance (Z.to_nat n) (rng w); toolbox := toolbox w; log := log w |}
  /\ length (uniform_values a b (Z.to_nat n) (rng w)) = Z.to_nat n.
Proof.
  split; [|split].
  - apply initialization_uniform_bounds_floats.
  - unfold initialization_uniform. apply repeat_uniform.
  - unfold uniform_values. rewrite length_map, length_seq. reflexivity.
Qed.

Lemma uniform_between (a b u : R) :
  0 <= u < 1 -> Rmin a b <= a + (b - a) * u <= Rmax a b.
Proof.
  intros Hu. unfold Rmin, Rmax. destruct (Rle_dec a b); nra.
Qed.

Lemma zero_rng_unit : unit_draws zero_rng.
Proof. intros k. cbn. lra. Qed.

(** X8. With float bounds, every gene lies between the two bounds,
    whichever is the larger: the bounds are not required to be ordered. *)
Theorem initialization_uniform_between_bounds (a b : R) (n : Z) (w : World) :
  unit_draws (rng w) ->
  exists genes w',
    initialization_uniform_bounds (Scalar a) (Scalar b) (Some n) w = Done (Value genes) w'
    /\ length genes = Z.to_nat n
    /\ Forall (fun v => Rmin a b <= v <= Rmax a b) genes.
Proof.
  intros Hu. eexists. eexists. split; [apply initialization_uniform_bounds_floats|].
  unfold uniform_values. split; [rewrite length_map, length_seq; reflexivity|].
  apply Forall_forall. intros v Hv. apply in_map_iff in Hv as (k & <- & _).
  apply uniform_between. apply Hu.
Qed.

Lemma initialization_uniform_between_bounds_witness :
  unit_draws (rng (initial_world zero_rng))
  /\ exists genes w',
       initialization_uniform_bounds (Scalar 0.0) (Scalar 1.0) (Some 4%Z)
         (initial_world zero_rng) = Done (Value genes) w'
       /\ length genes = Z.to_nat 4
       /\ Forall (fun v => Rmin 0.0 1.0 <= v <= Rmax 0.0 1.0) genes.
Proof.
  split; [exact zero_rng_unit|].
  apply (initialization_uniform_between_bounds 0.0 1.0 4 (initial_world zero_rng)).
  exact zero_rng_unit.
Defined.

(** X9. With two sequences of bounds, [size] is not used: there is one
    gene per pair of bounds, as many as the shorter sequence has, each
    between its two bounds, and as many draws are consumed. *)
Theorem initialization_uniform_sequences (l u : list R) (size : option Z) (w : World) :
  unit_draws (rng w) ->
  exists genes w',
    initialization_uniform_bounds (Sequence l) (Sequence u) size w = Done (Value genes) w'
    /\ length genes = Nat.min (length l) (length u)
    /\ rng w' = advance (Nat.min (length l) (length u)) (rng w)
    /\ log w' = log w
    /\ Forall2 (fun ab v => Rmin (fst ab) (snd ab) <= v <= Rmax (fst ab) (snd ab))
               (combine l u) genes.
Proof.
  intros Hu. unfold initialization_uniform_bounds. cbn [zip_bounds].
  destruct (uniform_each_scalars (combine l u) w) as (genes & w' & E & [_ L] & Hr & F).
  rewrite (mbind_step _ _ _ _ _ E).
  exists genes, w'. split; [reflexivity|].
  rewrite length_combine in Hr.
  split; [rewrite <- (Forall2_length F), length_combine; reflexivity|].
  split; [exact Hr|]. split; [rewrite L, app_nil_r; reflexivity|].
  eapply Forall2_impl; [|exact F].
  intros ab v (k & _ & ->). apply uniform_between. apply Hu.
Qed.

Lemma initialization_uniform_sequences_witness :
  unit_draws (rng (initial_world zero_rng))
  /\ exists genes w',
       initialization_uniform_bounds (Sequence [0; 0; 0]) (Sequence [1; 2]) None
         (initial_world zero_rng) = Done (Value genes) w'
       /\ length genes = Nat.min (length [0; 0; 0]) (length [1; 2])
       /\ rng w' = advance (Nat.min (length [0; 0; 0]) (length [1; 2]))
                           (rng (initial_world zero_rng))
       /\ log w' = log (initial_world zero_rng)
       /\ Forall2 (fun ab v => Rmin (fst ab) (snd ab) <= v <= Rmax (fst ab) (snd ab))
                  (combine [0; 0; 0] [1; 2]) genes.
Proof.
  split; [exact zero_rng_unit|].
  apply (initialization_uniform_sequences [0; 0; 0] [1; 2] None (initial_world zero_rng)).
  exact zero_rng_unit.
Defined.

Lemma repeat_positive {A : Type} (x : A) (p : positive) :
  exists rest, repeat x (Z.to_nat (Z.pos p)) = x :: rest.
Proof.
  rewrite Z2Nat.inj_pos. destruct (Pos2Nat.is_succ p) as (n & ->).
  exists (repeat x n). reflexivity.
Qed.

(** X10. [initialization_uniform] raises [TypeError], without drawing
    any random number, when the bounds are floats and no size is given,
    and when one bound is a float and the other a sequence (with no
    size or a positive size). *)
Theorem initialization_uniform_type_error
  (a : R) (b : R) (l : list R) (p : positive) (w : World) :
  initialization_uniform_bounds (Scalar a) (Scalar b) None w = Done TypeError w
  /\ initialization_uniform_bounds (Scalar a) (Sequence l) None w = Done TypeError w
  /\ initialization_uniform_bounds (Sequence l) (Scalar a) None w = Done TypeError w
  /\ initialization_uniform_bounds (Scalar a) (Sequence l) (Some (Z.pos p)) w
     = Done TypeError w
  /\ initialization_uniform_bounds (Sequence l) (Scalar a) (Some (Z.pos p)) w
     = Done TypeError w.
Proof.
  unfold initialization_uniform_bounds. cbn [zip_bounds times].
  rewrite !(mbind_step (ret TypeError) _ w w _ eq_refl).
  destruct (repeat_positive (Scalar a) p) as (r1 & ->).
  destruct (repeat_positive (Sequence l) p) as (r2 & ->).
  repeat split.
Qed.

(** * Further properties of the driver *)

(** ** What [optimize] returns, and when it fails *)

Lemma py_range_empty (a b : Z) : (b <= a)%Z -> py_range a b = [].
Proof.
  intros H. unfold py_range. replace (Z.to_nat (b - a)) with 0%nat by lia. reflexivity.
Qed.

Lemma py_range_cons (a b : Z) : (a < b)%Z -> py_range a b = a :: py_range (a + 1) b.
Proof.
  intros H. unfold py_range.
  replace (Z.to_nat (b - a)) with (S (Z.to_nat (b - (a + 1)))) by lia.
  cbn [seq map]. f_equal; [lia|].
  rewrite <- seq_shift, map_map. apply map_ext. intros k. lia.
Qed.

Lemma py_range_last (a b : Z) :
  (a < b)%Z -> exists front, py_range a b = front ++ [(b - 1)%Z].
Proof.
  intros H. unfold py_range.
  replace (Z.to_nat (b - a)) with (Z.to_nat (b - a - 1) + 1)%nat by lia.
  rewrite seq_app, map_app. eexists. f_equal. cbn [seq map]. f_equal. lia.
Qed.


Section Outcomes.
Variable D : DEAP.
Variable hypervolume : Hypervolume.
Variable evaluate : list R -> result (list R).

(** The local variables that a completed generation binds. *)
Lemma generation_body_locals (k : Z) (cxpb : R) (g : Z) (s s' : Locals) (w w' : World) :
  generation_body D hypervolume evaluate k cxpb g s w = Done s' w' ->
  hypervolume_value s' = Some (hypervolume (population s') reference_point)
  /\ hypervolume_history s'
     = hypervolume_history s ++ [(IZR g, hypervolume (population s') reference_point)].
Proof.
  intros H. unfold generation_body in H.
  apply mbind_done in H as (? & ? & _ & H). cbv beta zeta in H.
  apply mbind_done in H as (? & ? & _ & H).
  apply mbind_done in H as (? & ? & _ & H).
  apply mbind_done in H as (? & ? & _ & H).
  apply mbind_done in H as (? & ? & _ & H).
  injection H as <- _. split; reflexivity.
Qed.

Lemma generations_history (k : Z) (cxpb : R) (gs : list Z) :
  forall (s s' : Locals) (w w' : World),
    for_each gs (generation_body D hypervolume evaluate k cxpb) s w = Done s' w' ->
    exists rows,
      hypervolume_history s' = hypervolume_history s ++ rows
      /\ map fst rows = map IZR gs
      /\ (forall front g, gs = front ++ [g] ->
            hypervolume_value s' = Some (hypervolume (population s') reference_point)
            /\ exists rows', rows = rows'
                 ++ [(IZR g, hypervolume (population s') reference_point)]).
Proof.
  induction gs as [|g gs IH]; intros s s' w w' H; cbn [for_each] in H.
  - injection H as <- <-. exists []. split; [rewrite app_nil_r; reflexivity|].
    split; [reflexivity|]. intros front g E. destruct front; discriminate.
  - apply mbind_done in H as (s1 & w1 & E1 & H).
    destruct (generation_body_locals _ _ _ _ _ _ _ E1) as (V1 & H1).
    destruct (IH _ _ _ _ H) as (rows & Hrows & Hfst & Hlast).
    exists ((IZR g, hypervolume (population s1) reference_point) :: rows).
    split; [rewrite Hrows, H1, <- app_assoc; reflexivity|].
    split; [cbn [map fst]; rewrite Hfst; reflexivity|].
    intros front g' E. destruct gs as [|g2 gs].
    + cbn [for_each] in H. injection H as <- <-.
      destruct front as [|? [|? ?]]; try discriminate.
      injection E as <-. split; [exact V1|]. exists [].
      destruct rows; [reflexivity|discriminate].
    + destruct front as [|g0 front]; [discriminate|].
      injection E as <- E.
      destruct (Hlast front g' E) as (V & rows' & ->).
      split; [exact V|].
      exists ((IZR g, hypervolume (population s1) reference_point) :: rows').
      reflexivity.
Qed.




(** A run that completes its loop has bound [hypervolume_value] unless
    the loop had nothing to do. *)
Lemma optimize_locals_value (k gens : Z) (cxpb mutpb : R) (s' : Locals) (w w' : World) :
  optimize_locals D hypervolume evaluate k gens cxpb mutpb w = Done s' w' ->
  ((gens <= 1)%Z /\ hypervolume_value s' = None /\ hypervolume_history s' = [(0, 0)])
  \/ ((2 <= gens)%Z
      /\ hypervolume_value s' = Some (hypervolume (population s') reference_point)
      /\ exists rows,
           hypervolume_history s'
           = (0, 0) :: rows ++ [(IZR (gens - 1),
                                 hypervolume (population s') reference_point)]
           /\ map fst ((0, 0) :: rows) = map IZR (py_range 0 (gens - 1))).
Proof.
  intros H. unfold optimize_locals in H.
  apply mbind_done in H as (? & ? & _ & H).
  apply mbind_done in H as (? & ? & _ & H).
  apply mbind_done in H as (? & ? & _ & H).
  apply mbind_done in H as (? & ? & _ & H).
  destruct (Z_le_gt_dec gens 1) as [Hle|Hgt].
  - left. rewrite (py_range_empty 1 gens Hle) in H. cbn [for_each] in H.
    injection H as <- _. repeat split. exact Hle.
  - right. split; [lia|].
    destruct (generations_history _ _ _ _ _ _ _ H) as (rows & Hrows & Hfst & Hlast).
    destruct (py_range_last 1 gens) as (front & Ef); [lia|].
    destruct (Hlast front _ Ef) as (V & rows' & ->).
    split; [exact V|]. exists rows'. cbn [hypervolume_history] in Hrows.
    split; [rewrite Hrows; reflexivity|].
    rewrite Ef, !map_app in Hfst. cbn [map fst] in Hfst.
    apply app_inj_tail in Hfst as [Hfst _].
    rewrite (py_range_cons 0 (gens - 1)) by lia. cbn [map fst]. f_equal.
    rewrite Hfst. f_equal.
    assert (Hr : py_range 1 gens = py_range (0 + 1) (gens - 1) ++ [(gens - 1)%Z]).
    { unfold py_range.
      replace (Z.to_nat (gens - 1)) with (Z.to_nat (gens - 1 - (0 + 1)) + 1)%nat by lia.
      rewrite seq_app, map_app. cbn [seq map].
      f_equal; try (apply map_ext; intros a; lia). f_equal. lia. }
    rewrite Ef in Hr. apply app_inj_tail in Hr as [Hr _]. exact Hr.
Qed.

End Outcomes.


(** X11. When [optimize] returns, the value is the hypervolume of the
    final population for the reference point [1.1, 1.1]; there were at
    least two generations, and the history holds one row per generation
    0 .. number_of_generations - 1, the last one carrying the value
    returned. *)
Theorem optimize_returns_final_hypervolume
  (D : DEAP) (hypervolume : Hypervolume) (evaluate : list R -> result (list R))
  (population_size number_of_generations : Z)
  (crossover_probability mutation_probability v : R) (w w' : World) :
  optimize D hypervolume evaluate population_size number_of_generations
           crossover_probability mutation_probability w = Done v w' ->
  exists s',
    optimize_locals D hypervolume evaluate population_size number_of_generations
                    crossover_probability mutation_probability w = Done s' w'
    /\ (2 <= number_of_generations)%Z
    /\ v = hypervolume (population s') [1.1; 1.1]
    /\ map fst (hypervolume_history s') = map IZR (py_range 0 number_of_generations)
    /\ last (hypervolume_history s') (0, 0) = (IZR (number_of_generations - 1), v).
Proof.
  intros H. apply optimize_done in H as (s' & H & Hv).
  exists s'. split; [exact H|].
  destruct (optimize_locals_value _ _ _ _ _ _ _ _ _ _ H)
    as [(_ & Hn & _)|(H2 & V & rows & Hh & Hfst)].
  { rewrite Hn in Hv. discriminate. }
  rewrite V in Hv. injection Hv as Hv. split; [exact H2|].
  split; [symmetry; exact Hv|]. rewrite Hh. split.
  - change ((0, 0) :: rows ++ [(IZR (number_of_generations - 1),
                                hypervolume (population s') reference_point)])
      with (((0, 0) :: rows) ++ [(IZR (number_of_generations - 1),
                                  hypervolume (population s') reference_point)]).
    rewrite map_app, Hfst. cbn [map fst].
    destruct (py_range_last 0 number_of_generations) as (front & Ef); [lia|].
    rewrite Ef, map_app. cbn [map]. f_equal.
    assert (Hr : py_range 0 number_of_generations
                 = py_range 0 (number_of_generations - 1)
                   ++ [(number_of_generations - 1)%Z]).
    { unfold py_range.
      replace (Z.to_nat (number_of_generations - 0))
        with (Z.to_nat (number_of_generations - 1 - 0) + 1)%nat by lia.
      rewrite seq_app, map_app. cbn [seq map]. f_equal. f_equal. lia. }
    rewrite Ef in Hr. apply app_inj_tail in Hr as [Hr _]. rewrite Hr. reflexivity.
  - change ((0, 0) :: rows ++ [(IZR (number_of_generations - 1),
                                hypervolume (population s') reference_point)])
      with (((0, 0) :: rows) ++ [(IZR (number_of_generations - 1),
                                  hypervolume (population s') reference_point)]).
    rewrite last_last, Hv. reflexivity.
Qed.

Lemma optimize_returns_final_hypervolume_witness :
  exists v w' s',
    optimize toy_deap toy_hypervolume toy_evaluate 4 3 0.9 0.1 (initial_world zero_rng)
    = Done v w'
    /\ optimize_locals toy_deap toy_hypervolume toy_evaluate 4 3 0.9 0.1
         (initial_world zero_rng) = Done s' w'
    /\ (2 <= 3)%Z
    /\ v = toy_hypervolume (population s') [1.1; 1.1]
    /\ map fst (hypervolume_history s') = map IZR (py_range 0 3)
    /\ last (hypervolume_history s') (0, 0) = (IZR (3 - 1), v).
Proof.
  destruct (toy_run_done 4 3 0.9 0.1 (initial_world zero_rng)) as (v & w' & E); [lia|].
  destruct (optimize_returns_final_hypervolume toy_deap toy_hypervolume toy_evaluate
              4 3 0.9 0.1 v (initial_world zero_rng) w' E) as (s' & H).
  exists v, w', s'. split; [exact E|exact H].
Defined.





(** ** The calls of a completed run, in full *)

Section Trace.
Variable D : DEAP.
Variable hypervolume : Hypervolume.
Variable evaluate : list R -> result (list R).

Lemma assign_fitnesses_trace (l : list Individual) :
  forall (w : World) (l' : list Individual) (w' : World),
    assign_fitnesses evaluate l w = Done l' w' ->
    appended w (map (fun ind => Evaluated (genes ind)) l) w'
    /\ Forall2 (fun ind ind' => exists fit, evaluate (genes ind) = Ok fit
                                            /\ ind' = set_fitness ind fit) l l'.
Proof.
  induction l as [|ind l IH]; intros w l' w' H; cbn [assign_fitnesses] in H.
  - injection H as <- <-. split; [apply appended_refl|constructor].
  - destruct (record_done (Evaluated (genes ind)) w) as (w1 & E1 & A1).
    rewrite (mbind_step _ _ _ _ _ E1) in H.
    apply mbind_done in H as (fit & w2 & E2 & H).
    apply lift_done in E2 as [Efit ->].
    apply mbind_done in H as (rest & w3 & E3 & H).
    injection H as <- <-.
    destruct (IH _ _ _ E3) as (A3 & R3).
    split; [apply (appended_trans _ _ _ _ _ A1 A3)|].
    constructor; [exists fit; split; [exact Efit|reflexivity]|exact R3].
Qed.

Lemma generation_body_trace (k : Z) (cxpb : R) (g : Z) (s s' : Locals) (w w' : World) :
  selection_sizes D ->
  (0 <= k)%Z ->
  length (population s) = Z.to_nat k ->
  generation_body D hypervolume evaluate k cxpb g s w = Done s' w' ->
  exists pool vcalls varied offspring,
    appended w (Tournament g pool :: vcalls
                ++ map (fun ind => Evaluated (genes ind)) varied
                ++ [Selected g (population s ++ offspring) k (population s')]) w'
    /\ length pool = Z.to_nat k
    /\ variation_calls g (mutate_indpb (keywords (mutate (toolbox w))))
                       (mating_pairs (Z.to_nat k)) vcalls
    /\ length varied = Z.to_nat k
    /\ Forall2 (fun ind ind' => exists fit, evaluate (genes ind) = Ok fit
                                            /\ ind' = set_fitness ind fit)
               varied offspring
    /\ length (population s') = Z.to_nat k.
Proof.
  intros [Hsel Hdcd] Hk Hlen H. unfold generation_body in H.
  set (n := Z.to_nat k) in *.
  destruct (tools_selTournamentDCD_done D g (population s)
              (Z.of_nat (length (population s))) w) as (w1 & E1 & A1).
  rewrite (mbind_step _ _ _ _ _ E1) in H. cbv beta zeta in H.
  set (pool := fst (selTournamentDCD D (population s)
                      (Z.of_nat (length (population s))) (rng w))) in *.
  assert (Hpool : length pool = n).
  { unfold pool. rewrite Hdcd by lia. rewrite Nat2Z.id. exact Hlen. }
  destruct (variation_done D g cxpb (map clone pool) w1)
    as (off2 & w2 & vcalls & E2 & A2 & V2 & L2 & _).
  rewrite (mbind_step _ _ _ _ _ E2) in H.
  rewrite length_map, Hpool in V2, L2.
  rewrite (appended_toolbox _ _ _ A1) in V2.
  apply mbind_done in H as (off3 & w3 & E3 & H).
  destruct (assign_fitnesses_trace _ _ _ _ E3) as (A3 & R3).
  destruct (toolbox_select_done D g (population s ++ off3) k w3) as (w4 & E4 & A4).
  rewrite (mbind_step _ _ _ _ _ E4) in H.
  apply mbind_done in H as (nd & w5 & E5 & H).
  apply lift_done in E5 as [_ ->].
  injection H as <- <-. cbn [population].
  exists pool, vcalls, off2, off3.
  split.
  { change (Tournament g pool :: vcalls
            ++ map (fun ind => Evaluated (genes ind)) off2
            ++ [Selected g (population s ++ off3) k (selNSGA2 D (population s ++ off3) k)])
      with ([Tournament g pool] ++ vcalls
            ++ map (fun ind => Evaluated (genes ind)) off2
            ++ [Selected g (population s ++ off3) k (selNSGA2 D (population s ++ off3) k)]).
    apply (appended_trans _ _ _ _ _ A1).
    apply (appended_trans _ _ _ _ _ A2).
    apply (appended_trans _ _ _ _ _ A3 A4). }
  split; [exact Hpool|]. split; [exact V2|]. split; [exact L2|]. split; [exact R3|].
  apply Hsel. rewrite length_app, Hlen, <- (Forall2_length R3), L2. fold n. lia.
Qed.

Lemma generations_trace_done (k : Z) (cxpb : R) (gs : list Z) :
  selection_sizes D ->
  (0 <= k)%Z ->
  forall (s s' : Locals) (w w' : World),
    length (population s) = Z.to_nat k ->
    for_each gs (generation_body D hypervolume evaluate k cxpb) s w = Done s' w' ->
    exists calls,
      appended w calls w'
      /\ generations_trace evaluate (mutate_indpb (keywords (mutate (toolbox w))))
                           (Z.to_nat k) k gs (population s) calls (population s').
Proof.
  intros HD Hk. induction gs as [|g gs IH]; intros s s' w w' Hlen H; cbn [for_each] in H.
  - injection H as <- <-. exists []. split; [apply appended_refl|constructor].
  - apply mbind_done in H as (s1 & w1 & E1 & H).
    destruct (generation_body_trace _ _ _ _ _ _ _ HD Hk Hlen E1)
      as (pool & vcalls & varied & offspring & A1 & Hpool & V & Lv & R & Lc).
    destruct (IH _ _ _ _ Lc H) as (calls & A2 & G2).
    rewrite (appended_toolbox _ _ _ A1) in G2.
    eexists. split; [apply (appended_trans _ _ _ _ _ A1 A2)|].
    cbn [app]. rewrite <- !app_assoc. cbn [app].
    econstructor; eassumption.
Qed.

Lemma set_mutate_attribute_world (name : string) (v : R) (w : World) :
  set_mutate_attribute name v w
  = Done tt {| rng := rng w;
               toolbox := {| attribute_float := attribute_float (toolbox w);
                             mate := mate (toolbox w);
                             mutate := setattr (mutate (toolbox w)) name v |};
               log := log w |}.
Proof. reflexivity. Qed.

(** A completed run: its calls, the population it ends with and the
    toolbox it leaves. *)
Lemma optimize_locals_trace (k gens : Z) (cxpb mutpb : R) (s' : Locals) (w w' : World) :
  selection_sizes D ->
  (0 <= k)%Z ->
  optimize_locals D hypervolume evaluate k gens cxpb mutpb w = Done s' w' ->
  exists created first chosen rest,
    log w' = log w
             ++ Created k :: map (fun ind => Evaluated (genes ind)) created
             ++ Selected 0 first (Z.of_nat (length first)) chosen :: rest
    /\ length created = Z.to_nat k
    /\ length first = Z.to_nat k
    /\ length chosen = Z.to_nat k
    /\ toolbox w' = {| attribute_float := attribute_float (toolbox w);
                       mate := mate (toolbox w);
                       mutate := setattr (mutate (toolbox w)) "indpb" mutpb |}
    /\ generations_trace evaluate (mutate_indpb (keywords (mutate (toolbox w))))
                         (Z.to_nat k) k (py_range 1 gens) chosen rest (population s').
Proof.
  intros HD Hk H. unfold optimize_locals in H.
  pose proof (set_mutate_attribute_world "indpb" mutpb w) as E0.
  set (w0 := {| rng := rng w;
                toolbox := {| attribute_float := attribute_float (toolbox w);
                              mate := mate (toolbox w);
                              mutate := setattr (mutate (toolbox w)) "indpb" mutpb |};
                log := log w |}) in E0.
  rewrite (mbind_step _ _ _ _ _ E0) in H.
  destruct (toolbox_population_done k w0) as (pop1 & w1 & E1 & A1 & Len1).
  rewrite (mbind_step _ _ _ _ _ E1) in H.
  apply mbind_done in H as (pop2 & w2 & E2 & H).
  destruct (assign_fitnesses_trace _ _ _ _ E2) as (A2 & R2).
  destruct (toolbox_select_done D 0 pop2 (Z.of_nat (length pop2)) w2) as (w3 & E3 & A3).
  rewrite (mbind_step _ _ _ _ _ E3) in H.
  assert (Len2 : length pop2 = Z.to_nat k)
    by (rewrite <- (Forall2_length R2); exact Len1).
  assert (Len3 : length (selNSGA2 D pop2 (Z.of_nat (length pop2))) = Z.to_nat k).
  { destruct HD as [Hsel _]. rewrite Hsel by lia. rewrite Nat2Z.id. exact Len2. }
  apply (generations_trace_done k cxpb (py_range 1 gens) HD Hk) in H
    as (calls & A4 & G4); [|exact Len3].
  cbn [population] in G4.
  pose proof (appended_trans _ _ _ _ _ A1 (appended_trans _ _ _ _ _ A2 A3)) as A03.
  rewrite (appended_toolbox _ _ _ A03) in G4.
  destruct (appended_trans _ _ _ _ _ A03 A4) as [T L].
  exists pop1, pop2, (selNSGA2 D pop2 (Z.of_nat (length pop2))), calls.
  split; [|split; [exact Len1|split; [exact Len2|split; [exact Len3|split; [exact T|]]]]].
  - rewrite L. unfold w0. cbn [log]. rewrite <- !app_assoc. reflexivity.
  - exact G4.
Qed.

End Trace.

(** ** Counting the evaluations, following the selections *)

Lemma evaluated_app (l1 l2 : list Call) :
  evaluated (l1 ++ l2) = evaluated l1 ++ evaluated l2.
Proof.
  induction l1 as [|c l1 IH]; [reflexivity|].
  destruct c; cbn; rewrite IH; reflexivity.
Qed.

Lemma evaluated_evaluations (l : list Individual) :
  evaluated (map (fun ind => Evaluated (genes ind)) l) = map genes l.
Proof. induction l as [|ind l IH]; [reflexivity|]. cbn. rewrite IH. reflexivity. Qed.

Lemma evaluated_variation (g : Z) (p : R) (ps : list (nat * nat)) (calls : list Call) :
  variation_calls g p ps calls -> evaluated calls = [].
Proof.
  intros V. pose proof (variation_calls_only _ _ _ _ V) as F. clear V.
  induction F as [|c calls Hc _ IH]; [reflexivity|].
  destruct Hc as [(i & j & ->)|(i & ->)]; exact IH.
Qed.

Lemma selections_app (l1 l2 : list Call) :
  selections (l1 ++ l2) = selections l1 ++ selections l2.
Proof. apply filter_app. Qed.

Lemma selections_evaluations (l : list Individual) :
  selections (map (fun ind => Evaluated (genes ind)) l) = [].
Proof. induction l as [|ind l IH]; [reflexivity|exact IH]. Qed.

Lemma selections_variation (g : Z) (p : R) (ps : list (nat * nat)) (calls : list Call) :
  variation_calls g p ps calls -> selections calls = [].
Proof.
  intros V. pose proof (variation_calls_only _ _ _ _ V) as F. clear V.
  induction F as [|c calls Hc _ IH]; [reflexivity|].
  destruct Hc as [(i & j & ->)|(i & ->)]; exact IH.
Qed.

Section TraceReadings.
Variable evaluate : list R -> result (list R).
Variable p : R.
Variable n : nat.
Variable k : Z.

Lemma generations_trace_evaluated (gs : list Z) (parents final : list Individual)
  (calls : list Call) :
  generations_trace evaluate p n k gs parents calls final ->
  length (evaluated calls) = (n * length gs)%nat.
Proof.
  induction 1 as [|g gs parents pool varied offspring chosen final vcalls calls
                   Hpool V Lv R Lc _ IH]; [cbn; lia|].
  cbn [evaluated]. rewrite !evaluated_app, (evaluated_variation _ _ _ _ V).
  rewrite evaluated_evaluations. cbn [app evaluated].
  rewrite length_app, length_map, Lv, IH. cbn [length]. lia.
Qed.

Lemma generations_trace_selections (gs : list Z) (parents final : list Individual)
  (calls : list Call) :
  generations_trace evaluate p n k gs parents calls final ->
  selection_chain n k parents gs (selections calls) final
  /\ length (selections calls) = length gs.
Proof.
  induction 1 as [|g gs parents pool varied offspring chosen final vcalls calls
                   Hpool V Lv R Lc _ [IH IHlen]]; [split; reflexivity|].
  unfold selections in *. cbn [filter is_selection].
  rewrite !filter_app.
  fold (selections vcalls). rewrite (selections_variation _ _ _ _ V).
  fold (selections (map (fun ind => Evaluated (genes ind)) varied)).
  rewrite selections_evaluations. cbn [app filter is_selection].
  split.
  - cbn [selection_chain]. split; [reflexivity|]. split; [reflexivity|].
    split; [exists offspring; split;
            [reflexivity|rewrite <- (Forall2_length R); exact Lv]|].
    split; [exact Lc|exact IH].
  - cbn [length]. rewrite IHlen. reflexivity.
Qed.

End TraceReadings.

(** X14. A completed run calls the evaluation function
    population_size * number_of_generations times: once for each
    individual of the initial population, then once for each of the
    population_size offspring of every generation. *)
Theorem optimize_evaluation_count
  (D : DEAP) (hypervolume : Hypervolume) (evaluate : list R -> result (list R))
  (population_size number_of_generations : Z)
  (crossover_probability mutation_probability v : R) (w w' : World) :
  selection_sizes D ->
  (0 <= population_size)%Z ->
  optimize D hypervolume evaluate population_size number_of_generations
           crossover_probability mutation_probability w = Done v w' ->
  length (evaluated (log w'))
  = (length (evaluated (log w))
     + Z.to_nat population_size * Z.to_nat number_of_generations)%nat.
Proof.
  intros HD Hk H. apply optimize_done in H as (s' & H & Hv).
  assert (Hg : (2 <= number_of_generations)%Z).
  { destruct (optimize_locals_value _ _ _ _ _ _ _ _ _ _ H) as [(_ & Hn & _)|(H2 & _)];
      [rewrite Hn in Hv; discriminate|exact H2]. }
  destruct (optimize_locals_trace _ _ _ _ _ _ _ _ _ _ HD Hk H)
    as (created & first & chosen & rest & L & Lc & _ & _ & _ & G).
  rewrite L, evaluated_app. cbn [evaluated].
  rewrite evaluated_app, evaluated_evaluations. cbn [evaluated].
  rewrite !length_app, length_map, Lc.
  rewrite (generations_trace_evaluated _ _ _ _ _ _ _ _ G), py_range_length.
  nia.
Qed.

Lemma optimize_evaluation_count_witness :
  selection_sizes toy_deap
  /\ (0 <= 4)%Z
  /\ exists v w',
       optimize toy_deap toy_hypervolume toy_evaluate 4 3 0.9 0.1 (initial_world zero_rng)
       = Done v w'
       /\ length (evaluated (log w')) = 12%nat.
Proof.
  split; [exact toy_selection_sizes|]. split; [lia|].
  destruct (toy_run_done 4 3 0.9 0.1 (initial_world zero_rng)) as (v & w' & E); [lia|].
  exists v, w'. split; [exact E|].
  assert (H0 : (0 <= 4)%Z) by lia.
  rewrite (optimize_evaluation_count toy_deap toy_hypervolume toy_evaluate 4 3 0.9 0.1
             v (initial_world zero_rng) w' toy_selection_sizes H0 E).
  reflexivity.
Defined.

(** X15. In a completed run the selections follow one another: the
    first is asked for the whole evaluated initial population; the one
    of each generation 1 .. number_of_generations - 1 is asked for
    population_size individuals among the population chosen by the
    selection before it followed by the population_size offspring of
    the generation; the last one chooses the final population. *)
Theorem optimize_selections_chained
  (D : DEAP) (hypervolume : Hypervolume) (evaluate : list R -> result (list R))
  (population_size number_of_generations : Z)
  (crossover_probability mutation_probability : R) (s' : Locals) (w w' : World) :
  selection_sizes D ->
  (0 <= population_size)%Z ->
  optimize_locals D hypervolume evaluate population_size number_of_generations
                  crossover_probability mutation_probability w = Done s' w' ->
  exists first chosen sels,
    selections (log w')
    = selections (log w)
      ++ Selected 0 first (Z.of_nat (length first)) chosen :: sels
    /\ length first = Z.to_nat population_size
    /\ length chosen = Z.to_nat population_size
    /\ selection_chain (Z.to_nat population_size) population_size chosen
                       (py_range 1 number_of_generations) sels (population s')
    /\ length (population s') = Z.to_nat population_size.
Proof.
  intros HD Hk H.
  destruct (optimize_locals_trace _ _ _ _ _ _ _ _ _ _ HD Hk H)
    as (created & first & chosen & rest & L & _ & Lf & Lc & _ & G).
  destruct (generations_trace_selections _ _ _ _ _ _ _ _ G) as (Hchain & _).
  exists first, chosen, (selections rest).
  split; [|split; [exact Lf|split; [exact Lc|split; [exact Hchain|]]]].
  - rewrite L, selections_app. f_equal. unfold selections at 1.
    cbn [filter is_selection]. rewrite filter_app.
    fold (selections (map (fun ind => Evaluated (genes ind)) created)).
    rewrite selections_evaluations. reflexivity.
  - clear - G Lc. induction G; [exact Lc|]. apply IHG. assumption.
Qed.

Lemma optimize_selections_chained_witness :
  selection_sizes toy_deap
  /\ (0 <= 4)%Z
  /\ exists s' w' first chosen sels,
       optimize_locals toy_deap toy_hypervolume toy_evaluate 4 3 0.9 0.1
         (initial_world zero_rng) = Done s' w'
       /\ selections (log w')
          = selections (log (initial_world zero_rng))
            ++ Selected 0 first (Z.of_nat (length first)) chosen :: sels
       /\ length first = Z.to_nat 4
       /\ length chosen = Z.to_nat 4
       /\ selection_chain (Z.to_nat 4) 4 chosen (py_range 1 3) sels (population s')
       /\ length (population s') = Z.to_nat 4.
Proof.
  split; [exact toy_selection_sizes|]. split; [lia|].
  destruct (optimize_locals_total toy_deap toy_hypervolume toy_evaluate
              toy_evaluate_total toy_fronts_nonempty 4 3 0.9 0.1 (initial_world zero_rng))
    as (s' & w' & E).
  assert (H0 : (0 <= 4)%Z) by lia.
  destruct (optimize_selections_chained toy_deap toy_hypervolume toy_evaluate 4 3 0.9 0.1
              s' (initial_world zero_rng) w' toy_selection_sizes H0 E)
    as (first & chosen & sels & H).
  exists s', w', first, chosen, sels. split; [exact E|exact H].
Defined.

(** ** The toolbox after a run *)

Lemma keeps_ret {A : Type} (a : A) : keeps_toolbox (ret a).
Proof. intros w. reflexivity. Qed.

Lemma keeps_throw {A : Type} (e : exn) : keeps_toolbox (@throw A e).
Proof. intros w. reflexivity. Qed.

Lemma keeps_lift {A : Type} (r : result A) : keeps_toolbox (lift r).
Proof. destruct r; [apply keeps_ret|apply keeps_throw]. Qed.

Lemma keeps_bind {A B : Type} (c : M A) (k : A -> M B) :
  keeps_toolbox c -> (forall a, keeps_toolbox (k a)) -> keeps_toolbox (mbind c k).
Proof.
  intros Hc Hk w. unfold mbind. specialize (Hc w).
  destruct (c w) as [a w1|e w1]; cbn [world_of] in *; [|exact Hc].
  rewrite Hk. exact Hc.
Qed.

Lemma keeps_record (c : Call) : keeps_toolbox (record c).
Proof. intros w. reflexivity. Qed.

Lemma keeps_with_rng {A : Type} (f : Rng -> A * Rng) : keeps_toolbox (with_rng f).
Proof. intros w. unfold with_rng. destruct (f (rng w)). reflexivity. Qed.

Lemma keeps_get_toolbox : keeps_toolbox get_toolbox.
Proof. intros w. reflexivity. Qed.

Lemma keeps_for_each {A S : Type} (xs : list A) (body : A -> S -> M S) :
  (forall x s, keeps_toolbox (body x s)) -> forall s, keeps_toolbox (for_each xs body s).
Proof.
  intros Hb. induction xs as [|x xs IH]; intros s; cbn [for_each].
  - apply keeps_ret.
  - apply keeps_bind; [apply Hb|exact IH].
Qed.

Lemma keeps_repeat_call {A : Type} (n : nat) (f : M A) :
  keeps_toolbox f -> keeps_toolbox (repeat_call n f).
Proof.
  intros Hf. induction n as [|n IH]; cbn [repeat_call].
  - apply keeps_ret.
  - apply keeps_bind; [exact Hf|]. intros a.
    apply keeps_bind; [exact IH|]. intros rest. apply keeps_ret.
Qed.

Ltac keeps_step :=
  first
    [ apply keeps_ret | apply keeps_throw | apply keeps_lift
    | apply keeps_with_rng | apply keeps_get_toolbox | apply keeps_record
    | apply keeps_repeat_call | apply keeps_for_each; intros ? ?
    | apply keeps_bind; [|intros ?] ].

Section KeepsProgram.
Variable D : DEAP.
Variable hypervolume : Hypervolume.
Variable evaluate : list R -> result (list R).

Lemma keeps_assign_fitnesses (l : list Individual) :
  keeps_toolbox (assign_fitnesses evaluate l).
Proof.
  induction l as [|ind l IH]; cbn [assign_fitnesses]; repeat keeps_step. exact IH.
Qed.

Lemma keeps_variation (g : Z) (cxpb : R) (offspring : list Individual) :
  keeps_toolbox (variation D g cxpb offspring).
Proof.
  unfold variation. keeps_step.
  match goal with x : (nat * nat)%type |- _ => destruct x end.
  unfold vary_pair, toolbox_mutate. repeat keeps_step.
  - unfold crossover, random_random. repeat keeps_step.
    destruct (Rle_dec _ _); unfold toolbox_mate; repeat keeps_step.
  - match goal with a : (Individual * Individual)%type |- _ => destruct a end.
    repeat keeps_step.
Qed.

Lemma keeps_generations (k : Z) (cxpb : R) (gs : list Z) (s : Locals) :
  keeps_toolbox (for_each gs (generation_body D hypervolume evaluate k cxpb) s).
Proof.
  apply keeps_for_each. intros g s0.
  unfold generation_body, tools_selTournamentDCD, toolbox_select.
  repeat first [ apply keeps_variation | apply keeps_assign_fitnesses | keeps_step ].
Qed.

(** Whatever the run does, the toolbox it leaves is the one it found,
    with the attribute assigned on [toolbox.mutate]. *)
Lemma optimize_toolbox (k gens : Z) (cxpb mutpb : R) (w : World) :
  toolbox (world_of (optimize D hypervolume evaluate k gens cxpb mutpb w))
  = {| attribute_float := attribute_float (toolbox w);
       mate := mate (toolbox w);
       mutate := setattr (mutate (toolbox w)) "indpb" mutpb |}.
Proof.
  unfold optimize, optimize_locals.
  rewrite mbind_assoc, (mbind_step _ _ _ _ _ (set_mutate_attribute_world "indpb" mutpb w)).
  match goal with |- toolbox (world_of (?m ?w0)) = _ =>
    assert (Hk : keeps_toolbox m) end.
  { unfold toolbox_population, toolbox_individual, initialization_uniform,
      random_uniform, random_random, toolbox_select.
    repeat first [ apply keeps_assign_fitnesses | apply keeps_generations | keeps_step ].
    destruct (hypervolume_value _); keeps_step. }
  rewrite Hk. reflexivity.
Qed.

End KeepsProgram.

Lemma getattr_setattr {K : Type} (p : Partial K) (name : string) (v : R) :
  getattr (setattr p name v) name = Some v.
Proof.
  unfold getattr, setattr. cbn [attributes find fst snd].
  rewrite String.eqb_refl. reflexivity.
Qed.

(** X16. After any run of [optimize], completed or failed, the argument
    [mutation_probability] is found as the attribute [indpb] of
    [toolbox.mutate], while the keywords of [toolbox.mutate], the mate
    operator and the registered bounds are as they were. *)
Theorem optimize_leaves_attribute
  (D : DEAP) (hypervolume : Hypervolume) (evaluate : list R -> result (list R))
  (population_size number_of_generations : Z)
  (crossover_probability mutation_probability : R) (w : World) :
  getattr (mutate (toolbox (world_of
            (optimize D hypervolume evaluate population_size number_of_generations
                      crossover_probability mutation_probability w))))
          "indpb" = Some mutation_probability
  /\ keywords (mutate (toolbox (world_of
       (optimize D hypervolume evaluate population_size number_of_generations
                 crossover_probability mutation_probability w))))
     = keywords (mutate (toolbox w))
  /\ mate (toolbox (world_of
       (optimize D hypervolume evaluate population_size number_of_generations
                 crossover_probability mutation_probability w)))
     = mate (toolbox w)
  /\ attribute_float (toolbox (world_of
       (optimize D hypervolume evaluate population_size number_of_generations
                 crossover_probability mutation_probability w)))
     = attribute_float (toolbox w).
Proof.
  rewrite optimize_toolbox. cbn [mutate mate attribute_float].
  split; [apply getattr_setattr|]. repeat split.
Qed.

(** ** Pairs, crossover, initial population *)

Lemma pairs_from_consecutive (n a : nat) :
  pairs_from a n
  = map (fun k => (a + 2 * k, a + 2 * k + 1)%nat) (seq 0 (Nat.div2 n)).
Proof.
  revert a. induction n as [| |n IH] using nat_pair_ind; intros a.
  - reflexivity.
  - reflexivity.
  - rewrite pairs_from_step, IH. cbn [Nat.div2 seq map]. f_equal.
    + f_equal; lia.
    + rewrite <- seq_shift, map_map. apply map_ext. intros k. f_equal; lia.
Qed.

(** X17. The pairs of [zip(offspring[::2], offspring[1::2])] are the
    consecutive ones, (0, 1), (2, 3), ...: the integer half of the
    number of offspring, in order. *)
Theorem mating_pairs_consecutive (n : nat) :
  mating_pairs n = map (fun k => (2 * k, 2 * k + 1)%nat) (seq 0 (Nat.div2 n))
  /\ length (mating_pairs n) = Nat.div2 n.
Proof.
  assert (H : mating_pairs n
              = map (fun k => (2 * k, 2 * k + 1)%nat) (seq 0 (Nat.div2 n))).
  { rewrite mating_pairs_from, pairs_from_consecutive. apply map_ext.
    intros k. reflexivity. }
  split; [exact H|]. rewrite H, length_map, length_seq. reflexivity.
Qed.

(** X18. With a crossover probability of 1 or more the crossover is
    called for every draw of [random.random()], which is below 1. *)
Theorem crossover_certain (D : DEAP) (g : Z) (cxpb : R) (i j : nat)
  (a b : Individual) (w : World) :
  1 <= cxpb ->
  draws (rng w) (pos (rng w)) < 1 ->
  exists children w',
    crossover D g cxpb i j a b w = Done children w'
    /\ log w' = log w ++ [Mated g i j].
Proof.
  intros Hp Hu. unfold crossover.
  destruct (random_random_done w) as (w1 & E1 & A1).
  rewrite (mbind_step _ _ _ _ _ E1).
  destruct (Rle_dec (draws (rng w) (pos (rng w))) cxpb) as [_|Hn]; [|lra].
  destruct (toolbox_mate_done D g i j a b w1) as (ab & w2 & E2 & A2).
  exists ab, w2. split; [exact E2|].
  destruct (appended_trans _ _ _ _ _ A1 A2) as [_ L]. exact L.
Qed.

Lemma crossover_certain_witness :
  1 <= 1
  /\ draws (rng (initial_world zero_rng)) (pos (rng (initial_world zero_rng))) < 1
  /\ exists children w',
       crossover toy_deap 1 1 0 1 (new_individual [0; 0; 0; 0])
                 (new_individual [1; 1; 1; 1]) (initial_world zero_rng)
       = Done children w'
       /\ log w' = log (initial_world zero_rng) ++ [Mated 1 0 1].
Proof.
  split; [lra|]. split; [cbn; lra|].
  apply (crossover_certain toy_deap 1 1 0 1 (new_individual [0; 0; 0; 0])
           (new_individual [1; 1; 1; 1]) (initial_world zero_rng)); [lra|cbn; lra].
Defined.

Lemma fitness_data_rows (l : list Individual) : fitness_data l = map fitness_values l.
Proof.
  unfold fitness_data.
  assert (H : forall acc,
             fold_left (fun data ind => data ++ [fitness_values ind]) l acc
             = acc ++ map fitness_values l).
  { induction l as [|ind l IH]; intros acc; cbn [fold_left map].
    - rewrite app_nil_r. reflexivity.
    - rewrite IH, <- app_assoc. reflexivity. }
  apply (H []).
Qed.

(** X19. After the fitnesses have been assigned, [fitness_data] holds
    one row per individual, in the order of the population: the value
    that the evaluation function returned for its genes. *)
Theorem fitness_data_of_evaluated (evaluate : list R -> result (list R))
  (l l' : list Individual) (w w' : World) :
  assign_fitnesses evaluate l w = Done l' w' ->
  length (fitness_data l') = length l
  /\ Forall2 (fun ind row => evaluate (genes ind) = Ok row) l (fitness_data l')
  /\ map genes l' = map genes l.
Proof.
  intros H. destruct (assign_fitnesses_trace _ _ _ _ _ H) as (_ & F).
  rewrite fitness_data_rows. split; [rewrite length_map; symmetry;
                                     apply (Forall2_length F)|].
  clear H. induction F as [|ind ind' l l' (fit & Hfit & ->) _ [IH1 IH2]].
  - split; [constructor|reflexivity].
  - cbn [map set_fitness fitness_values genes]. split.
    + constructor; [exact Hfit|exact IH1].
    + rewrite IH2. reflexivity.
Qed.

Lemma fitness_data_of_evaluated_witness :
  exists l' w',
    assign_fitnesses toy_evaluate [new_individual [0; 0; 0; 0]] (initial_world zero_rng)
    = Done l' w'
    /\ length (fitness_data l') = length [new_individual [0; 0; 0; 0]]
    /\ Forall2 (fun ind row => toy_evaluate (genes ind) = Ok row)
               [new_individual [0; 0; 0; 0]] (fitness_data l')
    /\ map genes l' = map genes [new_individual [0; 0; 0; 0]].
Proof.
  eexists. eexists. split; [reflexivity|].
  apply (fitness_data_of_evaluated toy_evaluate [new_individual [0; 0; 0; 0]] _
           (initial_world zero_rng) _ eq_refl).
Defined.

(** ** The initial population and its evaluation *)

Lemma welded_beam_on_domain (x : list R) :
  in_domain x ->
  exists y1 y2, welded_beam_design x = Ok [y1; y2] /\ 0 < y1 < 1 /\ 0 < y2 < 1.
Proof.
  intros Hx. destruct (in_domain_inv x Hx) as (x0 & x1 & x2 & x3 & -> & A0 & A1 & A2 & A3).
  destruct (terms_on_domain x0 x1 x2 x3 A0 A1 A2 A3) as (r & Hr & F1 & F2).
  pose proof (penalty_of_nonneg r) as Hp.
  eexists. eexists. split; [rewrite welded_beam_design_terms, Hr; reflexivity|].
  split; apply tanh_range.
  - assert (0 < raw_f1 r / 40.0) by (apply Rdiv_lt_0_compat; lra). lra.
  - assert (0 < raw_f2 r / 0.006) by (apply Rdiv_lt_0_compat; lra). lra.
Qed.

Lemma toolbox_individual_world (w : World) :
  toolbox_individual w
  = Done (new_individual
            (uniform_values (bound_lower (attribute_float (toolbox w)))
                            (bound_upper (attribute_float (toolbox w)))
                            (size (attribute_float (toolbox w))) (rng w)))
         {| rng := advance (size (attribute_float (toolbox w))) (rng w);
            toolbox := toolbox w; log := log w |}.
Proof.
  unfold toolbox_individual, initialization_uniform.
  rewrite (mbind_step get_toolbox _ w w (toolbox w) eq_refl). cbv beta zeta.
  unfold mbind. rewrite repeat_uniform. reflexivity.
Qed.

Lemma uniform_values_in_domain (g : Rng) :
  unit_draws g -> in_domain (uniform_values 0.0 1.0 4 g).
Proof.
  intros Hu. split; [reflexivity|]. unfold uniform_values.
  apply Forall_forall. intros v Hv. apply in_map_iff in Hv as (k & <- & _).
  pose proof (Hu (pos g + k)%nat). unfold unit_interval. lra.
Qed.

Lemma individuals_in_domain (n : nat) :
  forall w,
    unit_draws (rng w) ->
    attribute_float (toolbox w) = attribute_float registered_toolbox ->
    exists pop w',
      repeat_call n toolbox_individual w = Done pop w'
      /\ appended w [] w'
      /\ length pop = n
      /\ Forall (fun ind => in_domain (genes ind)) pop.
Proof.
  induction n as [|n IH]; intros w Hu Ha; cbn [repeat_call].
  - exists [], w. split; [reflexivity|]. split; [apply appended_refl|].
    split; [reflexivity|constructor].
  - rewrite (mbind_step _ _ _ _ _ (toolbox_individual_world w)).
    rewrite Ha. cbn [registered_toolbox register_toolbox attribute_float bound_lower
                     bound_upper size].
    unfold attribute_bound_lower, attribute_bound_upper, number_of_attributes.
    set (w1 := {| rng := advance 4 (rng w); toolbox := toolbox w; log := log w |}).
    destruct (IH w1) as (pop & w2 & E2 & A2 & L2 & F2).
    { intros k. apply Hu. }
    { exact Ha. }
    rewrite (mbind_step _ _ _ _ _ E2).
    eexists. exists w2. split; [reflexivity|]. split.
    + destruct A2 as [T L]. split; [exact T|exact L].
    + split; [cbn; rewrite L2; reflexivity|].
      constructor; [apply uniform_values_in_domain; exact Hu|exact F2].
Qed.

Lemma assign_fitnesses_on_domain (l : list Individual) :
  Forall (fun ind => in_domain (genes ind)) l ->
  forall w, exists l' w',
    assign_fitnesses welded_beam_design l w = Done l' w'
    /\ Forall2 (fun ind ind' =>
                  genes ind' = genes ind
                  /\ exists y1 y2, fitness_values ind' = [y1; y2]
                                   /\ 0 < y1 < 1 /\ 0 < y2 < 1) l l'.
Proof.
  induction 1 as [|ind l Hd _ IH]; intros w; cbn [assign_fitnesses].
  - exists [], w. split; [reflexivity|constructor].
  - destruct (record_done (Evaluated (genes ind)) w) as (w1 & E1 & _).
    rewrite (mbind_step _ _ _ _ _ E1).
    destruct (welded_beam_on_domain _ Hd) as (y1 & y2 & Ey & H1 & H2).
    rewrite Ey. cbn [lift].
    rewrite (mbind_step (ret _) _ w1 w1 _ eq_refl).
    destruct (IH w1) as (rest & w2 & E2 & F2).
    rewrite (mbind_step _ _ _ _ _ E2).
    eexists. exists w2. split; [reflexivity|].
    constructor; [|exact F2]. split; [reflexivity|].
    exists y1, y2. split; [reflexivity|]. split; assumption.
Qed.



(** ** Runs with the Python evaluation function *)

Lemma Forall_set_nth {A : Type} (P : A -> Prop) (i : nat) (v : A) (l : list A) :
  Forall P l -> P v -> Forall P (set_nth i v l).
Proof.
  intros F Hv. revert i. induction F as [|x l Hx F IH]; intros [|i]; cbn [set_nth];
    constructor; auto.
Qed.

Lemma getitem_in {A : Type} (l : list A) (i : nat) (v : A) :
  getitem l i = Ok v -> In v l.
Proof.
  unfold getitem. destruct (nth_error l i) as [a|] eqn:E; [|discriminate].
  intros H. injection H as <-. apply (nth_error_In _ _ E).
Qed.

Lemma in_bounds_within (ind : Individual) :
  in_bounds ind <-> length (genes ind) = 4%nat /\ within 0.0 1.0 ind.
Proof.
  unfold in_bounds, in_domain, within.
  split; intros [L F]; (split; [exact L|]); (eapply Forall_impl; [|exact F]);
    intros v Hv; unfold unit_interval in *; cbv beta in *; lra.
Qed.

Lemma toy_operators_keep_bounds : operators_keep_bounds toy_deap.
Proof.
  split.
  - intros a b eta low up g Ha Hb L. cbn [toy_deap cxSimulatedBinaryBounded fst snd].
    unfold swap_genes, within. cbn [fst snd genes].
    split; [exact Hb|]. split; [exact Ha|]. split; [symmetry; exact L|exact L].
  - intros a eta low up indpb g Ha. cbn [toy_deap mutPolynomialBounded fst].
    split; [exact Ha|reflexivity].
Qed.

Lemma head_selection_in (l : list Individual) (k : Z) (ind : Individual) :
  In ind (head_selection l k) -> In ind l.
Proof.
  unfold head_selection. intros Hin.
  rewrite <- (firstn_skipn (Z.to_nat k) l). apply in_or_app. left. exact Hin.
Qed.

Lemma toy_selections_choose : selections_choose toy_deap.
Proof.
  split.
  - intros l k ind Hin. cbn [toy_deap selNSGA2] in Hin.
    exists ind. split; [apply (head_selection_in _ _ _ Hin)|reflexivity].
  - intros l k g ind Hin. cbn [toy_deap selTournamentDCD fst] in Hin.
    exists ind. split; [apply (head_selection_in _ _ _ Hin)|reflexivity].
Qed.

Lemma toy_fronts_of_all : fronts_of_all toy_deap.
Proof. intros l _. discriminate. Qed.

Section Bounds.
Variable D : DEAP.
Variable hypervolume : Hypervolume.
Hypothesis keep : operators_keep_bounds D.
Hypothesis choose : selections_choose D.
Hypothesis sizes : selection_sizes D.
Hypothesis fronts : fronts_of_all D.

Lemma selNSGA2_bounds (l : list Individual) (k : Z) :
  Forall in_bounds l -> Forall in_bounds (selNSGA2 D l k).
Proof.
  intros F. apply Forall_forall. intros ind Hin.
  destruct choose as [Hc _]. destruct (Hc _ _ _ Hin) as (ind0 & Hin0 & Hg).
  unfold in_bounds. rewrite Hg. apply (proj1 (Forall_forall _ _) F _ Hin0).
Qed.

Lemma selTournamentDCD_bounds (l : list Individual) (k : Z) (g : Rng) :
  Forall in_bounds l -> Forall in_bounds (fst (selTournamentDCD D l k g)).
Proof.
  intros F. apply Forall_forall. intros ind Hin.
  destruct choose as [_ Hc]. destruct (Hc _ _ _ _ Hin) as (ind0 & Hin0 & Hg).
  unfold in_bounds. rewrite Hg. apply (proj1 (Forall_forall _ _) F _ Hin0).
Qed.

Lemma toolbox_mutate_value (g : Z) (i : nat) (a a' : Individual) (w w' : World) :
  toolbox_mutate D g i a w = Done a' w' ->
  toolbox w' = toolbox w
  /\ exists r,
       a' = fst (mutPolynomialBounded D a
                   (mutate_eta (keywords (mutate (toolbox w))))
                   (mutate_low (keywords (mutate (toolbox w))))
                   (mutate_up (keywords (mutate (toolbox w))))
                   (mutate_indpb (keywords (mutate (toolbox w)))) r).
Proof.
  unfold toolbox_mutate. intros H.
  rewrite (mbind_step get_toolbox _ w w (toolbox w) eq_refl) in H. cbv beta zeta in H.
  destruct (record_done (Mutated g i (mutate_indpb (keywords (mutate (toolbox w))))) w)
    as (w1 & E1 & A1).
  rewrite (mbind_step _ _ _ _ _ E1) in H.
  match type of H with with_rng ?f w1 = _ =>
    destruct (with_rng_done f w1) as (w2 & E2 & A2); rewrite E2 in H end.
  injection H as <- <-.
  split; [rewrite (appended_toolbox _ _ _ A2); apply (appended_toolbox _ _ _ A1)|].
  exists (rng w1). reflexivity.
Qed.

Lemma toolbox_mate_value (g : Z) (i j : nat) (a b : Individual)
  (ab : Individual * Individual) (w w' : World) :
  toolbox_mate D g i j a b w = Done ab w' ->
  toolbox w' = toolbox w
  /\ exists r,
       ab = fst (cxSimulatedBinaryBounded D a b
                   (mate_eta (keywords (mate (toolbox w))))
                   (mate_low (keywords (mate (toolbox w))))
                   (mate_up (keywords (mate (toolbox w)))) r).
Proof.
  unfold toolbox_mate. intros H.
  rewrite (mbind_step get_toolbox _ w w (toolbox w) eq_refl) in H. cbv beta zeta in H.
  destruct (record_done (Mated g i j) w) as (w1 & E1 & A1).
  rewrite (mbind_step _ _ _ _ _ E1) in H.
  match type of H with with_rng ?f w1 = _ =>
    destruct (with_rng_done f w1) as (w2 & E2 & A2); rewrite E2 in H end.
  injection H as <- <-.
  split; [rewrite (appended_toolbox _ _ _ A2); apply (appended_toolbox _ _ _ A1)|].
  exists (rng w1). reflexivity.
Qed.

Lemma toolbox_mutate_bounds (g : Z) (i : nat) (a a' : Individual) (w w' : World)
  (attrs : list (string * R)) :
  toolbox w = toolbox_with_attributes attrs ->
  in_bounds a ->
  toolbox_mutate D g i a w = Done a' w' ->
  in_bounds a' /\ toolbox w' = toolbox w.
Proof.
  intros T Ha H. apply toolbox_mutate_value in H as (T' & r & ->).
  split; [|exact T'].
  apply in_bounds_within in Ha as [L W]. apply in_bounds_within.
  rewrite T. destruct keep as [_ Hm].
  destruct (Hm a (mutate_eta (keywords (mutate (toolbox_with_attributes attrs))))
              0.0 1.0
              (mutate_indpb (keywords (mutate (toolbox_with_attributes attrs)))) r W)
    as [W' L'].
  split; [rewrite <- L; exact L'|exact W'].
Qed.

Lemma crossover_bounds (g : Z) (cxpb : R) (i j : nat) (a b a' b' : Individual)
  (w w' : World) (attrs : list (string * R)) :
  toolbox w = toolbox_with_attributes attrs ->
  in_bounds a -> in_bounds b ->
  crossover D g cxpb i j a b w = Done (a', b') w' ->
  in_bounds a' /\ in_bounds b' /\ toolbox w' = toolbox w.
Proof.
  intros T Ha Hb H. unfold crossover in H.
  destruct (random_random_done w) as (w1 & E1 & A1).
  rewrite (mbind_step _ _ _ _ _ E1) in H.
  destruct (Rle_dec (draws (rng w) (pos (rng w))) cxpb) as [Hle|Hgt].
  - apply toolbox_mate_value in H as (T' & r & E).
    rewrite (appended_toolbox _ _ _ A1) in T', E. rewrite T in E.
    split; [|split; [|exact T']].
    + apply in_bounds_within in Ha as [La Wa]. apply in_bounds_within in Hb as [Lb Wb].
      apply in_bounds_within. destruct keep as [Hx _].
      assert (Lab : length (genes a) = length (genes b)) by congruence.
      destruct (Hx a b (mate_eta (keywords (mate (toolbox_with_attributes attrs))))
                  0.0 1.0 r Wa Wb Lab) as (W1 & _ & L1 & _).
      change a' with (fst (a', b')). rewrite E.
      split; [rewrite <- La; exact L1|exact W1].
    + apply in_bounds_within in Ha as [La Wa]. apply in_bounds_within in Hb as [Lb Wb].
      apply in_bounds_within. destruct keep as [Hx _].
      assert (Lab : length (genes a) = length (genes b)) by congruence.
      destruct (Hx a b (mate_eta (keywords (mate (toolbox_with_attributes attrs))))
                  0.0 1.0 r Wa Wb Lab) as (_ & W2 & _ & L2).
      change b' with (snd (a', b')). rewrite E.
      split; [rewrite <- Lb; exact L2|exact W2].
  - injection H as <- <- <-.
    split; [exact Ha|]. split; [exact Hb|]. apply (appended_toolbox _ _ _ A1).
Qed.

Lemma vary_pair_bounds (g : Z) (cxpb : R) (i j : nat) (st st' : list Individual)
  (w w' : World) (attrs : list (string * R)) :
  toolbox w = toolbox_with_attributes attrs ->
  Forall in_bounds st ->
  vary_pair D g cxpb (i, j) st w = Done st' w' ->
  Forall in_bounds st' /\ toolbox w' = toolbox w.
Proof.
  intros T F H. unfold vary_pair in H.
  apply mbind_done in H as (a & w1 & E1 & H). apply lift_done in E1 as [Ea ->].
  apply mbind_done in H as (b & w1 & E1 & H). apply lift_done in E1 as [Eb ->].
  apply mbind_done in H as ([a1 b1] & w1 & E1 & H).
  apply mbind_done in H as (a2 & w2 & E2 & H).
  apply mbind_done in H as (b2 & w3 & E3 & H).
  injection H as <- <-.
  pose proof (proj1 (Forall_forall _ _) F _ (getitem_in _ _ _ Ea)) as Ha.
  pose proof (proj1 (Forall_forall _ _) F _ (getitem_in _ _ _ Eb)) as Hb.
  destruct (crossover_bounds _ _ _ _ _ _ _ _ _ _ _ T Ha Hb E1) as (Ha1 & Hb1 & T1).
  assert (T1' : toolbox w1 = toolbox_with_attributes attrs) by congruence.
  destruct (toolbox_mutate_bounds _ _ _ _ _ _ _ T1' Ha1 E2) as (Ha2 & T2).
  assert (T2' : toolbox w2 = toolbox_with_attributes attrs) by congruence.
  destruct (toolbox_mutate_bounds _ _ _ _ _ _ _ T2' Hb1 E3) as (Hb2 & T3).
  split; [|congruence].
  apply Forall_set_nth; [apply Forall_set_nth|]; assumption.
Qed.

Lemma variation_pairs_bounds (g : Z) (cxpb : R) (attrs : list (string * R))
  (ps : list (nat * nat)) :
  forall (st st' : list Individual) (w w' : World),
    toolbox w = toolbox_with_attributes attrs ->
    Forall in_bounds st ->
    for_each ps (vary_pair D g cxpb) st w = Done st' w' ->
    Forall in_bounds st'.
Proof.
  induction ps as [|[i j] ps IH]; intros st st' w w' T F H; cbn [for_each] in H.
  - injection H as <- <-. exact F.
  - apply mbind_done in H as (st1 & w1 & E1 & H).
    destruct (vary_pair_bounds _ _ _ _ _ _ _ _ _ T F E1) as (F1 & T1).
    assert (T1' : toolbox w1 = toolbox_with_attributes attrs) by congruence.
    apply (IH _ _ _ _ T1' F1 H).
Qed.

Lemma generation_body_bounds (k : Z) (cxpb : R) (g : Z) (s : Locals) (w : World)
  (attrs : list (string * R)) :
  (1 <= k)%Z ->
  toolbox w = toolbox_with_attributes attrs ->
  length (population s) = Z.to_nat k ->
  Forall in_bounds (population s) ->
  exists s' w' calls,
    generation_body D hypervolume evaluation_function k cxpb g s w = Done s' w'
    /\ appended w calls w'
    /\ Forall in_domain (evaluated calls)
    /\ length (population s') = Z.to_nat k
    /\ Forall in_bounds (population s').
Proof.
  intros Hk T Hlen F. unfold generation_body.
  destruct sizes as [Hsel Hdcd].
  destruct (tools_selTournamentDCD_done D g (population s)
              (Z.of_nat (length (population s))) w) as (w1 & E1 & A1).
  rewrite (mbind_step _ _ _ _ _ E1). cbv beta zeta.
  set (pool := fst (selTournamentDCD D (population s)
                      (Z.of_nat (length (population s))) (rng w))) in *.
  assert (Hpool : length pool = Z.to_nat k).
  { unfold pool. rewrite Hdcd by lia. rewrite Nat2Z.id. exact Hlen. }
  assert (Fpool : Forall in_bounds (map clone pool)).
  { unfold clone. rewrite map_id. apply selTournamentDCD_bounds. exact F. }
  destruct (variation_done D g cxpb (map clone pool) w1)
    as (off2 & w2 & vcalls & E2 & A2 & V2 & L2 & _).
  rewrite (mbind_step _ _ _ _ _ E2).
  rewrite length_map, Hpool in L2.
  assert (F2 : Forall in_bounds off2).
  { unfold variation in E2.
    assert (T1 : toolbox w1 = toolbox_with_attributes attrs)
      by (rewrite (appended_toolbox _ _ _ A1); exact T).
    apply (variation_pairs_bounds g cxpb attrs _ _ _ _ _ T1 Fpool E2). }
  destruct (assign_fitnesses_on_domain off2 F2 w2) as (off3 & w3 & E3 & R3).
  unfold evaluation_function. rewrite (mbind_step _ _ _ _ _ E3).
  destruct (assign_fitnesses_trace _ _ _ _ _ E3) as (A3 & _).
  destruct (toolbox_select_done D g (population s ++ off3) k w3) as (w4 & E4 & A4).
  rewrite (mbind_step _ _ _ _ _ E4).
  set (chosen := selNSGA2 D (population s ++ off3) k) in *.
  assert (Lc : length chosen = Z.to_nat k).
  { unfold chosen. apply Hsel.
    rewrite length_app, Hlen, <- (Forall2_length R3), L2. lia. }
  assert (F3 : Forall in_bounds off3).
  { clear - R3 F2. induction R3 as [|a b l l' (Hg & _) _ IH]; [constructor|].
    inversion F2; subst. constructor; [unfold in_bounds; rewrite Hg; assumption|].
    apply IH. assumption. }
  assert (Hne : chosen <> []).
  { intros E. rewrite E in Lc. cbn in Lc. lia. }
  pose proof (fronts chosen Hne) as Hfr.
  destruct (sortNondominated D chosen (Z.of_nat (length chosen))) as [|front rest];
    [contradiction|].
  cbn [getitem nth_error lift].
  rewrite (mbind_step (ret front) _ w4 w4 front eq_refl).
  eexists. exists w4.
  exists ([Tournament g pool] ++ vcalls
          ++ map (fun ind => Evaluated (genes ind)) off2
          ++ [Selected g (population s ++ off3) k chosen]).
  split; [reflexivity|]. cbn [population].
  split; [apply (appended_trans _ _ _ _ _ A1);
          apply (appended_trans _ _ _ _ _ A2);
          apply (appended_trans _ _ _ _ _ A3 A4)|].
  split; [|split; [exact Lc|]].
  - rewrite !evaluated_app, (evaluated_variation _ _ _ _ V2), evaluated_evaluations.
    cbn [evaluated app]. rewrite app_nil_r.
    apply Forall_map. exact F2.
  - apply selNSGA2_bounds. apply Forall_app. split; assumption.
Qed.

Lemma generations_bounds (k : Z) (cxpb : R) (attrs : list (string * R)) (gs : list Z) :
  (1 <= k)%Z ->
  forall (s : Locals) (w : World),
    toolbox w = toolbox_with_attributes attrs ->
    length (population s) = Z.to_nat k ->
    Forall in_bounds (population s) ->
    exists s' w' calls,
      for_each gs (generation_body D hypervolume evaluation_function k cxpb) s w
      = Done s' w'
      /\ appended w calls w'
      /\ Forall in_domain (evaluated calls)
      /\ Forall in_bounds (population s').
Proof.
  intros Hk. induction gs as [|g gs IH]; intros s w T L F; cbn [for_each].
  - exists s, w, []. split; [reflexivity|]. split; [apply appended_refl|].
    split; [constructor|exact F].
  - destruct (generation_body_bounds k cxpb g s w attrs Hk T L F)
      as (s1 & w1 & calls1 & E1 & A1 & V1 & L1 & F1).
    rewrite (mbind_step _ _ _ _ _ E1).
    assert (T1 : toolbox w1 = toolbox_with_attributes attrs)
      by (rewrite (appended_toolbox _ _ _ A1); exact T).
    destruct (IH s1 w1 T1 L1 F1) as (s2 & w2 & calls2 & E2 & A2 & V2 & F2).
    exists s2, w2, (calls1 ++ calls2). split; [exact E2|].
    split; [apply (appended_trans _ _ _ _ _ A1 A2)|].
    split; [rewrite evaluated_app; apply Forall_app; split; assumption|exact F2].
Qed.

Lemma toolbox_population_bounds (k : Z) (w : World) :
  unit_draws (rng w) ->
  attribute_float (toolbox w) = attribute_float registered_toolbox ->
  exists pop w',
    toolbox_population k w = Done pop w'
    /\ appended w [Created k] w'
    /\ length pop = Z.to_nat k
    /\ Forall in_bounds pop.
Proof.
  intros Hu Ha. unfold toolbox_population.
  destruct (record_done (Created k) w) as (w0 & E0 & A0).
  rewrite (mbind_step _ _ _ _ _ E0).
  destruct (individuals_in_domain (Z.to_nat k) w0) as (pop & w1 & E1 & A1 & L1 & F1).
  { assert (Hr : rng w0 = rng w) by (injection E0 as <-; reflexivity).
    rewrite Hr. exact Hu. }
  { rewrite (appended_toolbox _ _ _ A0). exact Ha. }
  exists pop, w1. split; [exact E1|].
  split; [apply (appended_trans _ _ _ _ _ A0 A1)|]. split; [exact L1|exact F1].
Qed.

Lemma optimize_locals_bounds (k gens : Z) (cxpb mutpb : R) (attrs : list (string * R))
  (w : World) :
  unit_draws (rng w) ->
  toolbox w = toolbox_with_attributes attrs ->
  (1 <= k)%Z ->
  exists s' w' calls,
    optimize_locals D hypervolume evaluation_function k gens cxpb mutpb w = Done s' w'
    /\ log w' = log w ++ calls
    /\ Forall in_domain (evaluated calls)
    /\ Forall in_bounds (population s').
Proof.
  intros Hu T Hk. unfold optimize_locals.
  pose proof (set_mutate_attribute_world "indpb" mutpb w) as E0.
  set (w0 := {| rng := rng w;
                toolbox := {| attribute_float := attribute_float (toolbox w);
                              mate := mate (toolbox w);
                              mutate := setattr (mutate (toolbox w)) "indpb" mutpb |};
                log := log w |}) in E0.
  rewrite (mbind_step _ _ _ _ _ E0).
  assert (T0 : toolbox w0
               = toolbox_with_attributes
                   (attributes (setattr (mutate (toolbox_with_attributes attrs))
                                        "indpb" mutpb))).
  { unfold w0. cbn [toolbox]. rewrite T. reflexivity. }
  destruct (toolbox_population_bounds k w0) as (pop1 & w1 & E1 & A1 & L1 & F1).
  { exact Hu. }
  { rewrite T0. reflexivity. }
  rewrite (mbind_step _ _ _ _ _ E1).
  destruct (assign_fitnesses_on_domain pop1 F1 w1) as (pop2 & w2 & E2 & R2).
  unfold evaluation_function. rewrite (mbind_step _ _ _ _ _ E2).
  destruct (assign_fitnesses_trace _ _ _ _ _ E2) as (A2 & _).
  destruct (toolbox_select_done D 0 pop2 (Z.of_nat (length pop2)) w2) as (w3 & E3 & A3).
  rewrite (mbind_step _ _ _ _ _ E3).
  assert (L2 : length pop2 = Z.to_nat k)
    by (rewrite <- (Forall2_length R2); exact L1).
  assert (F2 : Forall in_bounds pop2).
  { clear - R2 F1. induction R2 as [|a b l l' (Hg & _) _ IH]; [constructor|].
    inversion F1; subst. constructor; [unfold in_bounds; rewrite Hg; assumption|].
    apply IH. assumption. }
  set (chosen := selNSGA2 D pop2 (Z.of_nat (length pop2))) in *.
  assert (L3 : length chosen = Z.to_nat k).
  { unfold chosen. destruct sizes as [Hsel _]. rewrite Hsel by lia.
    rewrite Nat2Z.id. exact L2. }
  pose proof (appended_trans _ _ _ _ _ A1 (appended_trans _ _ _ _ _ A2 A3)) as A03.
  assert (T3 : toolbox w3 = toolbox_with_attributes
                 (attributes (setattr (mutate (toolbox_with_attributes attrs))
                                      "indpb" mutpb)))
    by (rewrite (appended_toolbox _ _ _ A03); exact T0).
  destruct (generations_bounds k cxpb _ (py_range 1 gens) Hk
              {| population := chosen; hypervolume_value := None;
                 hypervolume_history := [(0, 0)] |} w3 T3 L3
              (selNSGA2_bounds _ _ F2))
    as (s' & w4 & gcalls & E4 & A4 & V4 & F4).
  fold evaluation_function.
  exists s', w4. eexists. split; [exact E4|].
  destruct (appended_trans _ _ _ _ _ A03 A4) as [_ L].
  split; [exact L|]. split; [|exact F4].
  rewrite !evaluated_app, evaluated_evaluations. cbn [evaluated app].
  rewrite app_nil_r.
  apply Forall_app. split; [apply Forall_map; exact F1|exact V4].
Qed.

Lemma optimize_evaluation_function_done (k gens : Z) (cxpb mutpb : R)
  (attrs : list (string * R)) (w : World) :
  unit_draws (rng w) ->
  toolbox w = toolbox_with_attributes attrs ->
  (1 <= k)%Z ->
  (2 <= gens)%Z ->
  exists v w' calls,
    optimize D hypervolume evaluation_function k gens cxpb mutpb w = Done v w'
    /\ log w' = log w ++ calls
    /\ Forall in_domain (evaluated calls).
Proof.
  intros Hu T Hn Hg. unfold optimize.
  destruct (optimize_locals_bounds k gens cxpb mutpb attrs w Hu T Hn)
    as (s' & w' & calls & E & L & V & _).
  rewrite (mbind_step _ _ _ _ _ E).
  destruct (optimize_locals_value _ _ _ _ _ _ _ _ _ _ E) as [(Hg' & _)|(_ & Hv & _)];
    [lia|].
  rewrite Hv. eexists. exists w', calls. split; [reflexivity|]. split; assumption.
Qed.

End Bounds.

(** X21. A run of [optimize] with the Python evaluation function
    returns a value and evaluates only gene vectors of [0,1]^4: from
    the registered toolbox (whatever attributes were assigned on
    [toolbox.mutate]), with draws of [random.random()] in [0, 1), a
    population of one individual or more and two generations or more,
    when the operators of the library keep the genes within the bounds
    they are given, its selections return individuals of their
    argument, as many as asked, and its sorting returns a front.  (The
    calls that draw are not part of the model.) *)
Theorem optimize_welded_beam_returns
  (D : DEAP) (hypervolume : Hypervolume) (population_size number_of_generations : Z)
  (crossover_probability mutation_probability : R) (attrs : list (string * R))
  (w : World) :
  operators_keep_bounds D ->
  selections_choose D ->
  selection_sizes D ->
  fronts_of_all D ->
  unit_draws (rng w) ->
  toolbox w = toolbox_with_attributes attrs ->
  (1 <= population_size)%Z ->
  (2 <= number_of_generations)%Z ->
  exists v w' calls,
    optimize D hypervolume evaluation_function population_size number_of_generations
             crossover_probability mutation_probability w = Done v w'
    /\ log w' = log w ++ calls
    /\ Forall in_domain (evaluated calls).
Proof.
  intros Hk Hc Hs Hf Hu T Hn Hg.
  apply (optimize_evaluation_function_done D hypervolume Hk Hc Hs Hf _ _ _ _ attrs);
    assumption.
Qed.

Lemma optimize_welded_beam_returns_witness :
  operators_keep_bounds toy_deap
  /\ selections_choose toy_deap
  /\ selection_sizes toy_deap
  /\ fronts_of_all toy_deap
  /\ unit_draws (rng (initial_world zero_rng))
  /\ toolbox (initial_world zero_rng) = toolbox_with_attributes []
  /\ (1 <= 20)%Z
  /\ (2 <= 20)%Z
  /\ exists v w' calls,
       optimize toy_deap toy_hypervolume evaluation_function 20 20 0.9 0.1
                (initial_world zero_rng) = Done v w'
       /\ log w' = log (initial_world zero_rng) ++ calls
       /\ Forall in_domain (evaluated calls).
Proof.
  split; [exact toy_operators_keep_bounds|]. split; [exact toy_selections_choose|].
  split; [exact toy_selection_sizes|]. split; [exact toy_fronts_of_all|].
  split; [exact zero_rng_unit|]. split; [reflexivity|].
  split; [lia|]. split; [lia|].
  apply (optimize_welded_beam_returns toy_deap toy_hypervolume 20 20 0.9 0.1 []
           (initial_world zero_rng) toy_operators_keep_bounds toy_selections_choose
           toy_selection_sizes toy_fronts_of_all zero_rng_unit eq_refl);
    lia.
Defined.

(** ** The handler of the button *)

Section Handler.
Variable D : DEAP.
Variable hypervolume : Hypervolume.
Variable evaluate : list R -> result (list R).

Lemma create_figure_rest (nb : Notebook) :
  evolution_button (create_figure nb) = evolution_button nb
  /\ sliders (create_figure nb) = sliders nb
  /\ stdout (create_figure nb) = stdout nb
  /\ world (create_figure nb) = world nb.
Proof. unfold create_figure. destruct (main_figure nb); repeat split. Qed.

Lemma on_button_clicked_figure (nb : Notebook) :
  main_figure (fst (on_button_clicked D hypervolume evaluate nb))
  = main_figure (create_figure nb)
  /\ figures (fst (on_button_clicked D hypervolume evaluate nb))
     = figures (create_figure nb).
Proof.
  unfold on_button_clicked. cbv zeta.
  destruct (optimize D hypervolume evaluate _ _ _ _ _); split; reflexivity.
Qed.

Lemma clicks_figure (n : nat) :
  forall nb f,
    main_figure nb = Some f ->
    main_figure (clicks D hypervolume evaluate n nb) = Some f
    /\ figures (clicks D hypervolume evaluate n nb) = figures nb.
Proof.
  induction n as [|n IH]; intros nb f Hf; cbn [clicks].
  - split; [exact Hf|reflexivity].
  - destruct (on_button_clicked_figure nb) as [Hm Hc].
    assert (Hcf : create_figure nb = nb) by (unfold create_figure; rewrite Hf; reflexivity).
    rewrite Hcf in Hm, Hc.
    destruct (IH (fst (on_button_clicked D hypervolume evaluate nb)) f) as [IH1 IH2].
    { rewrite Hm. exact Hf. }
    split; [exact IH1|]. rewrite IH2. exact Hc.
Qed.

End Handler.

Lemma failing_evaluate_run (D : DEAP) (hypervolume : Hypervolume) (k gens : Z)
  (cxpb mutpb : R) (w : World) :
  (1 <= k)%Z ->
  exists w', optimize D hypervolume failing_evaluate k gens cxpb mutpb w
             = Failed ValueError w'.
Proof.
  intros Hk.
  destruct (set_mutate_attribute_done "indpb" mutpb w) as (w0 & E0 & _).
  destruct (toolbox_population_done k w0) as (pop & w1 & E1 & _ & L1).
  destruct pop as [|ind rest]; [cbn in L1; lia|].
  destruct (record_done (Evaluated (genes ind)) w1) as (w2 & E2 & _).
  assert (E3 : assign_fitnesses failing_evaluate (ind :: rest) w1 = Failed ValueError w2).
  { cbn [assign_fitnesses]. rewrite (mbind_step _ _ _ _ _ E2). reflexivity. }
  assert (E : optimize_locals D hypervolume failing_evaluate k gens cxpb mutpb w
              = Failed ValueError w2).
  { unfold optimize_locals.
    rewrite (mbind_step _ _ _ _ _ E0), (mbind_step _ _ _ _ _ E1).
    unfold mbind at 1. rewrite E3. reflexivity. }
  exists w2. unfold optimize, mbind. rewrite E. reflexivity.
Qed.

(** X22. When [optimize] raises, the handler lets the exception
    through with the button still disabled and labelled "Evolution in
    progress...": the four parameters were printed, the final
    hypervolume and the separator were not, and the figure exists. *)
Theorem failed_click_leaves_button_disabled
  (D : DEAP) (hypervolume : Hypervolume) (evaluate : list R -> result (list R))
  (nb : Notebook) (e : exn) (w' : World) :
  optimize D hypervolume evaluate
           (population_size_slider (sliders nb))
           (number_of_generations_slider (sliders nb))
           (crossover_probability_slider (sliders nb))
           (mutation_probability_slider (sliders nb)) (world nb) = Failed e w' ->
  exists nb',
    on_button_clicked D hypervolume evaluate nb = (nb', Some e)
    /\ evolution_button nb'
       = {| disabled := true; description := "Evolution in progress..." |}
    /\ stdout nb'
       = stdout nb
         ++ [Population_size (population_size_slider (sliders nb));
             Number_of_generations (number_of_generations_slider (sliders nb));
             Crossover_probability (crossover_probability_slider (sliders nb));
             Mutation_probability (mutation_probability_slider (sliders nb))]
    /\ main_figure nb' <> None
    /\ world nb' = w'.
Proof.
  intros H. unfold on_button_clicked. cbv zeta.
  destruct (create_figure_rest nb) as (_ & Es & Eo & Ew).
  rewrite Es, Eo, Ew, H.
  eexists. split; [reflexivity|]. cbn [evolution_button stdout main_figure world].
  split; [reflexivity|]. split; [reflexivity|]. split; [|reflexivity].
  unfold create_figure. destruct (main_figure nb) eqn:Ef; cbn [main_figure].
  - rewrite Ef. discriminate.
  - discriminate.
Qed.

Lemma failed_click_leaves_button_disabled_witness :
  exists e w' nb',
    optimize toy_deap toy_hypervolume failing_evaluate
             (population_size_slider (sliders (initial_notebook (initial_world zero_rng))))
             (number_of_generations_slider
                (sliders (initial_notebook (initial_world zero_rng))))
             (crossover_probability_slider
                (sliders (initial_notebook (initial_world zero_rng))))
             (mutation_probability_slider
                (sliders (initial_notebook (initial_world zero_rng))))
             (world (initial_notebook (initial_world zero_rng))) = Failed e w'
    /\ on_button_clicked toy_deap toy_hypervolume failing_evaluate
                         (initial_notebook (initial_world zero_rng)) = (nb', Some e)
    /\ evolution_button nb'
       = {| disabled := true; description := "Evolution in progress..." |}.
Proof.
  destruct (failing_evaluate_run toy_deap toy_hypervolume
              (population_size_slider (sliders (initial_notebook (initial_world zero_rng))))
              (number_of_generations_slider
                 (sliders (initial_notebook (initial_world zero_rng))))
              (crossover_probability_slider
                 (sliders (initial_notebook (initial_world zero_rng))))
              (mutation_probability_slider
                 (sliders (initial_notebook (initial_world zero_rng))))
              (world (initial_notebook (initial_world zero_rng))))
    as (w' & H); [cbn; lia|].
  destruct (failed_click_leaves_button_disabled toy_deap toy_hypervolume failing_evaluate
              (initial_notebook (initial_world zero_rng)) ValueError w' H)
    as (nb' & E & B & _).
  exists ValueError, w', nb'. split; [exact H|]. split; [exact E|exact B].
Defined.

(** X23. A click with the sliders within their ranges completes: the
    population size is then a multiple of 4 and the number of
    generations is 20 or more, so that (under the same conditions on
    the library as for a run of [optimize]) no exception leaves the
    handler, the final hypervolume and the separator are printed and
    the button is enabled again under its first label. *)
Theorem click_with_slider_values_completes
  (D : DEAP) (hypervolume : Hypervolume) (attrs : list (string * R)) (nb : Notebook) :
  operators_keep_bounds D ->
  selections_choose D ->
  selection_sizes D ->
  fronts_of_all D ->
  slider_values (sliders nb) ->
  unit_draws (rng (world nb)) ->
  toolbox (world nb) = toolbox_with_attributes attrs ->
  exists nb' v,
    on_button_clicked D hypervolume evaluation_function nb = (nb', None)
    /\ evolution_button nb' = {| disabled := false; description := "Start evolution" |}
    /\ stdout nb'
       = stdout nb
         ++ [Population_size (population_size_slider (sliders nb));
             Number_of_generations (number_of_generations_slider (sliders nb));
             Crossover_probability (crossover_probability_slider (sliders nb));
             Mutation_probability (mutation_probability_slider (sliders nb));
             Final_hypervolume v; Separator]
    /\ (4 | population_size_slider (sliders nb))%Z.
Proof.
  intros Hk Hc Hs Hf ((Hn & q & Hq) & (Hg & _) & _ & _) Hu T.
  destruct (optimize_evaluation_function_done D hypervolume Hk Hc Hs Hf
              (population_size_slider (sliders nb))
              (number_of_generations_slider (sliders nb))
              (crossover_probability_slider (sliders nb))
              (mutation_probability_slider (sliders nb)) attrs (world nb) Hu T)
    as (v & w' & _ & E & _); [lia|lia|].
  unfold on_button_clicked. cbv zeta.
  destruct (create_figure_rest nb) as (_ & Es & Eo & Ew).
  rewrite Es, Eo, Ew, E.
  eexists. exists v. split; [reflexivity|]. cbn [evolution_button stdout].
  split; [reflexivity|]. split; [rewrite <- app_assoc; reflexivity|].
  exists (5 * q + 5)%Z. lia.
Qed.

Lemma initial_slider_values (w : World) : slider_values (sliders (initial_notebook w)).
Proof.
  cbn [initial_notebook sliders]. unfold slider_values, int_slider, float_slider.
  cbn [population_size_slider number_of_generations_slider
       crossover_probability_slider mutation_probability_slider].
  split; [split; [lia|exists 4%Z; lia]|].
  split; [split; [lia|exists 4%Z; lia]|].
  split; lra.
Qed.

Lemma click_with_slider_values_completes_witness :
  operators_keep_bounds toy_deap
  /\ selections_choose toy_deap
  /\ selection_sizes toy_deap
  /\ fronts_of_all toy_deap
  /\ slider_values (sliders (initial_notebook (initial_world zero_rng)))
  /\ unit_draws (rng (world (initial_notebook (initial_world zero_rng))))
  /\ toolbox (world (initial_notebook (initial_world zero_rng)))
     = toolbox_with_attributes []
  /\ exists nb',
       on_button_clicked toy_deap toy_hypervolume evaluation_function
                         (initial_notebook (initial_world zero_rng)) = (nb', None)
       /\ evolution_button nb'
          = {| disabled := false; description := "Start evolution" |}.
Proof.
  split; [exact toy_operators_keep_bounds|]. split; [exact toy_selections_choose|].
  split; [exact toy_selection_sizes|]. split; [exact toy_fronts_of_all|].
  split; [apply initial_slider_values|]. split; [exact zero_rng_unit|].
  split; [reflexivity|].
  destruct (click_with_slider_values_completes toy_deap toy_hypervolume []
              (initial_notebook (initial_world zero_rng))
              toy_operators_keep_bounds toy_selections_choose toy_selection_sizes
              toy_fronts_of_all (initial_slider_values _) zero_rng_unit eq_refl)
    as (nb' & v & E & B & _).
  exists nb'. split; [exact E|exact B].
Defined.

(** X24. However many times the handler runs, and whether its runs of
    [optimize] return or raise, one figure is created, at the first
    click, and it stays the main figure. *)
Theorem clicks_create_one_figure
  (D : DEAP) (hypervolume : Hypervolume) (evaluate : list R -> result (list R))
  (n : nat) (nb : Notebook) :
  main_figure nb = None ->
  main_figure (clicks D hypervolume evaluate (S n) nb) = Some (S (figures nb))
  /\ figures (clicks D hypervolume evaluate (S n) nb) = S (figures nb).
Proof.
  intros Hf. cbn [clicks].
  destruct (on_button_clicked_figure D hypervolume evaluate nb) as [Hm Hc].
  unfold create_figure in Hm, Hc. rewrite Hf in Hm, Hc. cbn [main_figure figures] in Hm, Hc.
  destruct (clicks_figure D hypervolume evaluate n _ _ Hm) as [H1 H2].
  split; [exact H1|]. rewrite H2. exact Hc.
Qed.

Lemma clicks_create_one_figure_witness :
  main_figure (initial_notebook (initial_world zero_rng)) = None
  /\ main_figure (clicks toy_deap toy_hypervolume toy_evaluate 3
                         (initial_notebook (initial_world zero_rng)))
     = Some (S (figures (initial_notebook (initial_world zero_rng))))
  /\ figures (clicks toy_deap toy_hypervolume toy_evaluate 3
                     (initial_notebook (initial_world zero_rng)))
     = S (figures (initial_notebook (initial_world zero_rng))).
Proof.
  split; [reflexivity|].
  apply (clicks_create_one_figure toy_deap toy_hypervolume toy_evaluate 2
           (initial_notebook (initial_world zero_rng)) eq_refl).
Defined.
